(** * usp10 OpenType font-table access: cmap format 12 and GDEF glyph classes

    A shallow embedding of [dlls/usp10/opentype.c]: the lazily fetched
    [cmap] and [GDEF] tables, the supplementary-plane glyph lookup
    [OpenType_CMAP_GetGlyphIndex], the glyph classifier
    [GDEF_get_glyph_class] and the property annotator
    [OpenType_GDEF_UpdateGlyphProps].

    Font tables are heap blocks of bytes.  Every field access of the C code
    is a load at a byte offset from a pointer into such a block; a load that
    leaves the block is undefined behaviour in C and is an explicit
    [Fault OutOfBounds] here, so that the absence of bounds checks in the
    code is visible in the model. *)

From Stdlib Require Import ZArith List Lia Bool.
From Stdlib Require Import Strings.Byte.
Import ListNotations.
Local Open Scope Z_scope.

(* ================================================================== *)
(** ** Outcomes, diagnostics and the two monads *)

Inductive fault : Type :=
| OutOfBounds      (* load or store outside the addressed block/array *)
| Uninitialised.   (* load of heap bytes nobody has written *)

Inductive outcome (A : Type) : Type :=
| Ok (a : A)
| Fault (f : fault).
Arguments Ok {A} a.
Arguments Fault {A} f.

(** Messages of the [uniscribe] debug channel. *)
Inductive msg : Type :=
| TRACE_Loaded_cmap (len : Z)          (* "Loaded cmap table of %i bytes" *)
| TRACE_Loaded_GDEF (len : Z)          (* "Loaded GDEF table of %i bytes" *)
| ERR_Unknown_Class_Format (fmt : Z)   (* "Unknown Class Format %i" *)
| ERR_Unknown_glyph_class (cls : Z).   (* "Unknown glyph class %i" *)

(** [W]: code that only reads memory and writes diagnostics. *)
Definition W (A : Type) : Type := outcome (A * list msg).

Definition retW {A} (a : A) : W A := Ok (a, []).

Definition bindW {A B} (c : W A) (k : A -> W B) : W B :=
  match c with
  | Ok (a, l1) =>
      match k a with
      | Ok (b, l2) => Ok (b, l1 ++ l2)
      | Fault f => Fault f
      end
  | Fault f => Fault f
  end.

Definition ERR (m : msg) : W unit := Ok (tt, [m]).

Declare Scope W_scope.
Delimit Scope W_scope with W.
Notation "x <- c ;; k" := (bindW c (fun x => k))
  (at level 61, c at next level, right associativity) : W_scope.
Notation "c ;; k" := (bindW c (fun _ => k))
  (at level 61, right associativity) : W_scope.

(* ================================================================== *)
(** ** Heap blocks and big-endian field loads *)

(** A block obtained from [HeapAlloc(GetProcessHeap(), 0, blk_size)].
    [blk_data] holds the bytes written so far at the start of the block;
    the remaining [blk_size - length blk_data] bytes are uninitialised. *)
Record block : Type := { blk_size : Z; blk_data : list byte }.

(** A non-null pointer: a block and a byte offset into it. *)
Record ptr : Type := { p_blk : block; p_ofs : Z }.

(** [(BYTE* )p + n] *)
Definition ptr_add (p : ptr) (n : Z) : ptr :=
  {| p_blk := p_blk p; p_ofs := p_ofs p + n |}.
Infix "+p" := ptr_add (at level 50, left associativity).

Definition load_BYTE (p : ptr) (off : Z) : W Z :=
  let a := p_ofs p + off in
  if (a <? 0) || (blk_size (p_blk p) <=? a) then Fault OutOfBounds
  else match nth_error (blk_data (p_blk p)) (Z.to_nat a) with
       | Some b => retW (Z.of_N (Byte.to_N b))
       | None => Fault Uninitialised
       end.

(** Loads of the (little-endian) host: the build without [WORDS_BIGENDIAN],
    where [GET_BE_WORD] and [GET_BE_DWORD] swap bytes. *)
Definition load_WORD (p : ptr) (off : Z) : W Z :=
  (b0 <- load_BYTE p off ;;
   b1 <- load_BYTE p (off + 1) ;;
   retW (b0 + 256 * b1))%W.

Definition load_DWORD (p : ptr) (off : Z) : W Z :=
  (b0 <- load_BYTE p off ;;
   b1 <- load_BYTE p (off + 1) ;;
   b2 <- load_BYTE p (off + 2) ;;
   b3 <- load_BYTE p (off + 3) ;;
   retW (b0 + 256 * b1 + 65536 * b2 + 16777216 * b3))%W.

(** [RtlUshortByteSwap] and [RtlUlongByteSwap] (winternl.h). *)
Definition RtlUshortByteSwap (x : Z) : Z :=
  (x mod 256) * 256 + (x / 256) mod 256.

Definition RtlUlongByteSwap (x : Z) : Z :=
  (x mod 256) * 16777216 + ((x / 256) mod 256) * 65536
  + ((x / 65536) mod 256) * 256 + (x / 16777216) mod 256.

Definition GET_BE_WORD (x : Z) : Z := RtlUshortByteSwap x.
Definition GET_BE_DWORD (x : Z) : Z := RtlUlongByteSwap x.

(** [GET_BE_WORD(p->field)] and [GET_BE_DWORD(p->field)], the field being at
    byte offset [off] of the structure [p] points to. *)
Definition be_word (p : ptr) (off : Z) : W Z :=
  (x <- load_WORD p off ;; retW (GET_BE_WORD x))%W.

Definition be_dword (p : ptr) (off : Z) : W Z :=
  (x <- load_DWORD p off ;; retW (GET_BE_DWORD x))%W.

(** Structure layouts (byte offsets of the fields and element sizes). *)
Module CMAP_Header.
Definition version := 0.
Definition numTables := 2.
Definition tables := 4.
End CMAP_Header.

Module CMAP_EncodingRecord.
Definition platformID := 0.
Definition encodingID := 2.
Definition offset := 4.
Definition sizeof := 8.
End CMAP_EncodingRecord.

Module CMAP_SegmentedCoverage.
Definition format := 0.
Definition reserved := 2.
Definition length := 4.
Definition language := 8.
Definition nGroups := 12.
Definition groups := 16.
End CMAP_SegmentedCoverage.

Module CMAP_SegmentedCoverage_group.
Definition startCharCode := 0.
Definition endCharCode := 4.
Definition startGlyphID := 8.
Definition sizeof := 12.
End CMAP_SegmentedCoverage_group.

Module GDEF_Header.
Definition Version := 0.
Definition GlyphClassDef := 4.
Definition AttachList := 6.
Definition LigCaretList := 8.
Definition MarkAttachClassDef := 10.
End GDEF_Header.

Module GDEF_ClassDefFormat1.
Definition ClassFormat := 0.
Definition StartGlyph := 2.
Definition GlyphCount := 4.
Definition ClassValueArray := 6.
End GDEF_ClassDefFormat1.

Module GDEF_ClassRangeRecord.
Definition Start := 0.
Definition End_ := 2.
Definition Class := 4.
Definition sizeof := 6.
End GDEF_ClassRangeRecord.

Module GDEF_ClassDefFormat2.
Definition ClassFormat := 0.
Definition ClassRangeCount := 2.
Definition ClassRangeRecord := 4.
End GDEF_ClassDefFormat2.

(** [enum {BaseGlyph=1, LigatureGlyph, MarkGlyph, ComponentGlyph}] *)
Definition BaseGlyph := 1.
Definition LigatureGlyph := 2.
Definition MarkGlyph := 3.
Definition ComponentGlyph := 4.

(* ================================================================== *)
(** ** GDEF: the glyph classifier *)

(** The [for (i = 0; i < top; i++)] loop over the class ranges of a format-2
    subtable, with [n] iterations left; [class] is still [0] when it ends
    without a [break]. *)
Fixpoint ClassRangeRecord_loop (cf2 : ptr) (glyph : Z) (n : nat) (i : Z) : W Z :=
  match n with
  | O => retW 0
  | S n' =>
      let rec_ := GDEF_ClassDefFormat2.ClassRangeRecord
                  + GDEF_ClassRangeRecord.sizeof * i in
      (s <- be_word cf2 (rec_ + GDEF_ClassRangeRecord.Start) ;;
       if s <=? glyph then
         e <- be_word cf2 (rec_ + GDEF_ClassRangeRecord.End_) ;;
         if glyph <=? e then
           be_word cf2 (rec_ + GDEF_ClassRangeRecord.Class)
         else ClassRangeRecord_loop cf2 glyph n' (i + 1)
       else ClassRangeRecord_loop cf2 glyph n' (i + 1))%W
  end.

(** [header] is [psc->GDEF_Table]: [None] is the null pointer.  The C code
    loads [ClassFormat] and [StartGlyph] again at each use; the table does
    not change in between, so each is loaded once here. *)
Definition GDEF_get_glyph_class (header : option ptr) (glyph : Z) : W Z :=
  match header with
  | None => retW 0
  | Some header =>
      (offset <- be_word header GDEF_Header.GlyphClassDef ;;
       if offset =? 0 then retW 0
       else
         let cf1 := header +p offset in
         fmt <- be_word cf1 GDEF_ClassDefFormat1.ClassFormat ;;
         if fmt =? 1 then
           start <- be_word cf1 GDEF_ClassDefFormat1.StartGlyph ;;
           if start <=? glyph then
             let index := glyph - start in
             count <- be_word cf1 GDEF_ClassDefFormat1.GlyphCount ;;
             if index <? count then
               be_word cf1 (GDEF_ClassDefFormat1.ClassValueArray + 2 * index)
             else retW 0
           else retW 0
         else if fmt =? 2 then
           let cf2 := cf1 in
           top <- be_word cf2 GDEF_ClassDefFormat2.ClassRangeCount ;;
           ClassRangeRecord_loop cf2 glyph (Z.to_nat top) 0
         else
           ERR (ERR_Unknown_Class_Format fmt) ;;
           retW 0)%W
  end.

(* ================================================================== *)
(** ** The shaping context, the external collaborators and the state monad *)

(** [MS_MAKE_TAG('c','m','a','p')] and [MS_MAKE_TAG('G','D','E','F')]. *)
Inductive FontTableTag : Type := CMAP_TAG | GDEF_TAG.

(** The fields of [ScriptCache] (usp10_internal.h) this file uses; [None] is
    the null pointer.  [CMAP_format12_Table] points into the block of
    [CMAP_Table]. *)
Record ScriptCache : Type := {
  GDEF_Table : option ptr;
  CMAP_Table : option ptr;
  CMAP_format12_Table : option ptr
}.

(** [SCRIPT_GLYPHPROP] (usp10.h): the bit fields of [sva] and [reserved]. *)
Record SCRIPT_GLYPHPROP : Type := {
  uJustification : Z;
  fClusterStart : bool;
  fDiacritic : bool;
  fZeroWidth : bool;
  fReserved : bool;
  fShapeReserved : Z;
  reserved : Z
}.

(** Calls into gdi32, in the order they are issued. *)
Inductive call : Type :=
| Call_GetFontData (tag : FontTableTag) (pvBuffer : option block) (cbData : Z)
| Call_GetGlyphIndicesW (ch : Z) (flags : Z).

(** Modelled from the spec: the font data provider and the BMP glyph lookup
    behind a device context (gdi32's [GetFontData] and [GetGlyphIndicesW],
    which usp10 calls and does not define).
    [font_data n tag] is what the provider has for [tag] when [n] calls have
    been issued before ([None]: the tag is not present or the read fails now);
    [glyph_indices ch flags] is the return value of the BMP lookup for the
    single character [ch] and the glyph index it stores, if it stores one. *)
Record HDC : Type := {
  font_data : nat -> FontTableTag -> option (list byte);
  glyph_indices : Z -> Z -> Z * option Z
}.

(** What the functions of this file can change: the cache [*psc], the
    caller's [*pgi] and [pGlyphProp[]], and the outside world's view (calls
    issued, debug channel). *)
Record State : Type := {
  psc : ScriptCache;
  mem_pgi : Z;
  mem_pGlyphProp : list SCRIPT_GLYPHPROP;
  calls : list call;
  log : list msg
}.

Definition M (A : Type) : Type := State -> outcome (A * State).

Definition ret {A} (a : A) : M A := fun s => Ok (a, s).

Definition bind {A B} (c : M A) (k : A -> M B) : M B :=
  fun s => match c s with
           | Ok (a, s') => k a s'
           | Fault f => Fault f
           end.

Declare Scope M_scope.
Delimit Scope M_scope with M.
Notation "x <- c ;; k" := (bind c (fun x => k))
  (at level 61, c at next level, right associativity) : M_scope.
Notation "c ;; k" := (bind c (fun _ => k))
  (at level 61, right associativity) : M_scope.

Definition get : M State := fun s => Ok (s, s).

(** Run a reading computation; its diagnostics go to the debug channel. *)
Definition liftW {A} (c : W A) : M A :=
  fun s => match c with
           | Ok (a, l) =>
               Ok (a, {| psc := psc s; mem_pgi := mem_pgi s;
                         mem_pGlyphProp := mem_pGlyphProp s;
                         calls := calls s; log := log s ++ l |})
           | Fault f => Fault f
           end.

Definition TRACE (m : msg) : M unit := liftW (Ok (tt, [m])).

Definition set_psc (c : ScriptCache) : M unit :=
  fun s => Ok (tt, {| psc := c; mem_pgi := mem_pgi s;
                      mem_pGlyphProp := mem_pGlyphProp s;
                      calls := calls s; log := log s |}).

Definition set_GDEF_Table (t : option ptr) : M unit :=
  (s <- get ;;
   set_psc {| GDEF_Table := t; CMAP_Table := CMAP_Table (psc s);
              CMAP_format12_Table := CMAP_format12_Table (psc s) |})%M.

Definition set_CMAP_Table (t : option ptr) : M unit :=
  (s <- get ;;
   set_psc {| GDEF_Table := GDEF_Table (psc s); CMAP_Table := t;
              CMAP_format12_Table := CMAP_format12_Table (psc s) |})%M.

Definition set_CMAP_format12_Table (t : option ptr) : M unit :=
  (s <- get ;;
   set_psc {| GDEF_Table := GDEF_Table (psc s);
              CMAP_Table := CMAP_Table (psc s);
              CMAP_format12_Table := t |})%M.

(** [*pgi = v] *)
Definition store_pgi (v : Z) : M unit :=
  fun s => Ok (tt, {| psc := psc s; mem_pgi := v;
                      mem_pGlyphProp := mem_pGlyphProp s;
                      calls := calls s; log := log s |}).

Definition record_call (c : call) : M unit :=
  fun s => Ok (tt, {| psc := psc s; mem_pgi := mem_pgi s;
                      mem_pGlyphProp := mem_pGlyphProp s;
                      calls := calls s ++ [c]; log := log s |}).

Definition GDI_ERROR := 0xffffffff.
Definition GGI_MARK_NONEXISTING_GLYPHS := 0x0001.

(** [HeapAlloc(GetProcessHeap(), 0, size)]; the allocation is taken to
    succeed (the code does not test its result). *)
Definition HeapAlloc (size : Z) : M ptr :=
  ret {| p_blk := {| blk_size := size; blk_data := [] |}; p_ofs := 0 |}.

(** [GetFontData(hdc, tag, 0, NULL, 0)]: the length of the table, or
    [GDI_ERROR]. *)
Definition GetFontData_size (hdc : HDC) (tag : FontTableTag) : M Z :=
  (s <- get ;;
   record_call (Call_GetFontData tag None 0) ;;
   match font_data hdc (List.length (calls s)) tag with
   | Some bytes => ret (Z.of_nat (List.length bytes))
   | None => ret GDI_ERROR
   end)%M.

(** [GetFontData(hdc, tag, 0, buf, cbData)]: copies at most [cbData] bytes of
    the table to the start of the block of [buf] and returns the number
    copied, or copies nothing and returns [GDI_ERROR].  The block as it is
    after the call comes with the return value.  Both callers pass the size
    of the block as [cbData]. *)
Definition GetFontData (hdc : HDC) (tag : FontTableTag) (buf : ptr) (cbData : Z)
  : M (Z * ptr) :=
  (s <- get ;;
   record_call (Call_GetFontData tag (Some (p_blk buf)) cbData) ;;
   match font_data hdc (List.length (calls s)) tag with
   | Some bytes =>
       let copied := firstn (Z.to_nat cbData) bytes in
       ret (Z.of_nat (List.length copied),
            {| p_blk := {| blk_size := blk_size (p_blk buf);
                           blk_data := copied ++ skipn (List.length copied)
                                                       (blk_data (p_blk buf)) |};
               p_ofs := p_ofs buf |})
   | None => ret (GDI_ERROR, buf)
   end)%M.

(** [GetGlyphIndicesW(hdc, &ch, 1, pgi, flags)] *)
Definition GetGlyphIndicesW (hdc : HDC) (ch : Z) (flags : Z) : M Z :=
  (record_call (Call_GetGlyphIndicesW ch flags) ;;
   let '(r, gi) := glyph_indices hdc ch flags in
   match gi with
   | Some g => store_pgi g ;; ret r
   | None => ret r
   end)%M.

(* ================================================================== *)
(** ** CMAP: the format-12 subtable and the glyph lookup *)

(** The [for (i = 0; i < numTables; i++)] loop over the encoding records,
    with [n] iterations left.  (The C loop re-reads [numTables] from the
    table on every test; the table does not change, so it is read once by
    the caller.) *)
Fixpoint CMAP_tables_loop (CMAP_Table : ptr) (n : nat) (i : Z) : W (option ptr) :=
  match n with
  | O => retW None
  | S n' =>
      let rec_ := CMAP_Header.tables + CMAP_EncodingRecord.sizeof * i in
      (platformID <- be_word CMAP_Table (rec_ + CMAP_EncodingRecord.platformID) ;;
       if platformID =? 3 then
         encodingID <- be_word CMAP_Table (rec_ + CMAP_EncodingRecord.encodingID) ;;
         if encodingID =? 10 then
           offset <- be_dword CMAP_Table (rec_ + CMAP_EncodingRecord.offset) ;;
           let format := CMAP_Table +p offset in
           fmt <- be_word format CMAP_SegmentedCoverage.format ;;
           if fmt =? 12 then retW (Some format)
           else CMAP_tables_loop CMAP_Table n' (i + 1)
         else CMAP_tables_loop CMAP_Table n' (i + 1)
       else CMAP_tables_loop CMAP_Table n' (i + 1))%W
  end.

(** The second half of [load_CMAP_format12_table]: the scan of the cached
    table for the (3, 10) encoding record with a format-12 subtable. *)
Definition CMAP_find_format12 (CMAP_Table : ptr) : W (option ptr) :=
  (numTables <- be_word CMAP_Table CMAP_Header.numTables ;;
   CMAP_tables_loop CMAP_Table (Z.to_nat numTables) 0)%W.

(** The C code stores the fresh block in [psc->CMAP_Table] and then has it
    filled; nothing reads the cache in between, so the filled block is
    stored here. *)
Definition load_CMAP_format12_table (hdc : HDC) : M (option ptr) :=
  (s <- get ;;
   match CMAP_Table (psc s) with
   | Some CMAP_Table => liftW (CMAP_find_format12 CMAP_Table)
   | None =>
       len <- GetFontData_size hdc CMAP_TAG ;;
       if negb (len =? GDI_ERROR) then
         buf <- HeapAlloc len ;;
         r <- GetFontData hdc CMAP_TAG buf len ;;
         set_CMAP_Table (Some (snd r)) ;;
         TRACE (TRACE_Loaded_cmap len) ;;
         liftW (CMAP_find_format12 (snd r))
       else ret None
   end)%M.

Definition compare_group (chr : Z) (group : ptr) : W Z :=
  (startCharCode <- be_dword group CMAP_SegmentedCoverage_group.startCharCode ;;
   if chr <? startCharCode then retW (-1)
   else
     endCharCode <- be_dword group CMAP_SegmentedCoverage_group.endCharCode ;;
     if endCharCode <? chr then retW 1
     else retW 0)%W.

(** Modelled from the spec: [bsearch] of the C library, which the code calls
    and does not define; the spec has it as a binary search of the group
    sequence with the comparator's ordering.  This is the
    usual loop over the half-open index range [l, u): probe the middle
    element, go left on a negative comparison, right on a positive one, stop
    on zero.  [fuel] bounds the iterations; [u - l] shrinks on every one, so
    [nmemb] of them are always enough (see [bsearch_loop_fuel]). *)
Fixpoint bsearch_loop (compar : Z -> ptr -> W Z) (key : Z) (base : ptr)
    (size : Z) (fuel : nat) (l u : Z) : W (option ptr) :=
  match fuel with
  | O => retW None
  | S fuel' =>
      if l <? u then
        let idx := (l + u) / 2 in
        let p := base +p (idx * size) in
        (comparison <- compar key p ;;
         if comparison <? 0 then bsearch_loop compar key base size fuel' l idx
         else if 0 <? comparison then
           bsearch_loop compar key base size fuel' (idx + 1) u
         else retW (Some p))%W
      else retW None
  end.

Definition bsearch (key : Z) (base : ptr) (nmemb size : Z)
    (compar : Z -> ptr -> W Z) : W (option ptr) :=
  bsearch_loop compar key base size (Z.to_nat nmemb) 0 nmemb.

(** [utf32c] and [flags] are [DWORD]s; the result is the function's return
    value, the glyph index goes to [*pgi]. *)
Definition OpenType_CMAP_GetGlyphIndex (hdc : HDC) (utf32c : Z) (flags : Z) : M Z :=
  if utf32c <? 0x10000 then
    (* BMP: use gdi32 for ease *)
    let ch := utf32c mod 0x10000 in
    GetGlyphIndicesW hdc ch flags
  else
    (s <- get ;;
     match CMAP_format12_Table (psc s) with
     | None =>
         t <- load_CMAP_format12_table hdc ;;
         set_CMAP_format12_Table t
     | Some _ => ret tt
     end ;;
     (if negb (Z.land flags GGI_MARK_NONEXISTING_GLYPHS =? 0)
      then store_pgi 0xffff
      else store_pgi 0) ;;
     s <- get ;;
     match CMAP_format12_Table (psc s) with
     | Some format =>
         nGroups <- liftW (be_dword format CMAP_SegmentedCoverage.nGroups) ;;
         group <- liftW (bsearch utf32c (format +p CMAP_SegmentedCoverage.groups)
                           nGroups CMAP_SegmentedCoverage_group.sizeof
                           compare_group) ;;
         match group with
         | Some group =>
             startCharCode <-
               liftW (be_dword group CMAP_SegmentedCoverage_group.startCharCode) ;;
             let offset := (utf32c - startCharCode) mod 2 ^ 32 in
             startGlyphID <-
               liftW (be_dword group CMAP_SegmentedCoverage_group.startGlyphID) ;;
             store_pgi (((startGlyphID + offset) mod 2 ^ 32) mod 2 ^ 16) ;;
             ret 0
         | None => ret 0
         end
     | None => ret 0
     end)%M.

(* ================================================================== *)
(** ** GDEF: loading the table and annotating a glyph run *)

(** [length] is an [int] compared with the unsigned [GDI_ERROR]: they are
    equal exactly when the length query returned [GDI_ERROR]. *)
Definition load_gdef_table (hdc : HDC) : M (option ptr) :=
  (len <- GetFontData_size hdc GDEF_TAG ;;
   if negb (len =? GDI_ERROR) then
     buf <- HeapAlloc len ;;
     r <- GetFontData hdc GDEF_TAG buf len ;;
     TRACE (TRACE_Loaded_GDEF len) ;;
     ret (Some (snd r))
   else ret None)%M.

(** Array reads [a[i]] of the caller's [WORD] arrays. *)
Definition array_get (a : list Z) (i : Z) : W Z :=
  if i <? 0 then Fault OutOfBounds
  else match nth_error a (Z.to_nat i) with
       | Some v => retW v
       | None => Fault OutOfBounds
       end.

(** The inner loop [for (k = 0; k < cChars; k++) if (pwLogClust[k] == i)
    char_count++;] with [n] iterations left. *)
Fixpoint char_count_loop (pwLogClust : list Z) (i : Z) (n : nat) (k : Z)
    (char_count : Z) : W Z :=
  match n with
  | O => retW char_count
  | S n' =>
      (c <- array_get pwLogClust k ;;
       if c =? i then char_count_loop pwLogClust i n' (k + 1) (char_count + 1)
       else char_count_loop pwLogClust i n' (k + 1) char_count)%W
  end.

(** [l] with its element of index [n] replaced by [x]. *)
Definition list_upd {A} (l : list A) (n : nat) (x : A) : list A :=
  firstn n l ++ x :: skipn (S n) l.

(** [pGlyphProp[i].sva.field = ...] *)
Definition update_GlyphProp (i : Z) (f : SCRIPT_GLYPHPROP -> SCRIPT_GLYPHPROP)
  : M unit :=
  fun s =>
    if i <? 0 then Fault OutOfBounds
    else match nth_error (mem_pGlyphProp s) (Z.to_nat i) with
         | Some p =>
             Ok (tt, {| psc := psc s; mem_pgi := mem_pgi s;
                        mem_pGlyphProp :=
                          list_upd (mem_pGlyphProp s) (Z.to_nat i) (f p);
                        calls := calls s; log := log s |})
         | None => Fault OutOfBounds
         end.

Definition with_fClusterStart (b : bool) (p : SCRIPT_GLYPHPROP) :=
  {| uJustification := uJustification p; fClusterStart := b;
     fDiacritic := fDiacritic p; fZeroWidth := fZeroWidth p;
     fReserved := fReserved p; fShapeReserved := fShapeReserved p;
     reserved := reserved p |}.

Definition with_fDiacritic (b : bool) (p : SCRIPT_GLYPHPROP) :=
  {| uJustification := uJustification p; fClusterStart := fClusterStart p;
     fDiacritic := b; fZeroWidth := fZeroWidth p;
     fReserved := fReserved p; fShapeReserved := fShapeReserved p;
     reserved := reserved p |}.

Definition with_fZeroWidth (b : bool) (p : SCRIPT_GLYPHPROP) :=
  {| uJustification := uJustification p; fClusterStart := fClusterStart p;
     fDiacritic := fDiacritic p; fZeroWidth := b;
     fReserved := fReserved p; fShapeReserved := fShapeReserved p;
     reserved := reserved p |}.

(** The three stores of one arm of the [switch]. *)
Definition set_sva (i : Z) (cluster_start diacritic zero_width : bool) : M unit :=
  (update_GlyphProp i (with_fClusterStart cluster_start) ;;
   update_GlyphProp i (with_fDiacritic diacritic) ;;
   update_GlyphProp i (with_fZeroWidth zero_width))%M.

(** The body of the [for (i = 0; i < cGlyphs; i++)] loop. *)
Definition glyph_body (pwGlyphs : list Z) (pwLogClust : list Z) (cChars : Z)
    (i : Z) : M unit :=
  (char_count <- liftW (char_count_loop pwLogClust i (Z.to_nat cChars) 0 0) ;;
   s <- get ;;
   glyph <- liftW (array_get pwGlyphs i) ;;
   class <- liftW (GDEF_get_glyph_class (GDEF_Table (psc s)) glyph) ;;
   (if (class =? 0) || (class =? BaseGlyph) then set_sva i true false false
    else if class =? LigatureGlyph then set_sva i true false false
    else if class =? MarkGlyph then set_sva i false true true
    else if class =? ComponentGlyph then set_sva i false false false
    else
      liftW (ERR (ERR_Unknown_glyph_class class)) ;;
      set_sva i true false false) ;;
   if char_count =? 0 then update_GlyphProp i (with_fClusterStart false)
   else ret tt)%M.

Fixpoint glyph_loop (pwGlyphs : list Z) (pwLogClust : list Z) (cChars : Z)
    (n : nat) (i : Z) : M unit :=
  match n with
  | O => ret tt
  | S n' =>
      (glyph_body pwGlyphs pwLogClust cChars i ;;
       glyph_loop pwGlyphs pwLogClust cChars n' (i + 1))%M
  end.

(** [pwGlyphs], [pwLogClust] are the caller's arrays, [cGlyphs], [cChars]
    the [WORD] counts passed with them; [pGlyphProp] is [mem_pGlyphProp]. *)
Definition OpenType_GDEF_UpdateGlyphProps (hdc : HDC) (pwGlyphs : list Z)
    (cGlyphs : Z) (pwLogClust : list Z) (cChars : Z) : M unit :=
  (s <- get ;;
   match GDEF_Table (psc s) with
   | None => t <- load_gdef_table hdc ;; set_GDEF_Table t
   | Some _ => ret tt
   end ;;
   glyph_loop pwGlyphs pwLogClust cChars (Z.to_nat cGlyphs) 0)%M.

(* ================================================================== *)
(** ** Views: what a well-formed table holds *)

(** The spec's [SegmentGroup] and [CmapFormat12View]: the [nGroups] groups of
    a format-12 subtable, decoded in stored order. *)
Record SegmentGroup : Type := {
  start_char : Z;
  end_char : Z;
  start_glyph : Z
}.

Definition read_group (p : ptr) : W SegmentGroup :=
  (s <- be_dword p CMAP_SegmentedCoverage_group.startCharCode ;;
   e <- be_dword p CMAP_SegmentedCoverage_group.endCharCode ;;
   g <- be_dword p CMAP_SegmentedCoverage_group.startGlyphID ;;
   retW {| start_char := s; end_char := e; start_glyph := g |})%W.

Fixpoint read_groups (base : ptr) (n : nat) (i : Z) : W (list SegmentGroup) :=
  match n with
  | O => retW []
  | S n' =>
      (g <- read_group (base +p (i * CMAP_SegmentedCoverage_group.sizeof)) ;;
       rest <- read_groups base n' (i + 1) ;;
       retW (g :: rest))%W
  end.

Definition CmapFormat12View (format : ptr) : W (list SegmentGroup) :=
  (nGroups <- be_dword format CMAP_SegmentedCoverage.nGroups ;;
   read_groups (format +p CMAP_SegmentedCoverage.groups) (Z.to_nat nGroups) 0)%W.

Definition in_group (c : Z) (g : SegmentGroup) : Prop :=
  start_char g <= c <= end_char g.

Definition in_groupb (c : Z) (g : SegmentGroup) : bool :=
  (start_char g <=? c) && (c <=? end_char g).

(** The invariant of the format: groups sorted ascending by [start_char],
    none empty, no two overlapping. *)
Fixpoint groups_sorted (gs : list SegmentGroup) : bool :=
  match gs with
  | [] => true
  | g :: rest =>
      (start_char g <=? end_char g)
      && match rest with
         | [] => true
         | g' :: _ => end_char g <? start_char g'
         end
      && groups_sorted rest
  end.

(** The not-found sentinel stored to [*pgi]. *)
Definition not_found (flags : Z) : Z :=
  if Z.land flags GGI_MARK_NONEXISTING_GLYPHS =? 0 then 0 else 0xffff.

(** What the lookup stores to the 16-bit [*pgi] for a codepoint [c] of the
    supplementary planes resolved against the groups [gs]. *)
Definition resolve_glyph (gs : list SegmentGroup) (c flags : Z) : Z :=
  match find (in_groupb c) gs with
  | Some g => (start_glyph g + (c - start_char g)) mod 2 ^ 16
  | None => not_found flags
  end.

(** The spec's [ClassRange] and the two encodings of the class-definition
    subtable, decoded from a GDEF table ([None]: no subtable of that
    format). *)
Record ClassRange : Type := {
  range_start : Z;
  range_end : Z;
  range_class : Z
}.

Fixpoint read_words (p : ptr) (off : Z) (n : nat) : W (list Z) :=
  match n with
  | O => retW []
  | S n' =>
      (v <- be_word p off ;;
       rest <- read_words p (off + 2) n' ;;
       retW (v :: rest))%W
  end.

Fixpoint read_ranges (cf2 : ptr) (n : nat) (i : Z) : W (list ClassRange) :=
  match n with
  | O => retW []
  | S n' =>
      let rec_ := GDEF_ClassDefFormat2.ClassRangeRecord
                  + GDEF_ClassRangeRecord.sizeof * i in
      (s <- be_word cf2 (rec_ + GDEF_ClassRangeRecord.Start) ;;
       e <- be_word cf2 (rec_ + GDEF_ClassRangeRecord.End_) ;;
       c <- be_word cf2 (rec_ + GDEF_ClassRangeRecord.Class) ;;
       rest <- read_ranges cf2 n' (i + 1) ;;
       retW ({| range_start := s; range_end := e; range_class := c |} :: rest))%W
  end.

(** Format 1: [(start_glyph, class_array)], the array having [GlyphCount]
    entries. *)
Definition ClassDefFormat1_view (header : ptr) : W (option (Z * list Z)) :=
  (offset <- be_word header GDEF_Header.GlyphClassDef ;;
   if offset =? 0 then retW None
   else
     let cf1 := header +p offset in
     fmt <- be_word cf1 GDEF_ClassDefFormat1.ClassFormat ;;
     if fmt =? 1 then
       start <- be_word cf1 GDEF_ClassDefFormat1.StartGlyph ;;
       count <- be_word cf1 GDEF_ClassDefFormat1.GlyphCount ;;
       arr <- read_words cf1 GDEF_ClassDefFormat1.ClassValueArray (Z.to_nat count) ;;
       retW (Some (start, arr))
     else retW None)%W.

(** Format 2: the [ClassRangeCount] ranges in stored order. *)
Definition ClassDefFormat2_view (header : ptr) : W (option (list ClassRange)) :=
  (offset <- be_word header GDEF_Header.GlyphClassDef ;;
   if offset =? 0 then retW None
   else
     let cf2 := header +p offset in
     fmt <- be_word cf2 GDEF_ClassDefFormat2.ClassFormat ;;
     if fmt =? 2 then
       top <- be_word cf2 GDEF_ClassDefFormat2.ClassRangeCount ;;
       rs <- read_ranges cf2 (Z.to_nat top) 0 ;;
       retW (Some rs)
     else retW None)%W.

Definition in_rangeb (glyph : Z) (r : ClassRange) : bool :=
  (range_start r <=? glyph) && (glyph <=? range_end r).

(** The class of the first range holding [glyph], [0] when there is none. *)
Definition first_range_class (glyph : Z) (rs : list ClassRange) : Z :=
  match find (in_rangeb glyph) rs with
  | Some r => range_class r
  | None => 0
  end.

(** The spec's table of flags [(cluster_start, diacritic, zero_width)] by
    class: Mark and Component have their own rows, every other value
    (Unclassified, Base, Ligature, unrecognized) has the first one. *)
Definition class_flags (class : Z) : bool * bool * bool :=
  if class =? MarkGlyph then (false, true, true)
  else if class =? ComponentGlyph then (false, false, false)
  else (true, false, false).

(** The record the annotator leaves in place of [p] for a glyph of class
    [class] that [char_count] characters map to: the flags of the table,
    [cluster_start] forced to [false] when [char_count] is [0]. *)
Definition annotated (class char_count : Z) (p : SCRIPT_GLYPHPROP)
  : SCRIPT_GLYPHPROP :=
  let '(cluster_start, diacritic, zero_width) := class_flags class in
  {| uJustification := uJustification p;
     fClusterStart := if char_count =? 0 then false else cluster_start;
     fDiacritic := diacritic;
     fZeroWidth := zero_width;
     fReserved := fReserved p; fShapeReserved := fShapeReserved p;
     reserved := reserved p |}.

(** The buffer a loader keeps for [tag]: [len] bytes allocated, of which the
    fill call, issued when [n] calls have gone before, wrote what the
    provider had then (nothing when that call failed). *)
Definition fetched_table (hdc : HDC) (n : nat) (tag : FontTableTag) (len : Z)
  : ptr :=
  {| p_blk := {| blk_size := len;
                 blk_data := match font_data hdc n tag with
                             | Some b => firstn (Z.to_nat len) b
                             | None => []
                             end |};
     p_ofs := 0 |}.

(** The two calls of a fetch: the length query and the fill of the fresh
    block of [len] bytes. *)
Definition fetch_calls (tag : FontTableTag) (len : Z) : list call :=
  [ Call_GetFontData tag None 0;
    Call_GetFontData tag (Some {| blk_size := len; blk_data := [] |}) len ].

(** The GDEF table the annotator classifies with: the cached one, or the
    one it loads first when none is cached. *)
Definition GDEF_Table_for (hdc : HDC) (s : State) : option ptr :=
  match GDEF_Table (psc s) with
  | Some t => Some t
  | None =>
      match load_gdef_table hdc s with
      | Ok (t, _) => t
      | Fault _ => None
      end
  end.

(** [char_count]: the number of entries of the cluster map equal to [i]. *)
Definition count_eq (pwLogClust : list Z) (i : Z) : Z :=
  Z.of_nat (List.length (filter (fun c => c =? i) pwLogClust)).

(* ================================================================== *)
(** ** Concrete tables *)

Definition bytes (l : list Z) : list byte :=
  map (fun z => match Byte.of_N (Z.to_N z) with
                | Some b => b
                | None => x00
                end) l.

Definition be16 (v : Z) : list Z := [v / 256 mod 256; v mod 256].

Definition be32 (v : Z) : list Z :=
  [v / 16777216 mod 256; v / 65536 mod 256; v / 256 mod 256; v mod 256].

(** A fully written block holding [l], and the pointer to its start. *)
Definition table_of (l : list Z) : ptr :=
  {| p_blk := {| blk_size := Z.of_nat (List.length l); blk_data := bytes l |};
     p_ofs := 0 |}.

(** A cmap table with one (3, 10) encoding record whose format-12 subtable
    has the groups [gs]. *)
Definition cmap_bytes (gs : list SegmentGroup) : list Z :=
  be16 0 ++ be16 1
  ++ be16 3 ++ be16 10 ++ be32 12
  ++ be16 12 ++ be16 0 ++ be32 (16 + 12 * Z.of_nat (List.length gs))
  ++ be32 0 ++ be32 (Z.of_nat (List.length gs))
  ++ flat_map (fun g => be32 (start_char g) ++ be32 (end_char g)
                        ++ be32 (start_glyph g)) gs.

(** A GDEF table whose class definition, at offset 12, is of format 1. *)
Definition gdef1_bytes (start : Z) (classes : list Z) : list Z :=
  be32 0x00010000 ++ be16 12 ++ be16 0 ++ be16 0 ++ be16 0
  ++ be16 1 ++ be16 start ++ be16 (Z.of_nat (List.length classes))
  ++ flat_map be16 classes.

(** A GDEF table whose class definition, at offset 12, is of format 2. *)
Definition gdef2_bytes (rs : list ClassRange) : list Z :=
  be32 0x00010000 ++ be16 12 ++ be16 0 ++ be16 0 ++ be16 0
  ++ be16 2 ++ be16 (Z.of_nat (List.length rs))
  ++ flat_map (fun r => be16 (range_start r) ++ be16 (range_end r)
                        ++ be16 (range_class r)) rs.

(** A provider that always has the same tables, and a BMP lookup that maps
    every character to the glyph of the same number. *)
Definition hdc_of (cmap gdef : option (list Z)) : HDC :=
  {| font_data := fun _ tag =>
                    match tag with
                    | CMAP_TAG => option_map bytes cmap
                    | GDEF_TAG => option_map bytes gdef
                    end;
     glyph_indices := fun ch _ => (1, Some ch) |}.

(** A provider whose first [k] calls fail and whose later calls succeed. *)
Definition hdc_failing_first (k : nat) (table : list Z) : HDC :=
  {| font_data := fun n _ => if (n <? k)%nat then None else Some (bytes table);
     glyph_indices := fun ch _ => (1, Some ch) |}.

(** A provider whose length query succeeds and whose every later call
    fails: the fill of the buffer copies nothing. *)
Definition hdc_fill_fails (table : list Z) : HDC :=
  {| font_data := fun n _ => if (n <? 1)%nat then Some (bytes table) else None;
     glyph_indices := fun ch _ => (1, Some ch) |}.

Definition empty_cache : ScriptCache :=
  {| GDEF_Table := None; CMAP_Table := None; CMAP_format12_Table := None |}.

Definition blank_prop : SCRIPT_GLYPHPROP :=
  {| uJustification := 0; fClusterStart := false; fDiacritic := false;
     fZeroWidth := false; fReserved := false; fShapeReserved := 0;
     reserved := 0 |}.

(** A fresh context: nothing cached, nothing called, [n] property records
    for the annotator to fill. *)
Definition fresh (n : nat) : State :=
  {| psc := empty_cache; mem_pgi := 0xdead; mem_pGlyphProp := repeat blank_prop n;
     calls := []; log := [] |}.

Definition with_cache (c : ScriptCache) (s : State) : State :=
  {| psc := c; mem_pgi := mem_pgi s; mem_pGlyphProp := mem_pGlyphProp s;
     calls := calls s; log := log s |}.

Definition with_pgi (v : Z) (s : State) : State :=
  {| psc := psc s; mem_pgi := v; mem_pGlyphProp := mem_pGlyphProp s;
     calls := calls s; log := log s |}.

Definition with_log (l : list msg) (s : State) : State :=
  {| psc := psc s; mem_pgi := mem_pgi s; mem_pGlyphProp := mem_pGlyphProp s;
     calls := calls s; log := l |}.

Definition with_calls (l : list call) (s : State) : State :=
  {| psc := psc s; mem_pgi := mem_pgi s; mem_pGlyphProp := mem_pGlyphProp s;
     calls := l; log := log s |}.

Definition with_pGlyphProp (l : list SCRIPT_GLYPHPROP) (s : State) : State :=
  {| psc := psc s; mem_pgi := mem_pgi s; mem_pGlyphProp := l;
     calls := calls s; log := log s |}.

Definition g1 : SegmentGroup :=
  {| start_char := 0x10000; end_char := 0x10002; start_glyph := 5 |}.

(* ================================================================== *)
(** ** Further views and helpers *)

(** One entry of the encoding-record directory of a cmap table. *)
Record EncodingRecord : Type := {
  rec_platformID : Z;
  rec_encodingID : Z;
  rec_offset : Z
}.

Fixpoint read_records (t : ptr) (n : nat) (i : Z) : W (list EncodingRecord) :=
  match n with
  | O => retW []
  | S n' =>
      let rec_ := CMAP_Header.tables + CMAP_EncodingRecord.sizeof * i in
      (p <- be_word t (rec_ + CMAP_EncodingRecord.platformID) ;;
       e <- be_word t (rec_ + CMAP_EncodingRecord.encodingID) ;;
       o <- be_dword t (rec_ + CMAP_EncodingRecord.offset) ;;
       rest <- read_records t n' (i + 1) ;;
       retW ({| rec_platformID := p; rec_encodingID := e; rec_offset := o |}
             :: rest))%W
  end.

(** The [numTables] encoding records of a cmap table, in stored order. *)
Definition CmapDirectory (t : ptr) : W (list EncodingRecord) :=
  (numTables <- be_word t CMAP_Header.numTables ;;
   read_records t (Z.to_nat numTables) 0)%W.

(** A (3, 10) record whose subtable declares format 12. *)
Definition is_format12_record (t : ptr) (r : EncodingRecord) : bool :=
  (rec_platformID r =? 3) && (rec_encodingID r =? 10)
  && match be_word (t +p rec_offset r) CMAP_SegmentedCoverage.format with
     | Ok (fmt, _) => fmt =? 12
     | Fault _ => false
     end.

(** The cache is coherent: a cached format-12 pointer points into the block
    of the cached cmap table, at a subtable that declares format 12. *)
Definition cache_wf (c : ScriptCache) : Prop :=
  forall format, CMAP_format12_Table c = Some format ->
    exists t, CMAP_Table c = Some t /\ p_blk format = p_blk t /\
              be_word format CMAP_SegmentedCoverage.format = Ok (12, []).

(** The two phases of [OpenType_CMAP_GetGlyphIndex] for a codepoint of the
    supplementary planes, named for the proofs: making sure the format-12
    pointer is looked for, and the search that stores to [*pgi]. *)
Definition lookup_ensure (hdc : HDC) : M unit :=
  (s <- get ;;
   match CMAP_format12_Table (psc s) with
   | None =>
       t <- load_CMAP_format12_table hdc ;;
       set_CMAP_format12_Table t
   | Some _ => ret tt
   end)%M.

Definition lookup_search (utf32c flags : Z) : M Z :=
  ((if negb (Z.land flags GGI_MARK_NONEXISTING_GLYPHS =? 0)
    then store_pgi 0xffff
    else store_pgi 0) ;;
   s <- get ;;
   match CMAP_format12_Table (psc s) with
   | Some format =>
       nGroups <- liftW (be_dword format CMAP_SegmentedCoverage.nGroups) ;;
       group <- liftW (bsearch utf32c (format +p CMAP_SegmentedCoverage.groups)
                         nGroups CMAP_SegmentedCoverage_group.sizeof
                         compare_group) ;;
       match group with
       | Some group =>
           startCharCode <-
             liftW (be_dword group CMAP_SegmentedCoverage_group.startCharCode) ;;
           let offset := (utf32c - startCharCode) mod 2 ^ 32 in
           startGlyphID <-
             liftW (be_dword group CMAP_SegmentedCoverage_group.startGlyphID) ;;
           store_pgi (((startGlyphID + offset) mod 2 ^ 32) mod 2 ^ 16) ;;
           ret 0
       | None => ret 0
       end
   | None => ret 0
   end)%M.

(** The first phase of [OpenType_GDEF_UpdateGlyphProps]: the GDEF table is
    fetched unless it is cached. *)
Definition annotate_ensure (hdc : HDC) : M unit :=
  (s <- get ;;
   match GDEF_Table (psc s) with
   | None => t <- load_gdef_table hdc ;; set_GDEF_Table t
   | Some _ => ret tt
   end)%M.

(** [s'] has the cache, the calls, [*pgi] and the length of the property
    array of [s]. *)
Definition same_frame (s s' : State) : Prop :=
  psc s' = psc s /\ calls s' = calls s /\ mem_pgi s' = mem_pgi s /\
  List.length (mem_pGlyphProp s') = List.length (mem_pGlyphProp s).

(* ================================================================== *)
(** ** dbghelp: the module list of a debugged process (dlls/dbghelp/module.c) *)

Module Dbghelp.

(** [enum DbgModuleType] *)
Inductive DbgModuleType : Type := DMT_UNKNOWN | DMT_ELF | DMT_PE.

Definition DbgModuleType_eqb (a b : DbgModuleType) : bool :=
  match a, b with
  | DMT_UNKNOWN, DMT_UNKNOWN | DMT_ELF, DMT_ELF | DMT_PE, DMT_PE => true
  | _, _ => false
  end.

(** [SYM_TYPE] (dbghelp.h), error codes (winerror.h) and sizes of
    [IMAGEHLP_MODULE] and its character arrays (dbghelp.h). *)
Definition SymNone := 0.
Definition SymDeferred := 5.
Definition ERROR_INVALID_NAME := 123.
Definition ERROR_INVALID_ADDRESS := 487.
Definition sizeof_IMAGEHLP_MODULE := 572.
Definition sizeof_ModuleName := 32.
Definition sizeof_LoadedImageName := 256.

(** [IMAGEHLP_MODULE].  A character array is the C string it holds, without
    the terminating NUL. *)
Record IMAGEHLP_MODULE : Type := {
  SizeOfStruct : Z;
  BaseOfImage : Z;
  ImageSize : Z;
  TimeDateStamp : Z;
  CheckSum : Z;
  NumSyms : Z;
  SymType : Z;
  ModuleName : list Z;
  ImageName : list Z;
  LoadedImageName : list Z
}.

(** [struct module]: [self] is the address of the structure, which is what
    a [struct module*] holds and what pointer comparisons compare; the
    [next] field is the rest of the list the structure is in.  The pool, the
    hash tables, the sources and the sort table are touched only by
    functions defined elsewhere and are left out. *)
Record struct_module : Type := {
  self : Z;
  module : IMAGEHLP_MODULE;
  type : DbgModuleType
}.

Inductive dmsg : Type :=
| TRACE_module_new (type : DbgModuleType) (mod_addr size : Z)
| TRACE_module_remove (self : Z)
| FIXME_This_shouldnt_happen.

(** What the functions of module.c read and change: the list
    [pcs->lmodules] of one process, the thread's last error, the addresses
    given back to the heap, the modules whose pool, hash tables and tables
    have been destroyed, the calls of an enumeration callback, and the debug
    channel. *)
Record dbg_state : Type := {
  lmodules : list struct_module;
  LastError : Z;
  freed : list Z;
  destroyed : list Z;
  callbacks : list (list Z * Z);
  dlog : list dmsg
}.

Definition set_lmodules (l : list struct_module) (s : dbg_state) : dbg_state :=
  {| lmodules := l; LastError := LastError s; freed := freed s;
     destroyed := destroyed s; callbacks := callbacks s; dlog := dlog s |}.

Definition SetLastError (e : Z) (s : dbg_state) : dbg_state :=
  {| lmodules := lmodules s; LastError := e; freed := freed s;
     destroyed := destroyed s; callbacks := callbacks s; dlog := dlog s |}.

Definition HeapFree (a : Z) (s : dbg_state) : dbg_state :=
  {| lmodules := lmodules s; LastError := LastError s; freed := freed s ++ [a];
     destroyed := destroyed s; callbacks := callbacks s; dlog := dlog s |}.

Definition destroy (a : Z) (s : dbg_state) : dbg_state :=
  {| lmodules := lmodules s; LastError := LastError s; freed := freed s;
     destroyed := destroyed s ++ [a]; callbacks := callbacks s; dlog := dlog s |}.

Definition call_back (name : list Z) (base : Z) (s : dbg_state) : dbg_state :=
  {| lmodules := lmodules s; LastError := LastError s; freed := freed s;
     destroyed := destroyed s; callbacks := callbacks s ++ [(name, base)];
     dlog := dlog s |}.

Definition debug (m : dmsg) (s : dbg_state) : dbg_state :=
  {| lmodules := lmodules s; LastError := LastError s; freed := freed s;
     destroyed := destroyed s; callbacks := callbacks s; dlog := dlog s ++ [m] |}.

(** [BaseOfImage + ImageSize]: a sum of two [DWORD]s. *)
Definition image_end (m : struct_module) : Z :=
  (BaseOfImage (module m) + ImageSize (module m)) mod 2 ^ 32.

(** *** module_find_by_addr *)

(** The loop of the [else] branch: the first module of the list of type
    [type] with [BaseOfImage <= addr < BaseOfImage + ImageSize]. *)
Fixpoint find_by_addr_loop (l : list struct_module) (addr : Z)
    (ty : DbgModuleType) : option struct_module :=
  match l with
  | [] => None
  | m :: next =>
      if DbgModuleType_eqb ty (type m)
         && (BaseOfImage (module m) <=? addr) && (addr <? image_end m)
      then Some m
      else find_by_addr_loop next addr ty
  end.

(** The function for a [type] other than [DMT_UNKNOWN]: the loop, then
    [SetLastError] and the return of the null [module]. *)
Definition module_find_by_addr_typed (s : dbg_state) (addr : Z)
    (ty : DbgModuleType) : option struct_module * dbg_state :=
  match find_by_addr_loop (lmodules s) addr ty with
  | Some m => (Some m, s)
  | None => (None, SetLastError ERROR_INVALID_ADDRESS s)
  end.

(** For [DMT_UNKNOWN] the function calls itself with [DMT_PE], then with
    [DMT_ELF]; those two calls are calls of the typed search. *)
Definition module_find_by_addr (s : dbg_state) (addr : Z) (ty : DbgModuleType)
  : option struct_module * dbg_state :=
  match ty with
  | DMT_UNKNOWN =>
      match module_find_by_addr_typed s addr DMT_PE with
      | (Some m, s1) => (Some m, s1)
      | (None, s1) =>
          match module_find_by_addr_typed s1 addr DMT_ELF with
          | (Some m, s2) => (Some m, s2)
          | (None, s2) => (None, SetLastError ERROR_INVALID_ADDRESS s2)
          end
      end
  | _ => module_find_by_addr_typed s addr ty
  end.

(** *** module_find_by_name *)

Definition tolower (c : Z) : Z :=
  if (65 <=? c) && (c <=? 90) then c + 32 else c.

(** [strcasecmp] of the C library (C locale) on two C strings: the
    difference of the first two characters that differ once lowered, [0]
    when there is none. *)
Fixpoint strcasecmp (a b : list Z) : Z :=
  match a, b with
  | [], [] => 0
  | [], y :: _ => 0 - tolower y
  | x :: _, [] => tolower x
  | x :: a', y :: b' =>
      if tolower x =? tolower y then strcasecmp a' b'
      else tolower x - tolower y
  end.

Fixpoint find_by_name_loop (field : IMAGEHLP_MODULE -> list Z)
    (l : list struct_module) (name : list Z) (ty : DbgModuleType)
  : option struct_module :=
  match l with
  | [] => None
  | m :: next =>
      if DbgModuleType_eqb ty (type m)
         && (strcasecmp name (field (module m)) =? 0)
      then Some m
      else find_by_name_loop field next name ty
  end.

Definition module_find_by_name_typed (s : dbg_state) (name : list Z)
    (ty : DbgModuleType) : option struct_module * dbg_state :=
  match find_by_name_loop LoadedImageName (lmodules s) name ty with
  | Some m => (Some m, s)
  | None =>
      match find_by_name_loop ModuleName (lmodules s) name ty with
      | Some m => (Some m, s)
      | None => (None, SetLastError ERROR_INVALID_NAME s)
      end
  end.

Definition module_find_by_name (s : dbg_state) (name : list Z)
    (ty : DbgModuleType) : option struct_module * dbg_state :=
  match ty with
  | DMT_UNKNOWN =>
      match module_find_by_name_typed s name DMT_PE with
      | (Some m, s1) => (Some m, s1)
      | (None, s1) =>
          match module_find_by_name_typed s1 name DMT_ELF with
          | (Some m, s2) => (Some m, s2)
          | (None, s2) => (None, SetLastError ERROR_INVALID_NAME s2)
          end
      end
  | _ => module_find_by_name_typed s name ty
  end.

(** *** module_get_container *)

Fixpoint get_container_loop (l : list struct_module) (inner : struct_module)
  : option struct_module :=
  match l with
  | [] => None
  | m :: next =>
      if negb (self m =? self inner)
         && (BaseOfImage (module m) <=? BaseOfImage (module inner))
         && (image_end inner <=? image_end m)
      then Some m
      else get_container_loop next inner
  end.

Definition module_get_container (s : dbg_state) (inner : struct_module)
  : option struct_module :=
  get_container_loop (lmodules s) inner.

(** *** module_remove *)

(** The unlinking loop over [p = &pcs->lmodules, &( *p)->next, ...]: the list
    without its first element at the address of [m], if it has one. *)
Fixpoint unlink (l : list struct_module) (m : struct_module)
  : option (list struct_module) :=
  match l with
  | [] => None
  | x :: next =>
      if self x =? self m then Some next
      else match unlink next m with
           | Some next' => Some (x :: next')
           | None => None
           end
  end.

Definition module_remove (s : dbg_state) (m : struct_module) : bool * dbg_state :=
  let s := debug (TRACE_module_remove (self m)) s in
  let s := destroy (self m) s in
  match unlink (lmodules s) m with
  | Some l => (true, HeapFree (self m) (set_lmodules l s))
  | None => (false, debug FIXME_This_shouldnt_happen s)
  end.

(** *** The exported functions.  [pcs] says whether
    [process_find_by_handle(hProcess)], which is defined elsewhere, found
    the process whose modules the state holds. *)

Definition SymUnloadModule (pcs : bool) (s : dbg_state) (BaseOfDll : Z)
  : bool * dbg_state :=
  if negb pcs then (false, s)
  else
    match module_find_by_addr s BaseOfDll DMT_UNKNOWN with
    | (None, s1) => (false, s1)
    | (Some m, s1) => module_remove s1 m
    end.

(** The loop of [SymEnumerateModules]; the callback [cb] answers whether
    the enumeration goes on. *)
Fixpoint enum_loop (cb : list Z -> Z -> bool) (l : list struct_module)
    (s : dbg_state) : dbg_state :=
  match l with
  | [] => s
  | m :: next =>
      if negb (DbgModuleType_eqb (type m) DMT_PE) then enum_loop cb next s
      else
        let s := call_back (ModuleName (module m)) (BaseOfImage (module m)) s in
        if negb (cb (ModuleName (module m)) (BaseOfImage (module m))) then s
        else enum_loop cb next s
  end.

Definition SymEnumerateModules (pcs : bool) (s : dbg_state)
    (EnumModulesCallback : list Z -> Z -> bool) : bool * dbg_state :=
  if negb pcs then (false, s)
  else (true, enum_loop EnumModulesCallback (lmodules s) s).

Definition with_SymType (t : Z) (i : IMAGEHLP_MODULE) : IMAGEHLP_MODULE :=
  {| SizeOfStruct := SizeOfStruct i; BaseOfImage := BaseOfImage i;
     ImageSize := ImageSize i; TimeDateStamp := TimeDateStamp i;
     CheckSum := CheckSum i; NumSyms := NumSyms i; SymType := t;
     ModuleName := ModuleName i; ImageName := ImageName i;
     LoadedImageName := LoadedImageName i |}.

(** The result is the return value and [*ModuleInfo] after the call. *)
Definition SymGetModuleInfo (pcs : bool) (s : dbg_state) (dwAddr : Z)
    (ModuleInfo : IMAGEHLP_MODULE) : (bool * IMAGEHLP_MODULE) * dbg_state :=
  if negb pcs then ((false, ModuleInfo), s)
  else if SizeOfStruct ModuleInfo <? sizeof_IMAGEHLP_MODULE
  then ((false, ModuleInfo), s)
  else
    match module_find_by_addr s dwAddr DMT_UNKNOWN with
    | (None, s1) => ((false, ModuleInfo), s1)
    | (Some m, s1) =>
        let info := module m in
        if SymType (module m) <=? SymNone then
          match module_get_container s1 m with
          | Some c =>
              if SymNone <? SymType (module c)
              then ((true, with_SymType (SymType (module c)) info), s1)
              else ((true, info), s1)
          | None => ((true, info), s1)
          end
        else ((true, info), s1)
    end.

Definition SymGetModuleBase (pcs : bool) (s : dbg_state) (dwAddr : Z)
  : Z * dbg_state :=
  if negb pcs then (0, s)
  else
    match module_find_by_addr s dwAddr DMT_UNKNOWN with
    | (None, s1) => (0, s1)
    | (Some m, s1) => (BaseOfImage (module m), s1)
    end.

(** *** module_new *)

(** [strlen(p)]: [n] is the number of bytes left in the block from
    [p + i] on; a string that is not terminated inside its block is read
    past the end. *)
Fixpoint strlen_loop (p : ptr) (n : nat) (i : Z) : W Z :=
  match n with
  | O => Fault OutOfBounds
  | S n' =>
      (c <- load_BYTE p i ;;
       if c =? 0 then retW i else strlen_loop p n' (i + 1))%W
  end.

Definition strlen (p : ptr) : W Z :=
  if p_ofs p <? 0 then Fault OutOfBounds
  else strlen_loop p (Z.to_nat (blk_size (p_blk p) - p_ofs p)) 0.

(** The loop [for (ptr = name + strlen(name) - 1;
    *ptr != '/' && *ptr != '\\' && ptr >= name; ptr--);] with
    [ptr = name + k - 1]: the character is tested before the pointer is. *)
Fixpoint basename_loop (name : ptr) (k : nat) : W Z :=
  match k with
  | O => (c <- load_BYTE name (-1) ;; retW (-1))%W
  | S k' =>
      (c <- load_BYTE name (Z.of_nat k') ;;
       if (c =? 47) || (c =? 92) then retW (Z.of_nat k')
       else basename_loop name k')%W
  end.

(** What [strncpy(dst, src, n)] reads of [src]: its characters up to the
    NUL, [n] of them at most. *)
Fixpoint strncpy_read (src : ptr) (n : nat) (i : Z) : W (list Z) :=
  match n with
  | O => retW []
  | S n' =>
      (c <- load_BYTE src i ;;
       if c =? 0 then retW []
       else rest <- strncpy_read src n' (i + 1) ;; retW (c :: rest))%W
  end.

(** [strncpy(dst, src, size); dst[size - 1] = '\0';]: the string [dst]
    holds afterwards. *)
Definition copy_string (src : ptr) (size : Z) : W (list Z) :=
  (cs <- strncpy_read src (Z.to_nat size) 0 ;;
   retW (firstn (Z.to_nat (size - 1)) cs))%W.

(** [HeapAlloc] is defined elsewhere: [alloc] is what it returns, [None]
    for [NULL].  The [unsigned long] arguments are stored to [DWORD]
    fields.  [pool_init] and [hash_table_init] act on the fields left
    out.  The name is read from memory; the reads need no state, so they
    come first, in the order of the C code. *)
Definition module_new (alloc : option Z) (s : dbg_state) (name : ptr)
    (ty : DbgModuleType) (mod_addr size stamp checksum : Z)
  : outcome (option struct_module * dbg_state) :=
  match alloc with
  | None => Ok (None, s)
  | Some a =>
      let reads :=
        (len <- strlen name ;;
         ptr <- basename_loop name (Z.to_nat len) ;;
         ptr <- (if ptr <? 0 then retW (ptr + 1)
                 else c <- load_BYTE name ptr ;;
                      if (c =? 47) || (c =? 92) then retW (ptr + 1)
                      else retW ptr) ;;
         mname <- copy_string (name +p ptr) sizeof_ModuleName ;;
         lname <- copy_string name sizeof_LoadedImageName ;;
         retW (mname, lname))%W in
      match reads with
      | Fault f => Fault f
      | Ok ((mname, lname), _) =>
          let m :=
            {| self := a;
               module :=
                 {| SizeOfStruct := sizeof_IMAGEHLP_MODULE;
                    BaseOfImage := mod_addr mod 2 ^ 32;
                    ImageSize := size mod 2 ^ 32;
                    TimeDateStamp := stamp mod 2 ^ 32;
                    CheckSum := checksum mod 2 ^ 32;
                    NumSyms := 0;
                    SymType := SymNone;
                    ModuleName := mname;
                    ImageName := [];
                    LoadedImageName := lname |};
               type := ty |} in
          Ok (Some m,
              debug (TRACE_module_new ty mod_addr size)
                (set_lmodules (m :: lmodules s) s))
      end
  end.

(** No two structures of the list live at the same address. *)
Definition distinct (l : list struct_module) : Prop := NoDup (map self l).

(** [addr] lies in the image of [m] as the address search sees it. *)
Definition in_image (addr : Z) (m : struct_module) : Prop :=
  BaseOfImage (module m) <= addr < image_end m.

(** A C string in a block of its own, and one preceded by the bytes
    [before] in its block. *)
Definition cstring (before str : list Z) : ptr :=
  {| p_blk := {| blk_size := Z.of_nat (List.length (before ++ str ++ [0]));
                 blk_data := bytes (before ++ str ++ [0]) |};
     p_ofs := Z.of_nat (List.length before) |}.

Definition mk_module (a base sz : Z) (ty : DbgModuleType) (sym : Z)
    (mname lname : list Z) : struct_module :=
  {| self := a;
     module := {| SizeOfStruct := sizeof_IMAGEHLP_MODULE; BaseOfImage := base;
                  ImageSize := sz; TimeDateStamp := 0; CheckSum := 0;
                  NumSyms := 0; SymType := sym; ModuleName := mname;
                  ImageName := []; LoadedImageName := lname |};
     type := ty |}.

(** The calls an enumeration makes for the entries [l]: up to and with the
    first one the callback rejects. *)
Fixpoint upto_reject (cb : list Z -> Z -> bool) (l : list (list Z * Z))
  : list (list Z * Z) :=
  match l with
  | [] => []
  | (name, base) :: rest =>
      if cb name base then (name, base) :: upto_reject cb rest
      else [(name, base)]
  end.

Definition is_PE (m : struct_module) : bool := DbgModuleType_eqb (type m) DMT_PE.

Definition enum_entry (m : struct_module) : list Z * Z :=
  (ModuleName (module m), BaseOfImage (module m)).

(** [m] matches an address search for [addr] and type [ty]. *)
Definition addr_match (addr : Z) (ty : DbgModuleType) (m : struct_module) : Prop :=
  type m = ty /\ in_image addr m.

(** The image of [c] encloses that of [inner], as the container search
    sees it. *)
Definition encloses (c inner : struct_module) : Prop :=
  BaseOfImage (module c) <= BaseOfImage (module inner) /\
  image_end inner <= image_end c.

(** [m] matches a search by name on the field [field]. *)
Definition name_match (field : IMAGEHLP_MODULE -> list Z) (name : list Z)
    (ty : DbgModuleType) (m : struct_module) : Prop :=
  type m = ty /\ strcasecmp name (field (module m)) = 0.

(** The characters of a C string: non-zero bytes; and a string without
    path separators. *)
Definition chars (str : list Z) : Prop := Forall (fun c => 0 < c < 256) str.

Definition no_sep (str : list Z) : Prop :=
  Forall (fun c => c <> 47 /\ c <> 92) str.

(** All [DWORD] fields of the images are in range. *)
Definition dwords (l : list struct_module) : Prop :=
  forall m, In m l ->
    0 <= BaseOfImage (module m) < 2 ^ 32 /\ 0 <= ImageSize (module m) < 2 ^ 32.

Definition dbg_init (l : list struct_module) : dbg_state :=
  {| lmodules := l; LastError := 0; freed := []; destroyed := [];
     callbacks := []; dlog := [] |}.

End Dbghelp.

(* ================================================================== *)
(** * Properties *)

(** ** Loads *)

Lemma Ok_pair_inj {A B} (a a' : A) (b b' : B) :
  @Ok (A * B) (a, b) = Ok (a', b') -> a = a' /\ b = b'.
Proof. intros H. injection H. auto. Qed.

Ltac inj H :=
  unfold retW in H; apply Ok_pair_inj in H; destruct H; subst.

Lemma bindW_inv {A B} (c : W A) (k : A -> W B) b l :
  bindW c k = Ok (b, l) ->
  exists a l1 l2, c = Ok (a, l1) /\ k a = Ok (b, l2) /\ l = l1 ++ l2.
Proof.
  unfold bindW. destruct c as [[a l1]|f]; [|discriminate].
  destruct (k a) as [[b' l2]|f] eqn:E; [|discriminate].
  intros H. inj H. exists a, l1, l2. auto.
Qed.

Lemma bindW_quiet {A B} (c : W A) (k : A -> W B) a :
  c = Ok (a, []) -> bindW c k = k a.
Proof.
  intros ->. unfold bindW. destruct (k a) as [[b l]|f]; reflexivity.
Qed.

Lemma load_BYTE_inv p off v l :
  load_BYTE p off = Ok (v, l) -> l = [] /\ 0 <= v < 256.
Proof.
  unfold load_BYTE.
  destruct ((p_ofs p + off <? 0) || (blk_size (p_blk p) <=? p_ofs p + off));
    [discriminate|].
  destruct (nth_error _ _) as [b|]; [|discriminate].
  unfold retW. intros H. inj H. split; [reflexivity|].
  pose proof (Byte.to_N_bounded b). lia.
Qed.

Lemma load_WORD_inv p off v l :
  load_WORD p off = Ok (v, l) -> l = [] /\ 0 <= v < 65536.
Proof.
  unfold load_WORD. intros H.
  apply bindW_inv in H as (b0 & l0 & l0' & H0 & H & ->).
  apply bindW_inv in H as (b1 & l1 & l1' & H1 & H & ->).
  apply load_BYTE_inv in H0 as [-> ?], H1 as [-> ?].
  inj H. split; [reflexivity | lia].
Qed.

Lemma load_DWORD_inv p off v l :
  load_DWORD p off = Ok (v, l) -> l = [] /\ 0 <= v < 2 ^ 32.
Proof.
  unfold load_DWORD. intros H.
  apply bindW_inv in H as (b0 & l0 & l0' & H0 & H & ->).
  apply bindW_inv in H as (b1 & l1 & l1' & H1 & H & ->).
  apply bindW_inv in H as (b2 & l2 & l2' & H2 & H & ->).
  apply bindW_inv in H as (b3 & l3 & l3' & H3 & H & ->).
  apply load_BYTE_inv in H0 as [-> ?], H1 as [-> ?], H2 as [-> ?], H3 as [-> ?].
  inj H. split; [reflexivity | lia].
Qed.

Lemma GET_BE_WORD_range x : 0 <= GET_BE_WORD x < 65536.
Proof.
  unfold GET_BE_WORD, RtlUshortByteSwap.
  pose proof (Z.mod_pos_bound x 256 eq_refl).
  pose proof (Z.mod_pos_bound (x / 256) 256 eq_refl). lia.
Qed.

Lemma GET_BE_DWORD_range x : 0 <= GET_BE_DWORD x < 2 ^ 32.
Proof.
  unfold GET_BE_DWORD, RtlUlongByteSwap.
  pose proof (Z.mod_pos_bound x 256 eq_refl).
  pose proof (Z.mod_pos_bound (x / 256) 256 eq_refl).
  pose proof (Z.mod_pos_bound (x / 65536) 256 eq_refl).
  pose proof (Z.mod_pos_bound (x / 16777216) 256 eq_refl). lia.
Qed.

Lemma be_word_inv p off v l :
  be_word p off = Ok (v, l) -> l = [] /\ 0 <= v < 65536.
Proof.
  unfold be_word. intros H.
  apply bindW_inv in H as (x & l0 & l0' & H0 & H & ->).
  apply load_WORD_inv in H0 as [-> _]. inj H.
  split; [reflexivity | apply GET_BE_WORD_range].
Qed.

Lemma be_dword_inv p off v l :
  be_dword p off = Ok (v, l) -> l = [] /\ 0 <= v < 2 ^ 32.
Proof.
  unfold be_dword. intros H.
  apply bindW_inv in H as (x & l0 & l0' & H0 & H & ->).
  apply load_DWORD_inv in H0 as [-> _]. inj H.
  split; [reflexivity | apply GET_BE_DWORD_range].
Qed.

(** On the little-endian host the swapped load is the big-endian value of
    the bytes in the table. *)
Lemma be_word_big_endian p off b0 b1 :
  load_BYTE p off = Ok (b0, []) -> load_BYTE p (off + 1) = Ok (b1, []) ->
  be_word p off = Ok (b0 * 256 + b1, []).
Proof.
  intros H0 H1. unfold be_word, load_WORD.
  rewrite (bindW_quiet _ _ _ H0), (bindW_quiet _ _ _ H1).
  apply load_BYTE_inv in H0 as [_ ?], H1 as [_ ?].
  rewrite (bindW_quiet _ _ (b0 + 256 * b1) eq_refl).
  unfold retW, GET_BE_WORD, RtlUshortByteSwap. do 2 f_equal.
  replace (b0 + 256 * b1) with (b0 + b1 * 256) by lia.
  rewrite Z.mod_add, Z.div_add, (Z.mod_small b0), (Z.div_small b0) by lia.
  rewrite Z.mod_small; lia.
Qed.

(** Binding a load: the continuation runs on the value, a fault stops. *)
Lemma bind_be_word {B} p off (k : Z -> W B) :
  bindW (be_word p off) k =
  match be_word p off with
  | Ok (v, _) => k v
  | Fault f => Fault f
  end.
Proof.
  destruct (be_word p off) as [[v l]|f] eqn:E; [|reflexivity].
  apply be_word_inv in E as [-> _]. apply bindW_quiet. reflexivity.
Qed.

Lemma bind_be_dword {B} p off (k : Z -> W B) :
  bindW (be_dword p off) k =
  match be_dword p off with
  | Ok (v, _) => k v
  | Fault f => Fault f
  end.
Proof.
  destruct (be_dword p off) as [[v l]|f] eqn:E; [|reflexivity].
  apply be_dword_inv in E as [-> _]. apply bindW_quiet. reflexivity.
Qed.

(** Inverting a bound load in a hypothesis. *)
Ltac inv_word H v Hv :=
  let l1 := fresh "l" in let l2 := fresh "l" in let R := fresh "R" in
  apply bindW_inv in H as (v & l1 & l2 & Hv & H & ->);
  pose proof (be_word_inv _ _ _ _ Hv) as [-> R].

Ltac inv_dword H v Hv :=
  let l1 := fresh "l" in let l2 := fresh "l" in let R := fresh "R" in
  apply bindW_inv in H as (v & l1 & l2 & Hv & H & ->);
  pose proof (be_dword_inv _ _ _ _ Hv) as [-> R].

Lemma read_words_spec p n : forall off arr l,
  read_words p off n = Ok (arr, l) ->
  l = [] /\ List.length arr = n /\
  forall i, 0 <= i < Z.of_nat n ->
    be_word p (off + 2 * i) = Ok (nth (Z.to_nat i) arr 0, []).
Proof.
  induction n as [|n IH]; intros off arr l H.
  - inj H. repeat split; auto. intros i Hi. lia.
  - cbn [read_words] in H.
    inv_word H v Hv.
    apply bindW_inv in H as (rest & lr & lr2 & Hr & H & ->).
    apply IH in Hr as (-> & Hlen & Hnth). inj H.
    split; [reflexivity|]. split; [cbn; congruence|].
    intros i Hi. destruct (Z.eq_dec i 0) as [->|Hne].
    + replace (off + 2 * 0) with off by lia. cbn. exact Hv.
    + replace (off + 2 * i) with (off + 2 + 2 * (i - 1)) by lia.
      rewrite Hnth by lia.
      replace (Z.to_nat i) with (S (Z.to_nat (i - 1))) by lia. reflexivity.
Qed.

Lemma read_ranges_spec cf2 glyph n : forall i rs l,
  read_ranges cf2 n i = Ok (rs, l) ->
  l = [] /\ List.length rs = n /\
  ClassRangeRecord_loop cf2 glyph n i = retW (first_range_class glyph rs).
Proof.
  induction n as [|n IH]; intros i rs l H.
  - inj H. repeat split; auto.
  - cbn [read_ranges] in H. cbv zeta in H.
    inv_word H s Hs. inv_word H e He. inv_word H c Hc.
    apply bindW_inv in H as (rest & lr & lr2 & Hr & H & ->).
    apply IH in Hr as (-> & Hlen & Hloop). inj H.
    split; [reflexivity|]. split; [cbn; congruence|].
    cbn [ClassRangeRecord_loop]. cbv zeta.
    rewrite bind_be_word, Hs.
    unfold first_range_class. cbn [find]. unfold in_rangeb at 1.
    cbn [range_start range_end range_class].
    destruct (s <=? glyph); cbn [andb].
    + rewrite bind_be_word, He. destruct (glyph <=? e).
      * exact Hc.
      * exact Hloop.
    + exact Hloop.
Qed.

(* ================================================================== *)
(** ** The glyph classifier *)

(** C4. For a GDEF table whose class definition is of format 1 with fields
    [start] ([StartGlyph]) and the [GlyphCount] entries [arr]
    ([ClassValueArray]), the class of [glyph] is [arr[glyph - start]] when
    [glyph >= start] and [glyph - start < GlyphCount], and [0]
    (Unclassified) otherwise. *)
Theorem GDEF_get_glyph_class_format1 header start arr glyph :
  ClassDefFormat1_view header = Ok (Some (start, arr), []) ->
  GDEF_get_glyph_class (Some header) glyph =
  retW (if (start <=? glyph) && (glyph - start <? Z.of_nat (List.length arr))
        then nth (Z.to_nat (glyph - start)) arr 0
        else 0).
Proof.
  unfold ClassDefFormat1_view, GDEF_get_glyph_class. intros H.
  remember (@nil msg) as l0 in H. clear Heql0.
  inv_word H offset Hoff. rewrite bind_be_word, Hoff.
  destruct (offset =? 0); [discriminate|].
  cbv zeta in H |- *.
  inv_word H fmt Hfmt. rewrite bind_be_word, Hfmt.
  destruct (fmt =? 1); [|discriminate].
  inv_word H st Hst. inv_word H count Hcount.
  apply bindW_inv in H as (a & la & la' & Ha & H & ->).
  apply read_words_spec in Ha as (-> & Hlen & Hnth).
  inj H. match goal with E : Some _ = Some _ |- _ => injection E as <- <- end.
  rewrite bind_be_word, Hst.
  destruct (st <=? glyph) eqn:Hge; cbn [andb]; [|reflexivity].
  rewrite bind_be_word, Hcount.
  replace (Z.of_nat (List.length a)) with count by lia.
  destruct (glyph - st <? count) eqn:Hlt; [|reflexivity].
  apply Hnth. lia.
Qed.

Lemma GDEF_get_glyph_class_format1_witness :
  GDEF_get_glyph_class (Some (table_of (gdef1_bytes 10 [BaseGlyph; MarkGlyph]))) 11
  = retW MarkGlyph.
Proof.
  apply (GDEF_get_glyph_class_format1
           (table_of (gdef1_bytes 10 [BaseGlyph; MarkGlyph])) 10
           [BaseGlyph; MarkGlyph] 11).
  vm_compute. reflexivity.
Defined.

(** The spec's format-1 example: [class_array = [Base, Mark]],
    [start_glyph = 10]. *)
Example classify_format1_example :
  let t := Some (table_of (gdef1_bytes 10 [BaseGlyph; MarkGlyph])) in
  GDEF_get_glyph_class t 10 = retW BaseGlyph /\
  GDEF_get_glyph_class t 11 = retW MarkGlyph /\
  GDEF_get_glyph_class t 9 = retW 0 /\
  GDEF_get_glyph_class t 12 = retW 0.
Proof. vm_compute. repeat split; reflexivity. Qed.

(** C5. For a GDEF table whose class definition is of format 2 with the
    ranges [rs] in stored order, the class of [glyph] is the class of the
    first range with [start <= glyph <= end], and [0] (Unclassified) when no
    range holds it; with the overlapping ranges [(1,5,Base), (3,3,Mark)]
    glyph 3 is [Base]. *)
Theorem GDEF_get_glyph_class_format2 :
  (forall header rs glyph,
      ClassDefFormat2_view header = Ok (Some rs, []) ->
      GDEF_get_glyph_class (Some header) glyph =
      retW (first_range_class glyph rs)) /\
  (forall glyph r rs,
      find (in_rangeb glyph) rs = Some r ->
      first_range_class glyph rs = range_class r /\
      range_start r <= glyph <= range_end r) /\
  (forall glyph rs,
      (forall r, In r rs -> ~ range_start r <= glyph <= range_end r) ->
      first_range_class glyph rs = 0) /\
  GDEF_get_glyph_class
    (Some (table_of (gdef2_bytes
       [ {| range_start := 1; range_end := 5; range_class := BaseGlyph |};
         {| range_start := 3; range_end := 3; range_class := MarkGlyph |} ])))
    3 = retW BaseGlyph.
Proof.
  split; [|split; [|split]].
  - unfold ClassDefFormat2_view, GDEF_get_glyph_class. intros header rs glyph H.
    remember (@nil msg) as l0 in H. clear Heql0.
    inv_word H offset Hoff. rewrite bind_be_word, Hoff.
    destruct (offset =? 0); [discriminate|].
    cbv zeta in H |- *.
    inv_word H fmt Hfmt.
    change GDEF_ClassDefFormat2.ClassFormat
      with GDEF_ClassDefFormat1.ClassFormat in Hfmt.
    rewrite bind_be_word, Hfmt.
    destruct (fmt =? 2) eqn:E2; [|discriminate].
    assert ((fmt =? 1) = false) as -> by lia.
    inv_word H top Htop.
    apply bindW_inv in H as (a & la & la' & Ha & H & ->).
    apply (read_ranges_spec _ glyph) in Ha as (-> & Hlen & Hloop).
    inj H. match goal with E : Some _ = Some _ |- _ => injection E as <- end.
    rewrite bind_be_word, Htop. exact Hloop.
  - intros glyph r rs H. unfold first_range_class. rewrite H.
    apply find_some in H as [_ H]. unfold in_rangeb in H. split; [reflexivity | lia].
  - intros glyph rs H. unfold first_range_class.
    destruct (find (in_rangeb glyph) rs) as [r|] eqn:E; [|reflexivity].
    apply find_some in E as [Hin E]. unfold in_rangeb in E.
    exfalso. apply (H r Hin). lia.
  - vm_compute. reflexivity.
Qed.

Lemma GDEF_get_glyph_class_format2_witness :
  GDEF_get_glyph_class
    (Some (table_of (gdef2_bytes
       [ {| range_start := 5; range_end := 7; range_class := MarkGlyph |};
         {| range_start := 8; range_end := 8; range_class := LigatureGlyph |} ])))
    8 = retW LigatureGlyph.
Proof.
  destruct GDEF_get_glyph_class_format2 as (H & _).
  apply (H _ [ {| range_start := 5; range_end := 7; range_class := MarkGlyph |};
               {| range_start := 8; range_end := 8; range_class := LigatureGlyph |} ]).
  vm_compute. reflexivity.
Defined.

(** The spec's format-2 examples. *)
Example classify_format2_example :
  let t := Some (table_of (gdef2_bytes
     [ {| range_start := 5; range_end := 7; range_class := MarkGlyph |};
       {| range_start := 8; range_end := 8; range_class := LigatureGlyph |} ])) in
  GDEF_get_glyph_class t 6 = retW MarkGlyph /\
  GDEF_get_glyph_class t 8 = retW LigatureGlyph /\
  GDEF_get_glyph_class t 4 = retW 0.
Proof. vm_compute. repeat split; reflexivity. Qed.

(** C6. The classifier degrades to [0] (Unclassified) and does not fail:
    when the GDEF table is absent (null header), when the header's
    [GlyphClassDef] offset is zero, and when the stored [ClassFormat] is
    neither 1 nor 2, in which case the format is reported on the debug
    channel and nothing else happens. *)
Theorem GDEF_get_glyph_class_degrades :
  (forall glyph, GDEF_get_glyph_class None glyph = Ok (0, [])) /\
  (forall header glyph,
      be_word header GDEF_Header.GlyphClassDef = Ok (0, []) ->
      GDEF_get_glyph_class (Some header) glyph = Ok (0, [])) /\
  (forall header glyph offset fmt,
      be_word header GDEF_Header.GlyphClassDef = Ok (offset, []) ->
      offset <> 0 ->
      be_word (header +p offset) GDEF_ClassDefFormat1.ClassFormat = Ok (fmt, []) ->
      fmt <> 1 -> fmt <> 2 ->
      GDEF_get_glyph_class (Some header) glyph =
      Ok (0, [ERR_Unknown_Class_Format fmt])).
Proof.
  split; [|split].
  - reflexivity.
  - intros header glyph H. unfold GDEF_get_glyph_class.
    rewrite bind_be_word, H. reflexivity.
  - intros header glyph offset fmt Hoff Hne Hfmt H1 H2.
    unfold GDEF_get_glyph_class. rewrite bind_be_word, Hoff.
    assert ((offset =? 0) = false) as -> by lia. cbv zeta.
    rewrite bind_be_word, Hfmt.
    assert ((fmt =? 1) = false) as -> by lia.
    assert ((fmt =? 2) = false) as -> by lia.
    reflexivity.
Qed.

(** A GDEF table with a zero class-definition offset, and one whose class
    definition has the unknown format 3. *)
Lemma GDEF_get_glyph_class_degrades_witness :
  GDEF_get_glyph_class
    (Some (table_of (be32 0x00010000 ++ be16 0 ++ be16 0 ++ be16 0 ++ be16 0))) 7
  = Ok (0, []) /\
  GDEF_get_glyph_class
    (Some (table_of (be32 0x00010000 ++ be16 12 ++ be16 0 ++ be16 0 ++ be16 0
                     ++ be16 3 ++ be16 0))) 7
  = Ok (0, [ERR_Unknown_Class_Format 3]).
Proof.
  destruct GDEF_get_glyph_class_degrades as (_ & Hzero & Hfmt). split.
  - apply Hzero. vm_compute. reflexivity.
  - apply (Hfmt _ 7 12 3); [vm_compute; reflexivity | lia | vm_compute; reflexivity
                           | lia | lia].
Defined.

(* ================================================================== *)
(** ** The state monad *)

Lemma bind_ok {A B} (c : M A) (k : A -> M B) s a s' :
  c s = Ok (a, s') -> bind c k s = k a s'.
Proof. unfold bind. intros ->. reflexivity. Qed.

Lemma bind_inv {A B} (c : M A) (k : A -> M B) s b s'' :
  bind c k s = Ok (b, s'') ->
  exists a s', c s = Ok (a, s') /\ k a s' = Ok (b, s'').
Proof.
  unfold bind. destruct (c s) as [[a s']|f]; [|discriminate].
  intros H. exists a, s'. auto.
Qed.

Lemma bind_assoc {A B C} (c : M A) (k1 : A -> M B) (k2 : B -> M C) s :
  bind (bind c k1) k2 s = bind c (fun x => bind (k1 x) k2) s.
Proof. unfold bind. destruct (c s) as [[a s']|f]; reflexivity. Qed.

Lemma liftW_ok {A} (c : W A) a l s :
  c = Ok (a, l) -> liftW c s = Ok (a, with_log (log s ++ l) s).
Proof. intros ->. reflexivity. Qed.

(** ** Arrays *)

Lemma list_upd_length {A} (l : list A) n x :
  (n < List.length l)%nat -> List.length (list_upd l n x) = List.length l.
Proof.
  unfold list_upd. intros H.
  rewrite length_app, length_firstn. cbn [List.length]. rewrite length_skipn. lia.
Qed.

Lemma list_upd_same {A} (l : list A) n x :
  (n < List.length l)%nat -> nth_error (list_upd l n x) n = Some x.
Proof.
  unfold list_upd. intros H.
  rewrite nth_error_app2; rewrite length_firstn; [|lia].
  replace (n - Nat.min n (List.length l))%nat with O by lia. reflexivity.
Qed.

Lemma list_upd_other {A} (l : list A) n m x :
  (n < List.length l)%nat -> m <> n ->
  nth_error (list_upd l n x) m = nth_error l m.
Proof.
  unfold list_upd. intros H Hne.
  destruct (Nat.lt_ge_cases m n) as [Hlt|Hge].
  - rewrite nth_error_app1 by (rewrite length_firstn; lia).
    rewrite nth_error_firstn.
    destruct (Nat.ltb_spec m n); [reflexivity | lia].
  - rewrite nth_error_app2; rewrite length_firstn; [|lia].
    replace (Nat.min n (List.length l)) with n by lia.
    destruct (m - n)%nat as [|d] eqn:E; [lia|]. cbn [nth_error].
    rewrite nth_error_skipn. f_equal. lia.
Qed.

Lemma list_upd_twice {A} (l : list A) n x y :
  (n < List.length l)%nat -> list_upd (list_upd l n x) n y = list_upd l n y.
Proof.
  unfold list_upd. intros H.
  assert (Hf : List.length (firstn n l) = n) by (rewrite length_firstn; lia).
  rewrite firstn_app, Hf, Nat.sub_diag, firstn_O, app_nil_r.
  rewrite firstn_all2 by lia. f_equal. f_equal.
  rewrite skipn_app, Hf.
  rewrite (skipn_all2 (firstn n l)) by lia.
  replace (S n - n)%nat with 1%nat by lia. reflexivity.
Qed.

Lemma update_GlyphProp_ok i f s p :
  0 <= i -> nth_error (mem_pGlyphProp s) (Z.to_nat i) = Some p ->
  update_GlyphProp i f s =
  Ok (tt, with_pGlyphProp (list_upd (mem_pGlyphProp s) (Z.to_nat i) (f p)) s).
Proof.
  intros Hi Hp. unfold update_GlyphProp.
  assert ((i <? 0) = false) as -> by lia. rewrite Hp. reflexivity.
Qed.

Lemma set_sva_ok i a b c s p :
  0 <= i -> nth_error (mem_pGlyphProp s) (Z.to_nat i) = Some p ->
  set_sva i a b c s =
  Ok (tt, with_pGlyphProp
            (list_upd (mem_pGlyphProp s) (Z.to_nat i)
               (with_fZeroWidth c (with_fDiacritic b (with_fClusterStart a p))))
            s).
Proof.
  intros Hi Hp. unfold set_sva.
  assert (Hlt : (Z.to_nat i < List.length (mem_pGlyphProp s))%nat)
    by (apply nth_error_Some; congruence).
  rewrite (bind_ok _ _ _ _ _ (update_GlyphProp_ok i _ s p Hi Hp)).
  rewrite (bind_ok _ _ _ tt
             (with_pGlyphProp (list_upd (mem_pGlyphProp s) (Z.to_nat i)
                (with_fDiacritic b (with_fClusterStart a p))) s)).
  - rewrite (update_GlyphProp_ok i _ _ (with_fDiacritic b (with_fClusterStart a p)) Hi).
    + cbn [with_pGlyphProp mem_pGlyphProp psc mem_pgi calls log].
      rewrite list_upd_twice by assumption. reflexivity.
    + cbn [with_pGlyphProp mem_pGlyphProp]. apply list_upd_same. assumption.
  - rewrite (update_GlyphProp_ok i _ _ (with_fClusterStart a p) Hi).
    + cbn [with_pGlyphProp mem_pGlyphProp psc mem_pgi calls log].
      rewrite list_upd_twice by assumption. reflexivity.
    + cbn [with_pGlyphProp mem_pGlyphProp]. apply list_upd_same. assumption.
Qed.

Lemma array_get_app pre x suf :
  array_get (pre ++ x :: suf) (Z.of_nat (List.length pre)) = retW x.
Proof.
  unfold array_get.
  assert ((Z.of_nat (List.length pre) <? 0) = false) as ->
    by (apply Z.ltb_ge; lia).
  rewrite Nat2Z.id, nth_error_app2, Nat.sub_diag by lia. reflexivity.
Qed.

Lemma array_get_nth a i v :
  0 <= i -> nth_error a (Z.to_nat i) = Some v -> array_get a i = retW v.
Proof.
  intros Hi H. unfold array_get.
  assert ((i <? 0) = false) as -> by lia. rewrite H. reflexivity.
Qed.

Lemma retW_eq {A} (a b : A) : a = b -> retW a = retW b.
Proof. congruence. Qed.

(** The inner loop counts the entries of the cluster map equal to [i]. *)
Lemma char_count_loop_spec i suf : forall pre acc,
  char_count_loop (pre ++ suf) i (List.length suf) (Z.of_nat (List.length pre)) acc
  = retW (acc + count_eq suf i).
Proof.
  induction suf as [|x suf IH]; intros pre acc.
  - cbn. apply retW_eq. unfold count_eq. cbn. lia.
  - cbn [List.length char_count_loop].
    rewrite (bindW_quiet _ _ _ (array_get_app pre x suf)).
    replace (Z.of_nat (List.length pre) + 1)
      with (Z.of_nat (List.length (pre ++ [x])))
      by (rewrite length_app; cbn; lia).
    replace (pre ++ x :: suf) with ((pre ++ [x]) ++ suf)
      by (rewrite <- app_assoc; reflexivity).
    unfold count_eq. cbn [filter].
    destruct (x =? i); rewrite IH; apply retW_eq; unfold count_eq;
      cbn [List.length]; lia.
Qed.

Lemma char_count_loop_all pwLogClust i :
  char_count_loop pwLogClust i (Z.to_nat (Z.of_nat (List.length pwLogClust))) 0 0
  = retW (count_eq pwLogClust i).
Proof.
  rewrite Nat2Z.id. exact (char_count_loop_spec i pwLogClust [] 0).
Qed.

(* ================================================================== *)
(** ** The glyph property annotator *)

Lemma annotated_flags c cc p a b z :
  class_flags c = (a, b, z) ->
  annotated c cc p =
  (if cc =? 0 then with_fClusterStart false else fun q => q)
    (with_fZeroWidth z (with_fDiacritic b (with_fClusterStart a p))).
Proof.
  intros H. unfold annotated. rewrite H. destruct (cc =? 0); reflexivity.
Qed.

Lemma glyph_body_ok pwGlyphs pwLogClust i s g c lc p :
  0 <= i ->
  nth_error pwGlyphs (Z.to_nat i) = Some g ->
  GDEF_get_glyph_class (GDEF_Table (psc s)) g = Ok (c, lc) ->
  nth_error (mem_pGlyphProp s) (Z.to_nat i) = Some p ->
  exists l,
    glyph_body pwGlyphs pwLogClust (Z.of_nat (List.length pwLogClust)) i s =
    Ok (tt, with_log l
              (with_pGlyphProp
                 (list_upd (mem_pGlyphProp s) (Z.to_nat i)
                    (annotated c (count_eq pwLogClust i) p)) s)).
Proof.
  intros Hi Hg Hc Hp. unfold glyph_body.
  assert (Hlt : (Z.to_nat i < List.length (mem_pGlyphProp s))%nat)
    by (apply nth_error_Some; congruence).
  rewrite (bind_ok _ _ _ _ _ (liftW_ok _ _ _ s (char_count_loop_all pwLogClust i))).
  unfold bind at 1, get at 1.
  rewrite (bind_ok _ _ _ _ _ (liftW_ok _ _ _ _ (array_get_nth _ _ _ Hi Hg))).
  cbn [with_log psc].
  rewrite (bind_ok _ _ _ _ _ (liftW_ok _ _ _ _ Hc)).
  set (cc := count_eq pwLogClust i).
  assert (Hsva : forall l1 a b z, class_flags c = (a, b, z) ->
            exists l,
              bind (set_sva i a b z)
                (fun _ => if cc =? 0
                          then update_GlyphProp i (with_fClusterStart false)
                          else ret tt) (with_log l1 s) =
              Ok (tt, with_log l
                        (with_pGlyphProp
                           (list_upd (mem_pGlyphProp s) (Z.to_nat i)
                              (annotated c cc p)) s))).
  { intros l1 a b z Hf. exists l1.
    rewrite (bind_ok _ _ _ _ _ (set_sva_ok i a b z (with_log l1 s) p Hi Hp)).
    rewrite (annotated_flags _ _ _ _ _ _ Hf).
    destruct (cc =? 0).
    - erewrite update_GlyphProp_ok;
        [|exact Hi| cbn [with_pGlyphProp mem_pGlyphProp]; apply list_upd_same; exact Hlt].
      cbn [with_pGlyphProp mem_pGlyphProp psc mem_pgi calls log with_log].
      rewrite list_upd_twice by exact Hlt. reflexivity.
    - reflexivity. }
  unfold class_flags, BaseGlyph, LigatureGlyph, MarkGlyph, ComponentGlyph in *.
  destruct (Z.eqb_spec c 0) as [->|H0]; [apply (Hsva _ true false false); reflexivity|].
  destruct (Z.eqb_spec c 1) as [->|H1]; [apply (Hsva _ true false false); reflexivity|].
  destruct (Z.eqb_spec c 2) as [->|H2]; [apply (Hsva _ true false false); reflexivity|].
  destruct (Z.eqb_spec c 3) as [->|H3]; [apply (Hsva _ false true true); reflexivity|].
  destruct (Z.eqb_spec c 4) as [->|H4]; [apply (Hsva _ false false false); reflexivity|].
  cbn [orb].
  rewrite bind_assoc.
  rewrite (bind_ok _ _ _ _ _
             (liftW_ok _ _ _ _ (eq_refl (ERR (ERR_Unknown_glyph_class c))))).
  apply (Hsva _ true false false). reflexivity.
Qed.

Lemma glyph_loop_ok pwGlyphs pwLogClust cls n : forall k s,
  (forall g, In g pwGlyphs ->
     exists l, GDEF_get_glyph_class (GDEF_Table (psc s)) g = Ok (cls g, l)) ->
  (k + n <= List.length pwGlyphs)%nat ->
  (k + n <= List.length (mem_pGlyphProp s))%nat ->
  exists s',
    glyph_loop pwGlyphs pwLogClust (Z.of_nat (List.length pwLogClust)) n
      (Z.of_nat k) s = Ok (tt, s') /\
    psc s' = psc s /\ mem_pgi s' = mem_pgi s /\ calls s' = calls s /\
    List.length (mem_pGlyphProp s') = List.length (mem_pGlyphProp s) /\
    (forall j g p, (k <= j < k + n)%nat ->
       nth_error pwGlyphs j = Some g ->
       nth_error (mem_pGlyphProp s) j = Some p ->
       nth_error (mem_pGlyphProp s') j =
       Some (annotated (cls g) (count_eq pwLogClust (Z.of_nat j)) p)) /\
    (forall j, ~ (k <= j < k + n)%nat ->
       nth_error (mem_pGlyphProp s') j = nth_error (mem_pGlyphProp s) j).
Proof.
  induction n as [|n IH]; intros k s Hcls Hg Hp.
  - exists s. cbn. repeat split; auto. intros j g p Hj. lia.
  - destruct (nth_error pwGlyphs k) as [g|] eqn:Eg;
      [|apply nth_error_None in Eg; lia].
    destruct (nth_error (mem_pGlyphProp s) k) as [p|] eqn:Ep;
      [|apply nth_error_None in Ep; lia].
    destruct (Hcls g (nth_error_In _ _ Eg)) as [lc Hc].
    assert (Hk : 0 <= Z.of_nat k) by lia.
    rewrite <- (Nat2Z.id k) in Eg, Ep.
    destruct (glyph_body_ok pwGlyphs pwLogClust _ s g (cls g) lc p Hk Eg Hc Ep)
      as [l Hbody].
    rewrite Nat2Z.id in Eg, Ep, Hbody.
    cbn [glyph_loop]. rewrite (bind_ok _ _ _ _ _ Hbody).
    replace (Z.of_nat k + 1) with (Z.of_nat (S k)) by lia.
    set (s1 := with_log l _).
    assert (Hlt : (k < List.length (mem_pGlyphProp s))%nat) by lia.
    destruct (IH (S k) s1) as (s' & Hrun & Hpsc & Hpgi & Hcalls & Hlen & Hin & Hout).
    + exact Hcls.
    + lia.
    + cbn. rewrite list_upd_length by exact Hlt. lia.
    + cbn [s1 with_log with_pGlyphProp mem_pGlyphProp psc mem_pgi calls] in *.
      exists s'. split; [exact Hrun|].
      rewrite list_upd_length in Hlen by exact Hlt.
      repeat split; try assumption.
      * intros j g' p' Hj Hg' Hp'. destruct (Nat.eq_dec j k) as [->|Hne].
        -- rewrite Hout by lia. rewrite list_upd_same by exact Hlt.
           congruence.
        -- apply Hin; [lia | exact Hg' |].
           rewrite list_upd_other by auto. exact Hp'.
      * intros j Hj. rewrite Hout by lia. apply list_upd_other; [exact Hlt | lia].
Qed.

Lemma load_gdef_table_total hdc s :
  exists t s1,
    load_gdef_table hdc s = Ok (t, s1) /\
    mem_pgi s1 = mem_pgi s /\ mem_pGlyphProp s1 = mem_pGlyphProp s /\
    psc s1 = psc s.
Proof.
  unfold load_gdef_table, GetFontData_size, GetFontData, HeapAlloc, TRACE,
    record_call, liftW, bind, get, ret. cbn.
  destruct (font_data hdc (List.length (calls s)) GDEF_TAG) as [b|]; cbn.
  - destruct (negb (Z.of_nat (List.length b) =? GDI_ERROR)); cbn.
    + destruct (font_data hdc _ GDEF_TAG); cbn; eexists _, _; repeat split.
    + eexists _, _; repeat split.
  - eexists _, _; repeat split.
Qed.

(** C3. The annotator leaves one property record per glyph, in the order of
    the glyphs: for the glyph of index [i] and class [cls g] the record is
    [annotated (cls g) char_count], where [char_count] is the number of
    cluster-map entries equal to [i]: the flags of the class table, with
    [fClusterStart] cleared whenever [char_count] is [0].  Records beyond
    the run are left as they were. *)
Theorem OpenType_GDEF_UpdateGlyphProps_spec hdc pwGlyphs pwLogClust s cls :
  (List.length pwGlyphs <= List.length (mem_pGlyphProp s))%nat ->
  (forall g, In g pwGlyphs ->
     exists l, GDEF_get_glyph_class (GDEF_Table_for hdc s) g = Ok (cls g, l)) ->
  exists s',
    OpenType_GDEF_UpdateGlyphProps hdc pwGlyphs (Z.of_nat (List.length pwGlyphs))
      pwLogClust (Z.of_nat (List.length pwLogClust)) s = Ok (tt, s') /\
    List.length (mem_pGlyphProp s') = List.length (mem_pGlyphProp s) /\
    (forall i g p,
       nth_error pwGlyphs i = Some g ->
       nth_error (mem_pGlyphProp s) i = Some p ->
       nth_error (mem_pGlyphProp s') i =
       Some (annotated (cls g) (count_eq pwLogClust (Z.of_nat i)) p)) /\
    (forall i, (List.length pwGlyphs <= i)%nat ->
       nth_error (mem_pGlyphProp s') i = nth_error (mem_pGlyphProp s) i) /\
    (forall class n p,
       fClusterStart (annotated class n p) =
         negb (n =? 0) && negb (class =? MarkGlyph)
         && negb (class =? ComponentGlyph) /\
       fDiacritic (annotated class n p) = (class =? MarkGlyph) /\
       fZeroWidth (annotated class n p) = (class =? MarkGlyph) /\
       fClusterStart (annotated class 0 p) = false).
Proof.
  intros Hlen Hcls. unfold OpenType_GDEF_UpdateGlyphProps.
  unfold bind at 1, get at 1. rewrite Nat2Z.id.
  assert (Hloop : forall s1,
    GDEF_Table (psc s1) = GDEF_Table_for hdc s ->
    mem_pGlyphProp s1 = mem_pGlyphProp s ->
    exists s',
      glyph_loop pwGlyphs pwLogClust (Z.of_nat (List.length pwLogClust))
        (List.length pwGlyphs) 0 s1 = Ok (tt, s') /\
      List.length (mem_pGlyphProp s') = List.length (mem_pGlyphProp s) /\
      (forall i g p,
         nth_error pwGlyphs i = Some g ->
         nth_error (mem_pGlyphProp s) i = Some p ->
         nth_error (mem_pGlyphProp s') i =
         Some (annotated (cls g) (count_eq pwLogClust (Z.of_nat i)) p)) /\
      (forall i, (List.length pwGlyphs <= i)%nat ->
         nth_error (mem_pGlyphProp s') i = nth_error (mem_pGlyphProp s) i)).
  { intros s1 HT Hprops.
    destruct (glyph_loop_ok pwGlyphs pwLogClust cls (List.length pwGlyphs) O s1)
      as (s' & Hrun & _ & _ & _ & Hl & Hin & Hout).
    - rewrite HT. exact Hcls.
    - lia.
    - rewrite Hprops. lia.
    - exists s'. rewrite Hprops in *. repeat split; try assumption.
      + intros i g p Hg Hp. apply Hin; try assumption.
        assert (i < List.length pwGlyphs)%nat by (apply nth_error_Some; congruence).
        lia.
      + intros i Hi. apply Hout. lia. }
  assert (Hflags : forall class n p,
       fClusterStart (annotated class n p) =
         negb (n =? 0) && negb (class =? MarkGlyph)
         && negb (class =? ComponentGlyph) /\
       fDiacritic (annotated class n p) = (class =? MarkGlyph) /\
       fZeroWidth (annotated class n p) = (class =? MarkGlyph) /\
       fClusterStart (annotated class 0 p) = false).
  { intros class n p. unfold annotated, class_flags.
    destruct (Z.eqb_spec class MarkGlyph) as [->|HM].
    - cbn. destruct (n =? 0); auto.
    - destruct (class =? ComponentGlyph); cbn; destruct (n =? 0); auto. }
  unfold GDEF_Table_for in Hloop.
  destruct (GDEF_Table (psc s)) as [t|] eqn:ET.
  - destruct (Hloop s ET eq_refl) as (s' & Hrun & H).
    exists s'. destruct H as (H1 & H2 & H3).
    split; [unfold bind, ret; exact Hrun|]. auto.
  - destruct (load_gdef_table_total hdc s) as (t & s1 & Hload & _ & Hp1 & _).
    rewrite Hload in Hloop.
    rewrite bind_assoc, (bind_ok _ _ _ _ _ Hload).
    unfold set_GDEF_Table, set_psc, bind, get.
    match goal with |- context [glyph_loop _ _ _ _ _ ?s0] => set (s2 := s0) end.
    destruct (Hloop s2 eq_refl Hp1) as (s' & Hrun & H).
    exists s'. destruct H as (H1 & H2 & H3).
    split; [exact Hrun|]. auto.
Qed.

(** Six glyphs of classes Base, Mark, Ligature, Component, 7 (unknown) and
    Base again; no character maps to the last one. *)
Lemma OpenType_GDEF_UpdateGlyphProps_spec_witness :
  exists s',
    OpenType_GDEF_UpdateGlyphProps
      (hdc_of None (Some (gdef1_bytes 10 [1; 3; 2; 4; 7])))
      [10; 11; 12; 13; 14; 10] 6 [0; 0; 1; 2; 3; 4] 6 (fresh 6) = Ok (tt, s') /\
    nth_error (mem_pGlyphProp s') 0 = Some (annotated BaseGlyph 2 blank_prop) /\
    nth_error (mem_pGlyphProp s') 5 = Some (annotated BaseGlyph 0 blank_prop).
Proof.
  destruct (OpenType_GDEF_UpdateGlyphProps_spec
              (hdc_of None (Some (gdef1_bytes 10 [1; 3; 2; 4; 7])))
              [10; 11; 12; 13; 14; 10] [0; 0; 1; 2; 3; 4] (fresh 6)
              (fun g => nth (Z.to_nat (g - 10)) [1; 3; 2; 4; 7] 0))
    as (s' & Hrun & _ & Hin & _).
  - cbn. lia.
  - intros g Hg. cbn in Hg.
    destruct Hg as [<-|[<-|[<-|[<-|[<-|[<-|[]]]]]]]; vm_compute; eexists; reflexivity.
  - exists s'. split; [exact Hrun|]. split.
    + exact (Hin 0%nat 10 blank_prop eq_refl eq_refl).
    + exact (Hin 5%nat 10 blank_prop eq_refl eq_refl).
Defined.

(** The spec's cluster override: a Base glyph no character maps to does not
    start a cluster. *)
Example cluster_override_example :
  fClusterStart (annotated BaseGlyph 0 blank_prop) = false /\
  fClusterStart (annotated BaseGlyph 1 blank_prop) = true.
Proof. split; reflexivity. Qed.

(* ================================================================== *)
(** ** The format-12 view and the binary search *)

Lemma liftW_quiet {A} (c : W A) a s :
  c = Ok (a, []) -> liftW c s = Ok (a, s).
Proof.
  intros ->. unfold liftW. rewrite app_nil_r. destruct s; reflexivity.
Qed.

Lemma read_group_fields p g l :
  read_group p = Ok (g, l) ->
  be_dword p CMAP_SegmentedCoverage_group.startCharCode = Ok (start_char g, []) /\
  be_dword p CMAP_SegmentedCoverage_group.endCharCode = Ok (end_char g, []) /\
  be_dword p CMAP_SegmentedCoverage_group.startGlyphID = Ok (start_glyph g, []) /\
  0 <= start_char g < 2 ^ 32 /\ 0 <= start_glyph g < 2 ^ 32.
Proof.
  unfold read_group. intros H.
  inv_dword H s Hs. inv_dword H e He. inv_dword H sg Hsg. inj H. cbn. auto.
Qed.

Lemma read_groups_spec base n : forall i gs l,
  read_groups base n i = Ok (gs, l) ->
  List.length gs = n /\
  forall j g, nth_error gs j = Some g ->
    read_group (base +p ((i + Z.of_nat j) * CMAP_SegmentedCoverage_group.sizeof))
    = Ok (g, []).
Proof.
  induction n as [|n IH]; intros i gs l H.
  - inj H. split; [reflexivity|]. intros [|j] g Hj; discriminate.
  - cbn [read_groups] in H.
    apply bindW_inv in H as (g0 & l1 & l2 & Hg & H & ->).
    apply bindW_inv in H as (rest & l3 & l4 & Hr & H & ->).
    inj H. apply IH in Hr as [Hlen Hnth]. split; [cbn; congruence|].
    intros [|j] g Hj; cbn in Hj.
    + injection Hj as <-. rewrite Z.add_0_r.
      destruct (read_group_fields _ _ _ Hg) as (Hs & He & Hsg & _).
      unfold read_group.
      rewrite (bindW_quiet _ _ _ Hs), (bindW_quiet _ _ _ He), (bindW_quiet _ _ _ Hsg).
      destruct g0; reflexivity.
    + replace (i + Z.of_nat (S j)) with (i + 1 + Z.of_nat j) by lia.
      apply Hnth. exact Hj.
Qed.

Lemma compare_group_spec chr p g :
  read_group p = Ok (g, []) ->
  compare_group chr p =
  retW (if chr <? start_char g then -1
        else if end_char g <? chr then 1 else 0).
Proof.
  intros H. destruct (read_group_fields _ _ _ H) as (Hs & He & _).
  unfold compare_group. rewrite (bindW_quiet _ _ _ Hs).
  destruct (chr <? start_char g); [reflexivity|].
  rewrite (bindW_quiet _ _ _ He). destruct (end_char g <? chr); reflexivity.
Qed.

Lemma groups_sorted_head g rest :
  groups_sorted (g :: rest) = true ->
  start_char g <= end_char g /\ groups_sorted rest = true /\
  forall g', In g' rest -> end_char g < start_char g'.
Proof.
  revert g. induction rest as [|g1 rest IH]; intros g H.
  - cbn in H. split; [lia|]. split; [reflexivity|]. intros g' [].
  - cbn [groups_sorted] in H.
    apply andb_prop in H as [H Hrest]. apply andb_prop in H as [Hg Hlt].
    split; [lia|]. split; [exact Hrest|].
    destruct (IH g1 Hrest) as (Hg1 & _ & Hall).
    intros g' [<-|Hin]; [lia|]. specialize (Hall g' Hin). lia.
Qed.

Lemma groups_sorted_nth gs : groups_sorted gs = true ->
  (forall i g, nth_error gs i = Some g -> start_char g <= end_char g) /\
  (forall i j gi gj, (i < j)%nat ->
     nth_error gs i = Some gi -> nth_error gs j = Some gj ->
     end_char gi < start_char gj).
Proof.
  induction gs as [|g rest IH]; intros H.
  - split; intros; destruct i; discriminate.
  - destruct (groups_sorted_head g rest H) as (Hg & Hrest & Hall).
    destruct (IH Hrest) as [IH1 IH2]. split.
    + intros [|i] g' Hi; cbn in Hi.
      * injection Hi as <-. exact Hg.
      * eapply IH1. exact Hi.
    + intros i j gi gj Hij Hi Hj. destruct j as [|j]; [lia|]. cbn in Hj.
      destruct i as [|i]; cbn in Hi.
      * injection Hi as <-. apply Hall. eapply nth_error_In. exact Hj.
      * eapply (IH2 i j); [lia | exact Hi | exact Hj].
Qed.

(** On a sorted view the search ends with the group holding [key], if there
    is one; the iterations it is given are enough. *)
Lemma bsearch_loop_sorted key base gs fuel : forall l u,
  groups_sorted gs = true ->
  (forall j g, nth_error gs j = Some g ->
     read_group (base +p (Z.of_nat j * CMAP_SegmentedCoverage_group.sizeof))
     = Ok (g, [])) ->
  0 <= l <= u -> u <= Z.of_nat (List.length gs) ->
  u - l <= Z.of_nat fuel ->
  (forall j g, Z.of_nat j < l -> nth_error gs j = Some g -> end_char g < key) ->
  (forall j g, u <= Z.of_nat j -> nth_error gs j = Some g -> key < start_char g) ->
  (bsearch_loop compare_group key base CMAP_SegmentedCoverage_group.sizeof
     fuel l u = retW None /\
   forall g, In g gs -> ~ in_group key g) \/
  (exists j g,
     nth_error gs j = Some g /\ in_group key g /\
     bsearch_loop compare_group key base CMAP_SegmentedCoverage_group.sizeof
       fuel l u
     = retW (Some (base +p (Z.of_nat j * CMAP_SegmentedCoverage_group.sizeof)))).
Proof.
  induction fuel as [|fuel IH]; intros l u Hs Hrd Hlu Hu Hfuel Hlo Hhi.
  - left. split; [reflexivity|].
    intros g Hin [H1 H2]. apply In_nth_error in Hin as [j Hj].
    destruct (Z_lt_le_dec (Z.of_nat j) l) as [Hlt|Hge].
    + specialize (Hlo j g Hlt Hj). lia.
    + assert (u <= Z.of_nat j) by lia. specialize (Hhi j g H Hj). lia.
  - cbn [bsearch_loop]. destruct (Z.ltb_spec l u) as [Hlt|Hge].
    + cbv zeta.
      assert (Hmid : l <= (l + u) / 2 < u).
      { split; [apply Z.div_le_lower_bound | apply Z.div_lt_upper_bound]; lia. }
      set (idx := (l + u) / 2) in *.
      destruct (nth_error gs (Z.to_nat idx)) as [g|] eqn:Eg;
        [|apply nth_error_None in Eg; lia].
      pose proof (Hrd _ _ Eg) as Hread. rewrite Z2Nat.id in Hread by lia.
      rewrite (bindW_quiet _ _ _ (compare_group_spec key _ g Hread)).
      destruct (groups_sorted_nth gs Hs) as [Hne Hord].
      destruct (Z.ltb_spec key (start_char g)) as [Hk|Hk].
      * cbn. apply IH; try assumption; try lia.
        intros j g' Hj Hg'.
        destruct (Z.eq_dec (Z.of_nat j) idx) as [E|E].
        -- rewrite <- E, Nat2Z.id in Eg. congruence.
        -- assert (end_char g < start_char g')
             by (apply (Hord (Z.to_nat idx) j); [lia | exact Eg | exact Hg']).
           specialize (Hne _ _ Eg). lia.
      * destruct (Z.ltb_spec (end_char g) key) as [Hk2|Hk2].
        -- cbn. apply IH; try assumption; try lia.
           intros j g' Hj Hg'.
           destruct (Z.eq_dec (Z.of_nat j) idx) as [E|E].
           ++ rewrite <- E, Nat2Z.id in Eg. congruence.
           ++ assert (end_char g' < start_char g)
                by (apply (Hord j (Z.to_nat idx)); [lia | exact Hg' | exact Eg]).
              specialize (Hne _ _ Hg'). lia.
        -- cbn. right. exists (Z.to_nat idx), g.
           rewrite Z2Nat.id by lia. repeat split; try assumption; try lia.
    + left. split; [reflexivity|].
      intros g Hin [H1 H2]. apply In_nth_error in Hin as [j Hj].
      destruct (Z_lt_le_dec (Z.of_nat j) l) as [Hlt|Hge'].
      * specialize (Hlo j g Hlt Hj). lia.
      * assert (u <= Z.of_nat j) by lia. specialize (Hhi j g H Hj). lia.
Qed.

Lemma bsearch_loop_unfold compar key base size fuel l u :
  bsearch_loop compar key base size (S fuel) l u =
  if l <? u then
    bindW (compar key (base +p ((l + u) / 2 * size)))
      (fun comparison =>
         if comparison <? 0
         then bsearch_loop compar key base size fuel l ((l + u) / 2)
         else if 0 <? comparison
              then bsearch_loop compar key base size fuel ((l + u) / 2 + 1) u
              else retW (Some (base +p ((l + u) / 2 * size))))
  else retW None.
Proof. reflexivity. Qed.

(** The iterations [bsearch] allows are always enough: more change
    nothing. *)
Lemma bsearch_loop_fuel compar key base size fuel : forall l u,
  u - l <= Z.of_nat fuel ->
  bsearch_loop compar key base size (S fuel) l u =
  bsearch_loop compar key base size fuel l u.
Proof.
  induction fuel as [|fuel IH]; intros l u H.
  - cbn. destruct (Z.ltb_spec l u); [lia | reflexivity].
  - rewrite (bsearch_loop_unfold compar key base size (S fuel) l u),
      (bsearch_loop_unfold compar key base size fuel l u).
    destruct (Z.ltb_spec l u) as [Hlt|Hge]; [|reflexivity].
    assert (Hmid : l <= (l + u) / 2 < u).
    { split; [apply Z.div_le_lower_bound | apply Z.div_lt_upper_bound]; lia. }
    destruct (compar key (base +p ((l + u) / 2 * size))) as [[c lc]|f];
      [|reflexivity].
    unfold bindW.
    destruct (c <? 0).
    + rewrite (IH l ((l + u) / 2)) by lia. reflexivity.
    + destruct (0 <? c); [|reflexivity].
      rewrite (IH ((l + u) / 2 + 1) u) by lia. reflexivity.
Qed.

Lemma find_unique_group gs c j g :
  groups_sorted gs = true -> nth_error gs j = Some g -> in_group c g ->
  find (in_groupb c) gs = Some g.
Proof.
  intros Hs Hj [H1 H2].
  destruct (groups_sorted_nth gs Hs) as [Hne Hord].
  destruct (find (in_groupb c) gs) as [g'|] eqn:E.
  - apply find_some in E as [Hin E]. unfold in_groupb in E.
    apply In_nth_error in Hin as [j' Hj'].
    destruct (Nat.lt_trichotomy j j') as [Hlt|[->|Hgt]].
    + specialize (Hord _ _ _ _ Hlt Hj Hj'). lia.
    + congruence.
    + specialize (Hord _ _ _ _ Hgt Hj' Hj). lia.
  - pose proof (find_none _ _ E g (nth_error_In _ _ Hj)) as F.
    unfold in_groupb in F. lia.
Qed.

Lemma find_no_group gs c :
  (forall g, In g gs -> ~ in_group c g) -> find (in_groupb c) gs = None.
Proof.
  intros H. destruct (find (in_groupb c) gs) as [g|] eqn:E; [|reflexivity].
  apply find_some in E as [Hin E]. unfold in_groupb in E.
  exfalso. apply (H g Hin). unfold in_group. lia.
Qed.

(* ================================================================== *)
(** ** The glyph lookup *)

Lemma liftW_inv {A} (c : W A) s a s' :
  liftW c s = Ok (a, s') ->
  exists l, c = Ok (a, l) /\ s' = with_log (log s ++ l) s.
Proof.
  unfold liftW. destruct c as [[a0 l]|f]; [|discriminate].
  intros H. apply Ok_pair_inj in H as [-> <-]. exists l. auto.
Qed.

Lemma sentinel_store flags s :
  (if negb (Z.land flags GGI_MARK_NONEXISTING_GLYPHS =? 0)
   then store_pgi 0xffff else store_pgi 0) s
  = Ok (tt, with_pgi (not_found flags) s).
Proof.
  unfold not_found. destruct (Z.land flags GGI_MARK_NONEXISTING_GLYPHS =? 0);
    reflexivity.
Qed.

Lemma mod_2_32_2_16 x : (x mod 2 ^ 32) mod 2 ^ 16 = x mod 2 ^ 16.
Proof.
  apply Z.mod_mod_divide. exists (2 ^ 16). reflexivity.
Qed.

(** The lookup against a cached, well-formed view. *)
Lemma CMAP_lookup_cached hdc c flags s format gs :
  CMAP_format12_Table (psc s) = Some format ->
  CmapFormat12View format = Ok (gs, []) ->
  groups_sorted gs = true ->
  0x10000 <= c < 2 ^ 32 ->
  OpenType_CMAP_GetGlyphIndex hdc c flags s =
  Ok (0, with_pgi (resolve_glyph gs c flags) s).
Proof.
  intros Hf Hview Hs Hc. unfold OpenType_CMAP_GetGlyphIndex.
  assert ((c <? 0x10000) = false) as -> by lia.
  unfold bind at 1, get at 1. rewrite Hf.
  unfold bind at 1, ret at 1.
  rewrite (bind_ok _ _ _ _ _ (sentinel_store flags s)).
  unfold bind at 1, get at 1.
  cbn [with_pgi psc]. rewrite Hf.
  unfold CmapFormat12View in Hview.
  remember (@nil msg) as l0 in Hview. clear Heql0.
  inv_dword Hview nGroups Hn.
  apply read_groups_spec in Hview as [Hlen Hnth].
  rewrite (bind_ok _ _ _ _ _ (liftW_quiet _ _ _ Hn)).
  unfold bsearch.
  destruct (bsearch_loop_sorted c (format +p CMAP_SegmentedCoverage.groups) gs
              (Z.to_nat nGroups) 0 nGroups Hs) as [[Hb Hnone]|(j & g & Hj & Hin & Hb)];
    try lia.
  - intros j g Hj. exact (Hnth j g Hj).
  - intros j g Hj Hg.
    assert (j < List.length gs)%nat by (apply nth_error_Some; congruence). lia.
  - rewrite (bind_ok _ _ _ _ _ (liftW_quiet _ _ _ Hb)).
    unfold ret, resolve_glyph. rewrite (find_no_group _ _ Hnone). reflexivity.
  - rewrite (bind_ok _ _ _ _ _ (liftW_quiet _ _ _ Hb)).
    destruct (read_group_fields _ _ _ (Hnth j g Hj)) as (Hsc & _ & Hsg & Hr).
    cbn [Z.add] in Hsc, Hsg.
    rewrite (bind_ok _ _ _ _ _ (liftW_quiet _ _ _ Hsc)).
    rewrite (bind_ok _ _ _ _ _ (liftW_quiet _ _ _ Hsg)).
    unfold bind, store_pgi, ret. cbn [with_pgi psc mem_pgi mem_pGlyphProp calls log].
    unfold resolve_glyph. rewrite (find_unique_group gs c j g Hs Hj Hin).
    destruct Hin as [Hi1 Hi2].
    rewrite (Z.mod_small (c - start_char g)) by lia.
    rewrite mod_2_32_2_16. reflexivity.
Qed.

Lemma bsearch_loop_found compar key base size fuel : forall l u p lg,
  bsearch_loop compar key base size fuel l u = Ok (Some p, lg) ->
  exists lc, compar key p = Ok (0, lc).
Proof.
  induction fuel as [|fuel IH]; intros l u p lg H.
  - discriminate.
  - rewrite bsearch_loop_unfold in H.
    destruct (l <? u); [|discriminate].
    apply bindW_inv in H as (c & l1 & l2 & Hc & H & ->).
    destruct (Z.ltb_spec c 0); [eapply IH; exact H|].
    destruct (Z.ltb_spec 0 c); [eapply IH; exact H|].
    apply Ok_pair_inj in H as [H _]. injection H as <-.
    assert (c = 0) by lia. subst c. exists l1. exact Hc.
Qed.

(** C2. For a codepoint below [0x10000] the lookup is the external BMP
    lookup for that character: it returns that call's return value, the glyph
    index is whatever that call stores to [*pgi], no [GetFontData] call is
    issued and the cache is left as it was. *)
Theorem OpenType_CMAP_GetGlyphIndex_BMP hdc c flags s :
  0 <= c < 0x10000 ->
  OpenType_CMAP_GetGlyphIndex hdc c flags s = GetGlyphIndicesW hdc c flags s /\
  exists s',
    OpenType_CMAP_GetGlyphIndex hdc c flags s =
      Ok (fst (glyph_indices hdc c flags), s') /\
    psc s' = psc s /\ log s' = log s /\
    mem_pGlyphProp s' = mem_pGlyphProp s /\
    calls s' = calls s ++ [Call_GetGlyphIndicesW c flags] /\
    mem_pgi s' = match snd (glyph_indices hdc c flags) with
                 | Some g => g
                 | None => mem_pgi s
                 end.
Proof.
  intros Hc. unfold OpenType_CMAP_GetGlyphIndex.
  assert ((c <? 0x10000) = true) as -> by lia.
  rewrite Z.mod_small by lia. split; [reflexivity|].
  unfold GetGlyphIndicesW, bind, record_call.
  destruct (glyph_indices hdc c flags) as [r [g|]]; cbn;
    eexists; repeat split.
Qed.

Lemma OpenType_CMAP_GetGlyphIndex_BMP_witness :
  OpenType_CMAP_GetGlyphIndex (hdc_of (Some (cmap_bytes [g1])) None) 0x41 0 (fresh 0)
  = GetGlyphIndicesW (hdc_of (Some (cmap_bytes [g1])) None) 0x41 0 (fresh 0).
Proof.
  apply (OpenType_CMAP_GetGlyphIndex_BMP
           (hdc_of (Some (cmap_bytes [g1])) None) 0x41 0 (fresh 0)).
  lia.
Defined.

(** C1 (amended). For a codepoint [c >= 0x10000] resolved against a cached
    format-12 view whose groups [gs] are sorted and non-overlapping: the
    comparator orders [c] before a group when [c < start_char], after it
    when [c > end_char], and matches otherwise; the function returns [0] and
    stores [resolve_glyph gs c flags] to [*pgi], which for the group [g]
    holding [c] is [start_glyph g + (c - start_char g)] reduced modulo
    [2^16] (the sum itself whenever it is below [0x10000]), and is the
    not-found sentinel ([0xFFFF] when [GGI_MARK_NONEXISTING_GLYPHS] is set,
    [0] otherwise) when no group holds [c]. *)
Theorem OpenType_CMAP_GetGlyphIndex_format12 hdc c flags s format gs :
  CMAP_format12_Table (psc s) = Some format ->
  CmapFormat12View format = Ok (gs, []) ->
  groups_sorted gs = true ->
  0x10000 <= c < 2 ^ 32 ->
  (forall p g, read_group p = Ok (g, []) ->
     compare_group c p =
     retW (if c <? start_char g then -1
           else if end_char g <? c then 1 else 0)) /\
  OpenType_CMAP_GetGlyphIndex hdc c flags s =
    Ok (0, with_pgi (resolve_glyph gs c flags) s) /\
  (forall g, In g gs -> in_group c g ->
     resolve_glyph gs c flags = (start_glyph g + (c - start_char g)) mod 2 ^ 16 /\
     (start_glyph g + (c - start_char g) < 0x10000 ->
      resolve_glyph gs c flags = start_glyph g + (c - start_char g))) /\
  ((forall g, In g gs -> ~ in_group c g) ->
     resolve_glyph gs c flags = not_found flags) /\
  not_found flags =
    (if Z.land flags GGI_MARK_NONEXISTING_GLYPHS =? 0 then 0 else 0xffff).
Proof.
  intros Hf Hview Hs Hc.
  split; [intros p g Hp; apply compare_group_spec; exact Hp|].
  split; [apply (CMAP_lookup_cached hdc c flags s format gs); assumption|].
  split; [|split; [|reflexivity]].
  - intros g Hin Hg. apply In_nth_error in Hin as [j Hj].
    unfold resolve_glyph. rewrite (find_unique_group gs c j g Hs Hj Hg).
    split; [reflexivity|]. intros Hsmall.
    unfold CmapFormat12View in Hview.
    remember (@nil msg) as l0 in Hview. clear Heql0.
    inv_dword Hview nGroups Hn.
    apply read_groups_spec in Hview as [_ Hnth].
    destruct (read_group_fields _ _ _ (Hnth j g Hj)) as (_ & _ & _ & _ & Hr).
    destruct Hg as [Hg1 Hg2]. apply Z.mod_small. lia.
  - intros Hnone. unfold resolve_glyph. rewrite (find_no_group _ _ Hnone).
    reflexivity.
Qed.

(** The spec's view [{start=0x10000, end=0x10002, start_glyph=5}], cached. *)
Lemma OpenType_CMAP_GetGlyphIndex_format12_witness :
  let t := table_of (cmap_bytes [g1]) in
  let s := with_cache {| GDEF_Table := None; CMAP_Table := Some t;
                         CMAP_format12_Table := Some (t +p 12) |} (fresh 0) in
  OpenType_CMAP_GetGlyphIndex (hdc_of None None) 0x10001 0 s
  = Ok (0, with_pgi 6 s).
Proof.
  intros t s.
  destruct (OpenType_CMAP_GetGlyphIndex_format12 (hdc_of None None) 0x10001 0 s
              (t +p 12) [g1]) as (_ & H & _).
  - reflexivity.
  - vm_compute. reflexivity.
  - reflexivity.
  - lia.
  - exact H.
Defined.

(** The spec's example, from a fresh context: the table is fetched by the
    first lookup. *)
Example resolve_glyph_example :
  let hdc := hdc_of (Some (cmap_bytes [g1])) None in
  let pgi c flags :=
    match OpenType_CMAP_GetGlyphIndex hdc c flags (fresh 0) with
    | Ok (r, s') => Some (r, mem_pgi s')
    | Fault _ => None
    end in
  pgi 0x10000 0 = Some (0, 5) /\ pgi 0x10001 0 = Some (0, 6) /\
  pgi 0x10002 0 = Some (0, 7) /\ pgi 0x10003 0 = Some (0, 0) /\
  pgi 0x10003 GGI_MARK_NONEXISTING_GLYPHS = Some (0, 0xffff).
Proof. vm_compute. repeat split; reflexivity. Qed.

(** C1 as stated fails where [start_glyph + (c - start_char)] does not fit
    the 16-bit [*pgi]: against the one-group view
    [{start=0x10000, end=0x10000, start_glyph=0x10005}] the codepoint
    [0x10000] matches the group and the glyph index stored is [5], not
    [0x10005]. *)
Lemma glyph_index_is_truncated :
  let g := {| start_char := 0x10000; end_char := 0x10000;
              start_glyph := 0x10005 |} in
  let t := table_of (cmap_bytes [g]) in
  let s := with_cache {| GDEF_Table := None; CMAP_Table := Some t;
                         CMAP_format12_Table := Some (t +p 12) |} (fresh 0) in
  CmapFormat12View (t +p 12) = Ok ([g], []) /\
  groups_sorted [g] = true /\
  in_group 0x10000 g /\
  exists s',
    OpenType_CMAP_GetGlyphIndex (hdc_of None None) 0x10000 0 s = Ok (0, s') /\
    mem_pgi s' = 5 /\
    mem_pgi s' <> start_glyph g + (0x10000 - start_char g).
Proof.
  cbv zeta. split; [vm_compute; reflexivity|]. split; [reflexivity|].
  split; [unfold in_group; cbn; lia|].
  eexists. split; [vm_compute; reflexivity|]. split; [reflexivity|].
  cbn. lia.
Qed.

(** C10. For a codepoint [c >= 0x10000] the function result is always [0],
    and [*pgi] is always written: whenever the function returns, [*pgi] holds
    the not-found sentinel, or, a group having compared equal in the search,
    the low 16 bits of [startGlyphID + (c - startCharCode)] of that group.
    It returns [0] with the sentinel when no cmap table can be fetched,
    and [0] with the value resolved against the view when the view is
    cached and well-formed. *)
Theorem OpenType_CMAP_GetGlyphIndex_returns_0 :
  (forall hdc c flags s r s',
     0x10000 <= c ->
     OpenType_CMAP_GetGlyphIndex hdc c flags s = Ok (r, s') ->
     r = 0 /\
     (mem_pgi s' = not_found flags \/
      exists group startCharCode startGlyphID lc,
        compare_group c group = Ok (0, lc) /\
        be_dword group CMAP_SegmentedCoverage_group.startCharCode
          = Ok (startCharCode, []) /\
        be_dword group CMAP_SegmentedCoverage_group.startGlyphID
          = Ok (startGlyphID, []) /\
        mem_pgi s' =
          ((startGlyphID + (c - startCharCode) mod 2 ^ 32) mod 2 ^ 32) mod 2 ^ 16)) /\
  (forall hdc c flags s,
     0x10000 <= c ->
     CMAP_format12_Table (psc s) = None -> CMAP_Table (psc s) = None ->
     font_data hdc (List.length (calls s)) CMAP_TAG = None ->
     exists s',
       OpenType_CMAP_GetGlyphIndex hdc c flags s = Ok (0, s') /\
       mem_pgi s' = not_found flags /\ psc s' = psc s) /\
  (forall hdc c flags s format gs,
     0x10000 <= c < 2 ^ 32 ->
     CMAP_format12_Table (psc s) = Some format ->
     CmapFormat12View format = Ok (gs, []) ->
     groups_sorted gs = true ->
     OpenType_CMAP_GetGlyphIndex hdc c flags s =
     Ok (0, with_pgi (resolve_glyph gs c flags) s)).
Proof.
  split; [|split].
  - intros hdc c flags s r s' Hc H. unfold OpenType_CMAP_GetGlyphIndex in H.
    assert ((c <? 0x10000) = false) as E by lia. rewrite E in H. clear E.
    unfold bind at 1, get at 1 in H.
    apply bind_inv in H as ([] & s1 & _ & H).
    apply bind_inv in H as ([] & s2 & H2 & H).
    rewrite sentinel_store in H2. apply Ok_pair_inj in H2 as [_ <-].
    unfold bind at 1, get at 1 in H.
    destruct (CMAP_format12_Table (psc (with_pgi (not_found flags) s1)))
      as [format|].
    + apply bind_inv in H as (nGroups & s3 & H3 & H).
      apply liftW_inv in H3 as (l3 & _ & ->).
      apply bind_inv in H as (group & s4 & H4 & H).
      apply liftW_inv in H4 as (l4 & H4 & ->).
      destruct group as [group|].
      * apply bind_inv in H as (startCharCode & s5 & H5 & H).
        apply liftW_inv in H5 as (l5 & H5 & ->).
        apply bind_inv in H as (startGlyphID & s6 & H6 & H).
        apply liftW_inv in H6 as (l6 & H6 & ->).
        apply bind_inv in H as ([] & s7 & H7 & H).
        unfold store_pgi in H7. apply Ok_pair_inj in H7 as [_ <-].
        unfold ret in H. apply Ok_pair_inj in H as [<- <-].
        split; [reflexivity|]. right.
        apply bsearch_loop_found in H4 as [lc Hcmp].
        pose proof (be_dword_inv _ _ _ _ H5) as [-> _].
        pose proof (be_dword_inv _ _ _ _ H6) as [-> _].
        exists group, startCharCode, startGlyphID, lc. auto.
      * unfold ret in H. apply Ok_pair_inj in H as [<- <-].
        split; [reflexivity|]. left. reflexivity.
    + unfold ret in H. apply Ok_pair_inj in H as [<- <-].
      split; [reflexivity|]. left. reflexivity.
  - intros hdc c flags s Hc Hf Ht Hfd. unfold OpenType_CMAP_GetGlyphIndex.
    assert ((c <? 0x10000) = false) as -> by lia.
    destruct s as [[gd cm f12] pgi props cl lg]. cbn in Hf, Ht, Hfd. subst cm f12.
    unfold load_CMAP_format12_table, GetFontData_size.
    unfold bind, get, record_call, ret, set_CMAP_format12_Table, set_psc.
    cbn. rewrite Hfd. cbn. rewrite sentinel_store. cbn.
    eexists. repeat split.
  - intros hdc c flags s format gs Hc Hf Hview Hs.
    apply (CMAP_lookup_cached hdc c flags s format gs); assumption.
Qed.

(** No cmap table at all: the sentinel, and the function result [0]. *)
Lemma OpenType_CMAP_GetGlyphIndex_returns_0_witness :
  exists s',
    OpenType_CMAP_GetGlyphIndex (hdc_of None None) 0x10003
      GGI_MARK_NONEXISTING_GLYPHS (fresh 0) = Ok (0, s') /\
    mem_pgi s' = 0xffff.
Proof.
  destruct OpenType_CMAP_GetGlyphIndex_returns_0 as (_ & H & _).
  destruct (H (hdc_of None None) 0x10003 GGI_MARK_NONEXISTING_GLYPHS (fresh 0))
    as (s' & Hrun & Hpgi & _); try reflexivity; [lia|].
  exists s'. split; [exact Hrun | exact Hpgi].
Defined.

(* ================================================================== *)
(** ** Fetching and caching the tables *)

Lemma GetFontData_fill hdc tag len s :
  GetFontData hdc tag
    {| p_blk := {| blk_size := len; blk_data := [] |}; p_ofs := 0 |} len s
  = Ok ((match font_data hdc (List.length (calls s)) tag with
         | Some b => Z.of_nat (List.length (firstn (Z.to_nat len) b))
         | None => GDI_ERROR
         end,
         fetched_table hdc (List.length (calls s)) tag len),
        with_calls (calls s ++
                    [Call_GetFontData tag
                       (Some {| blk_size := len; blk_data := [] |}) len]) s).
Proof.
  unfold GetFontData, fetched_table, bind, get, record_call, ret. cbn.
  destruct (font_data hdc (List.length (calls s)) tag) as [b|]; cbn.
  - rewrite skipn_nil, app_nil_r. reflexivity.
  - reflexivity.
Qed.

Lemma load_gdef_table_absent hdc s :
  font_data hdc (List.length (calls s)) GDEF_TAG = None ->
  load_gdef_table hdc s =
  Ok (None, with_calls (calls s ++ [Call_GetFontData GDEF_TAG None 0]) s).
Proof.
  intros H. unfold load_gdef_table, GetFontData_size, bind, get, record_call, ret.
  cbn. rewrite H. reflexivity.
Qed.

Lemma load_gdef_table_present hdc s b :
  font_data hdc (List.length (calls s)) GDEF_TAG = Some b ->
  Z.of_nat (List.length b) <> GDI_ERROR ->
  load_gdef_table hdc s =
  Ok (Some (fetched_table hdc (S (List.length (calls s))) GDEF_TAG
              (Z.of_nat (List.length b))),
      with_log (log s ++ [TRACE_Loaded_GDEF (Z.of_nat (List.length b))])
        (with_calls (calls s ++ fetch_calls GDEF_TAG (Z.of_nat (List.length b)))
           s)).
Proof.
  intros H Hlen. unfold load_gdef_table.
  assert (Hq : GetFontData_size hdc GDEF_TAG s =
               Ok (Z.of_nat (List.length b),
                   with_calls (calls s ++ [Call_GetFontData GDEF_TAG None 0]) s)).
  { unfold GetFontData_size, bind, get, record_call, ret. cbn. rewrite H.
    reflexivity. }
  rewrite (bind_ok _ _ _ _ _ Hq).
  assert ((Z.of_nat (List.length b) =? GDI_ERROR) = false) as -> by lia.
  cbn [negb]. unfold HeapAlloc at 1. unfold bind at 1, ret at 1.
  rewrite (bind_ok _ _ _ _ _ (GetFontData_fill _ _ _ _)).
  cbn [with_calls calls snd]. rewrite length_app, Nat.add_1_r.
  unfold TRACE, liftW, bind, ret, fetch_calls.
  cbn [with_calls with_log psc mem_pgi mem_pGlyphProp calls log].
  rewrite <- app_assoc. reflexivity.
Qed.

Lemma load_CMAP_format12_table_cached hdc s t :
  CMAP_Table (psc s) = Some t ->
  load_CMAP_format12_table hdc s = liftW (CMAP_find_format12 t) s.
Proof.
  intros H. unfold load_CMAP_format12_table, bind, get. rewrite H. reflexivity.
Qed.

Lemma load_CMAP_format12_table_absent hdc s :
  CMAP_Table (psc s) = None ->
  font_data hdc (List.length (calls s)) CMAP_TAG = None ->
  load_CMAP_format12_table hdc s =
  Ok (None, with_calls (calls s ++ [Call_GetFontData CMAP_TAG None 0]) s).
Proof.
  intros Ht H.
  unfold load_CMAP_format12_table, GetFontData_size, bind, get, record_call, ret.
  rewrite Ht. cbn. rewrite H. reflexivity.
Qed.

Lemma load_CMAP_format12_table_present hdc s b :
  CMAP_Table (psc s) = None ->
  font_data hdc (List.length (calls s)) CMAP_TAG = Some b ->
  Z.of_nat (List.length b) <> GDI_ERROR ->
  let len := Z.of_nat (List.length b) in
  let t := fetched_table hdc (S (List.length (calls s))) CMAP_TAG len in
  load_CMAP_format12_table hdc s =
  liftW (CMAP_find_format12 t)
    (with_log (log s ++ [TRACE_Loaded_cmap len])
       (with_calls (calls s ++ fetch_calls CMAP_TAG len)
          (with_cache {| GDEF_Table := GDEF_Table (psc s);
                         CMAP_Table := Some t;
                         CMAP_format12_Table := CMAP_format12_Table (psc s) |}
             s))).
Proof.
  intros Ht H Hlen len t. unfold load_CMAP_format12_table.
  unfold bind at 1, get at 1. rewrite Ht.
  assert (Hq : GetFontData_size hdc CMAP_TAG s =
               Ok (len, with_calls (calls s ++ [Call_GetFontData CMAP_TAG None 0]) s)).
  { unfold GetFontData_size, bind, get, record_call, ret. cbn. rewrite H.
    reflexivity. }
  rewrite (bind_ok _ _ _ _ _ Hq).
  assert ((len =? GDI_ERROR) = false) as -> by (subst len; lia).
  cbn [negb]. unfold HeapAlloc at 1. unfold bind at 1, ret at 1.
  rewrite (bind_ok _ _ _ _ _ (GetFontData_fill _ _ _ _)).
  cbn [with_calls calls snd]. rewrite length_app, Nat.add_1_r.
  fold t.
  unfold set_CMAP_Table, set_psc, TRACE, bind, get, fetch_calls.
  cbn [liftW with_calls with_log with_cache psc mem_pgi mem_pGlyphProp calls log
       GDEF_Table CMAP_Table CMAP_format12_Table].
  rewrite <- app_assoc. reflexivity.
Qed.

(** The annotator on a context whose GDEF table is cached, and on one where
    it is not. *)
Lemma UpdateGlyphProps_cached hdc pwGlyphs pwLogClust s t cls :
  GDEF_Table (psc s) = Some t ->
  (List.length pwGlyphs <= List.length (mem_pGlyphProp s))%nat ->
  (forall g, In g pwGlyphs ->
     exists l, GDEF_get_glyph_class (Some t) g = Ok (cls g, l)) ->
  exists s',
    OpenType_GDEF_UpdateGlyphProps hdc pwGlyphs (Z.of_nat (List.length pwGlyphs))
      pwLogClust (Z.of_nat (List.length pwLogClust)) s = Ok (tt, s') /\
    psc s' = psc s /\ calls s' = calls s.
Proof.
  intros Ht Hlen Hcls. unfold OpenType_GDEF_UpdateGlyphProps.
  unfold bind at 1, get at 1. rewrite Ht. unfold bind at 1, ret at 1.
  rewrite Nat2Z.id.
  destruct (glyph_loop_ok pwGlyphs pwLogClust cls (List.length pwGlyphs) O s)
    as (s' & Hrun & Hpsc & _ & Hcalls & _); try (cbn; lia).
  - rewrite Ht. exact Hcls.
  - exists s'. auto.
Qed.

Lemma UpdateGlyphProps_uncached hdc pwGlyphs pwLogClust s t s1 cls :
  GDEF_Table (psc s) = None ->
  load_gdef_table hdc s = Ok (t, s1) ->
  (List.length pwGlyphs <= List.length (mem_pGlyphProp s))%nat ->
  (forall g, In g pwGlyphs ->
     exists l, GDEF_get_glyph_class t g = Ok (cls g, l)) ->
  exists s',
    OpenType_GDEF_UpdateGlyphProps hdc pwGlyphs (Z.of_nat (List.length pwGlyphs))
      pwLogClust (Z.of_nat (List.length pwLogClust)) s = Ok (tt, s') /\
    GDEF_Table (psc s') = t /\ calls s' = calls s1.
Proof.
  intros Ht Hload Hlen Hcls. unfold OpenType_GDEF_UpdateGlyphProps.
  unfold bind at 1, get at 1. rewrite Ht.
  rewrite bind_assoc, (bind_ok _ _ _ _ _ Hload).
  unfold set_GDEF_Table, set_psc. unfold bind at 1 2, get at 1.
  rewrite Nat2Z.id.
  destruct (load_gdef_table_total hdc s) as (t' & s1' & Hload' & _ & Hp & _).
  rewrite Hload in Hload'. apply Ok_pair_inj in Hload' as [<- <-].
  match goal with |- context [glyph_loop _ _ _ _ _ ?s0] => set (s2 := s0) end.
  destruct (glyph_loop_ok pwGlyphs pwLogClust cls (List.length pwGlyphs) O s2)
    as (s' & Hrun & Hpsc & _ & Hcalls & _).
  - exact Hcls.
  - cbn. lia.
  - cbn. rewrite Hp. lia.
  - exists s'. split; [exact Hrun|]. rewrite Hpsc, Hcalls. auto.
Qed.

(** C7. Caching is idempotent per tag.  cmap: with the table cached, a
    request only scans the stored table, issues no provider call and leaves
    the cache as it is; the first successful fetch is what puts the table
    there, with the two calls of a fetch.  GDEF: the same for the annotator,
    whose cached table stays the identical one over a call, with no provider
    call. *)
Theorem table_cache_idempotent :
  (forall hdc s t r l,
     CMAP_Table (psc s) = Some t ->
     CMAP_find_format12 t = Ok (r, l) ->
     load_CMAP_format12_table hdc s = Ok (r, with_log (log s ++ l) s)) /\
  (forall hdc s b r l,
     CMAP_Table (psc s) = None ->
     font_data hdc (List.length (calls s)) CMAP_TAG = Some b ->
     Z.of_nat (List.length b) <> GDI_ERROR ->
     CMAP_find_format12
       (fetched_table hdc (S (List.length (calls s))) CMAP_TAG
          (Z.of_nat (List.length b))) = Ok (r, l) ->
     exists s1,
       load_CMAP_format12_table hdc s = Ok (r, s1) /\
       CMAP_Table (psc s1) =
         Some (fetched_table hdc (S (List.length (calls s))) CMAP_TAG
                 (Z.of_nat (List.length b))) /\
       calls s1 = calls s ++ fetch_calls CMAP_TAG (Z.of_nat (List.length b))) /\
  (forall hdc pwGlyphs pwLogClust s t cls,
     GDEF_Table (psc s) = Some t ->
     (List.length pwGlyphs <= List.length (mem_pGlyphProp s))%nat ->
     (forall g, In g pwGlyphs ->
        exists l, GDEF_get_glyph_class (Some t) g = Ok (cls g, l)) ->
     exists s',
       OpenType_GDEF_UpdateGlyphProps hdc pwGlyphs
         (Z.of_nat (List.length pwGlyphs)) pwLogClust
         (Z.of_nat (List.length pwLogClust)) s = Ok (tt, s') /\
       psc s' = psc s /\ calls s' = calls s) /\
  (forall hdc pwGlyphs pwLogClust s b cls,
     GDEF_Table (psc s) = None ->
     font_data hdc (List.length (calls s)) GDEF_TAG = Some b ->
     Z.of_nat (List.length b) <> GDI_ERROR ->
     (List.length pwGlyphs <= List.length (mem_pGlyphProp s))%nat ->
     (forall g, In g pwGlyphs ->
        exists l,
          GDEF_get_glyph_class
            (Some (fetched_table hdc (S (List.length (calls s))) GDEF_TAG
                     (Z.of_nat (List.length b)))) g = Ok (cls g, l)) ->
     exists s',
       OpenType_GDEF_UpdateGlyphProps hdc pwGlyphs
         (Z.of_nat (List.length pwGlyphs)) pwLogClust
         (Z.of_nat (List.length pwLogClust)) s = Ok (tt, s') /\
       GDEF_Table (psc s') =
         Some (fetched_table hdc (S (List.length (calls s))) GDEF_TAG
                 (Z.of_nat (List.length b))) /\
       calls s' = calls s ++ fetch_calls GDEF_TAG (Z.of_nat (List.length b))).
Proof.
  split; [|split; [|split]].
  - intros hdc s t r l Ht Hfind.
    rewrite (load_CMAP_format12_table_cached hdc s t Ht).
    apply liftW_ok. exact Hfind.
  - intros hdc s b r l Ht Hb Hlen Hfind.
    rewrite (load_CMAP_format12_table_present hdc s b Ht Hb Hlen). cbv zeta.
    rewrite (liftW_ok _ _ _ _ Hfind). eexists. split; [reflexivity|].
    split; reflexivity.
  - intros hdc pwGlyphs pwLogClust s t cls Ht Hlen Hcls.
    apply (UpdateGlyphProps_cached hdc pwGlyphs pwLogClust s t cls); assumption.
  - intros hdc pwGlyphs pwLogClust s b cls Ht Hb Hlen Hsz Hcls.
    destruct (UpdateGlyphProps_uncached hdc pwGlyphs pwLogClust s _ _ cls Ht
                (load_gdef_table_present hdc s b Hb Hlen) Hsz Hcls)
      as (s' & Hrun & HT & Hcalls).
    exists s'. split; [exact Hrun|]. split; [exact HT|]. exact Hcalls.
Qed.

(** Two annotator calls in a row on a fresh context: the first fetches the
    GDEF table, the second finds it cached. *)
Lemma table_cache_idempotent_witness :
  let hdc := hdc_of None (Some (gdef1_bytes 10 [1; 3])) in
  exists s1 s2,
    OpenType_GDEF_UpdateGlyphProps hdc [10] 1 [0] 1 (fresh 1) = Ok (tt, s1) /\
    calls s1 = fetch_calls GDEF_TAG 22 /\
    OpenType_GDEF_UpdateGlyphProps hdc [] 0 [] 0 s1 = Ok (tt, s2) /\
    psc s2 = psc s1 /\ calls s2 = calls s1.
Proof.
  intros hdc.
  destruct table_cache_idempotent as (_ & _ & Hcached & Hfirst).
  destruct (Hfirst hdc [10] [0] (fresh 1) (bytes (gdef1_bytes 10 [1; 3]))
              (fun _ => 1)) as (s1 & Hrun1 & HT & Hcalls1).
  - reflexivity.
  - reflexivity.
  - vm_compute. discriminate.
  - cbn. lia.
  - intros g [<-|[]]. vm_compute. eexists. reflexivity.
  - destruct (Hcached hdc [] [] s1 _ (fun _ => 0) HT) as (s2 & Hrun2 & Hpsc & Hcalls2).
    + cbn. lia.
    + intros g [].
    + exists s1, s2. split; [exact Hrun1|]. split; [exact Hcalls1|].
      split; [exact Hrun2|]. split; [exact Hpsc | exact Hcalls2].
Defined.

(** C8 (amended). A failed length query is not cached: the loader stores
    nothing and reports the table absent, having issued that one call, and
    the cache is as empty as before, so that the next request fetches again
    from scratch: it starts with a new length query and, when that one
    succeeds, goes on to fill and scan a fresh buffer. *)
Theorem failed_length_query_not_cached :
  (forall hdc pwGlyphs pwLogClust s,
     GDEF_Table (psc s) = None ->
     font_data hdc (List.length (calls s)) GDEF_TAG = None ->
     (List.length pwGlyphs <= List.length (mem_pGlyphProp s))%nat ->
     exists s',
       OpenType_GDEF_UpdateGlyphProps hdc pwGlyphs
         (Z.of_nat (List.length pwGlyphs)) pwLogClust
         (Z.of_nat (List.length pwLogClust)) s = Ok (tt, s') /\
       GDEF_Table (psc s') = None /\
       calls s' = calls s ++ [Call_GetFontData GDEF_TAG None 0]) /\
  (forall hdc s,
     CMAP_Table (psc s) = None ->
     font_data hdc (List.length (calls s)) CMAP_TAG = None ->
     load_CMAP_format12_table hdc s =
     Ok (None, with_calls (calls s ++ [Call_GetFontData CMAP_TAG None 0]) s)) /\
  (forall hdc s,
     exists t s1 rest,
       load_gdef_table hdc s = Ok (t, s1) /\
       calls s1 = calls s ++ Call_GetFontData GDEF_TAG None 0 :: rest) /\
  (forall hdc s b,
     CMAP_Table (psc s) = None ->
     font_data hdc (List.length (calls s)) CMAP_TAG = Some b ->
     Z.of_nat (List.length b) <> GDI_ERROR ->
     let len := Z.of_nat (List.length b) in
     let t := fetched_table hdc (S (List.length (calls s))) CMAP_TAG len in
     load_CMAP_format12_table hdc s =
     liftW (CMAP_find_format12 t)
       (with_log (log s ++ [TRACE_Loaded_cmap len])
          (with_calls (calls s ++ fetch_calls CMAP_TAG len)
             (with_cache {| GDEF_Table := GDEF_Table (psc s);
                            CMAP_Table := Some t;
                            CMAP_format12_Table := CMAP_format12_Table (psc s) |}
                s)))).
Proof.
  split; [|split; [|split]].
  - intros hdc pwGlyphs pwLogClust s Ht Hfd Hsz.
    destruct (UpdateGlyphProps_uncached hdc pwGlyphs pwLogClust s _ _ (fun _ => 0)
                Ht (load_gdef_table_absent hdc s Hfd) Hsz)
      as (s' & Hrun & HT & Hcalls).
    + intros g _. exists []. reflexivity.
    + exists s'. auto.
  - intros hdc s Ht Hfd. apply load_CMAP_format12_table_absent; assumption.
  - intros hdc s.
    destruct (font_data hdc (List.length (calls s)) GDEF_TAG) as [b|] eqn:E.
    + destruct (Z.eq_dec (Z.of_nat (List.length b)) GDI_ERROR) as [Heq|Hne].
      * exists None, (with_calls (calls s ++ [Call_GetFontData GDEF_TAG None 0]) s), [].
        split; [|reflexivity].
        unfold load_gdef_table, GetFontData_size, bind, get, record_call, ret.
        cbn. rewrite E, Heq. reflexivity.
      * rewrite (load_gdef_table_present hdc s b E Hne).
        eexists _, _, _. split; reflexivity.
    + rewrite (load_gdef_table_absent hdc s E).
      eexists _, _, []. split; reflexivity.
  - intros hdc s b Ht Hb Hlen.
    apply (load_CMAP_format12_table_present hdc s b Ht Hb Hlen).
Qed.

(** A provider whose first call fails: nothing is cached, and the second
    request asks again. *)
Lemma failed_length_query_not_cached_witness :
  let hdc := hdc_failing_first 1 (gdef1_bytes 10 [1; 3]) in
  exists s',
    OpenType_GDEF_UpdateGlyphProps hdc [10] 1 [0] 1 (fresh 1) = Ok (tt, s') /\
    GDEF_Table (psc s') = None /\
    calls s' = [Call_GetFontData GDEF_TAG None 0].
Proof.
  intros hdc.
  destruct failed_length_query_not_cached as (H & _).
  destruct (H hdc [10] [0] (fresh 1)) as (s' & Hrun & HT & Hcalls).
  - reflexivity.
  - reflexivity.
  - cbn. lia.
  - exists s'. split; [exact Hrun|]. split; [exact HT | exact Hcalls].
Defined.

(** C8 as stated fails for the fill call: with a provider whose length query
    succeeds and whose fill fails, the annotator caches a buffer nothing was
    copied to, and the next request finds it cached and issues no call. *)
Lemma failed_fill_is_cached :
  let hdc := hdc_fill_fails (gdef1_bytes 10 [1; 3]) in
  font_data hdc 1%nat GDEF_TAG = None /\
  exists t s1 s2,
    OpenType_GDEF_UpdateGlyphProps hdc [] 0 [] 0 (fresh 0) = Ok (tt, s1) /\
    calls s1 = fetch_calls GDEF_TAG 22 /\
    GDEF_Table (psc s1) = Some t /\ blk_data (p_blk t) = [] /\
    OpenType_GDEF_UpdateGlyphProps hdc [] 0 [] 0 s1 = Ok (tt, s2) /\
    calls s2 = calls s1.
Proof.
  cbv zeta. split; [reflexivity|].
  eexists _, _, _. split; [vm_compute; reflexivity|].
  split; [reflexivity|]. split; [reflexivity|]. split; [reflexivity|].
  split; [vm_compute; reflexivity | reflexivity].
Qed.

(* ================================================================== *)
(** ** Offsets and counts are not checked against the buffer *)

Lemma load_BYTE_oob p off :
  blk_size (p_blk p) <= p_ofs p + off -> load_BYTE p off = Fault OutOfBounds.
Proof.
  intros H. unfold load_BYTE.
  assert ((blk_size (p_blk p) <=? p_ofs p + off) = true) as -> by lia.
  rewrite orb_true_r. reflexivity.
Qed.

Lemma be_word_oob p off :
  blk_size (p_blk p) <= p_ofs p + off -> be_word p off = Fault OutOfBounds.
Proof.
  intros H. unfold be_word, load_WORD. rewrite (load_BYTE_oob p off H).
  reflexivity.
Qed.

Lemma be_dword_oob p off :
  blk_size (p_blk p) <= p_ofs p + off -> be_dword p off = Fault OutOfBounds.
Proof.
  intros H. unfold be_dword, load_DWORD. rewrite (load_BYTE_oob p off H).
  reflexivity.
Qed.

Ltac layout_lia :=
  cbn [ptr_add p_blk p_ofs];
  unfold GDEF_ClassDefFormat1.ClassFormat, GDEF_ClassDefFormat1.ClassValueArray,
    GDEF_ClassDefFormat2.ClassRangeRecord, GDEF_ClassRangeRecord.sizeof,
    GDEF_ClassRangeRecord.Start, CMAP_Header.tables, CMAP_EncodingRecord.sizeof,
    CMAP_EncodingRecord.platformID, CMAP_SegmentedCoverage.format,
    CMAP_SegmentedCoverage.groups, CMAP_SegmentedCoverage_group.sizeof,
    CMAP_SegmentedCoverage_group.startCharCode in *;
  lia.

(** C9 (amended). No offset or count read from a table is checked against
    the length of the fetched buffer; where one leads past the end of the
    buffer the code reads there (out of bounds) instead of treating the
    subtable as absent: a [GlyphClassDef] offset at or past the end, a
    format-1 [GlyphCount] covering a glyph whose class entry lies past the
    end, a non-zero [ClassRangeCount] whose first record lies past the end,
    a non-zero [numTables] whose first encoding record lies past the end, a
    (3, 10) record whose subtable offset lies past the end, and a non-zero
    [nGroups] whose groups lie past the end. *)
Theorem offsets_and_counts_unchecked :
  (forall header glyph offset,
     be_word header GDEF_Header.GlyphClassDef = Ok (offset, []) ->
     offset <> 0 ->
     blk_size (p_blk header) <= p_ofs header + offset ->
     GDEF_get_glyph_class (Some header) glyph = Fault OutOfBounds) /\
  (forall header glyph offset start count,
     be_word header GDEF_Header.GlyphClassDef = Ok (offset, []) ->
     offset <> 0 ->
     be_word (header +p offset) GDEF_ClassDefFormat1.ClassFormat = Ok (1, []) ->
     be_word (header +p offset) GDEF_ClassDefFormat1.StartGlyph = Ok (start, []) ->
     be_word (header +p offset) GDEF_ClassDefFormat1.GlyphCount = Ok (count, []) ->
     start <= glyph -> glyph - start < count ->
     blk_size (p_blk header) <=
       p_ofs header + offset + GDEF_ClassDefFormat1.ClassValueArray
       + 2 * (glyph - start) ->
     GDEF_get_glyph_class (Some header) glyph = Fault OutOfBounds) /\
  (forall header glyph offset top,
     be_word header GDEF_Header.GlyphClassDef = Ok (offset, []) ->
     offset <> 0 ->
     be_word (header +p offset) GDEF_ClassDefFormat2.ClassFormat = Ok (2, []) ->
     be_word (header +p offset) GDEF_ClassDefFormat2.ClassRangeCount = Ok (top, []) ->
     0 < top ->
     blk_size (p_blk header) <=
       p_ofs header + offset + GDEF_ClassDefFormat2.ClassRangeRecord ->
     GDEF_get_glyph_class (Some header) glyph = Fault OutOfBounds) /\
  (forall t numTables,
     be_word t CMAP_Header.numTables = Ok (numTables, []) ->
     0 < numTables ->
     blk_size (p_blk t) <= p_ofs t + CMAP_Header.tables ->
     CMAP_find_format12 t = Fault OutOfBounds) /\
  (forall t numTables offset,
     be_word t CMAP_Header.numTables = Ok (numTables, []) ->
     0 < numTables ->
     be_word t (CMAP_Header.tables + CMAP_EncodingRecord.platformID) = Ok (3, []) ->
     be_word t (CMAP_Header.tables + CMAP_EncodingRecord.encodingID) = Ok (10, []) ->
     be_dword t (CMAP_Header.tables + CMAP_EncodingRecord.offset) = Ok (offset, []) ->
     blk_size (p_blk t) <= p_ofs t + offset ->
     CMAP_find_format12 t = Fault OutOfBounds) /\
  (forall hdc c flags s format nGroups,
     0x10000 <= c ->
     CMAP_format12_Table (psc s) = Some format ->
     be_dword format CMAP_SegmentedCoverage.nGroups = Ok (nGroups, []) ->
     0 < nGroups ->
     blk_size (p_blk format) <= p_ofs format + CMAP_SegmentedCoverage.groups ->
     OpenType_CMAP_GetGlyphIndex hdc c flags s = Fault OutOfBounds).
Proof.
  split; [|split; [|split; [|split; [|split]]]].
  - intros header glyph offset Hoff Hne Hsz. unfold GDEF_get_glyph_class.
    rewrite bind_be_word, Hoff.
    assert ((offset =? 0) = false) as -> by lia. cbv zeta.
    rewrite be_word_oob; [reflexivity|].
    layout_lia.
  - intros header glyph offset start count Hoff Hne Hfmt Hst Hcnt Hge Hlt Hsz.
    unfold GDEF_get_glyph_class. rewrite bind_be_word, Hoff.
    assert ((offset =? 0) = false) as -> by lia. cbv zeta.
    rewrite bind_be_word, Hfmt. cbn [Z.eqb Pos.eqb].
    rewrite bind_be_word, Hst.
    assert ((start <=? glyph) = true) as -> by lia.
    rewrite bind_be_word, Hcnt.
    assert ((glyph - start <? count) = true) as -> by lia.
    apply be_word_oob. layout_lia.
  - intros header glyph offset top Hoff Hne Hfmt Htop Hpos Hsz.
    unfold GDEF_get_glyph_class. rewrite bind_be_word, Hoff.
    assert ((offset =? 0) = false) as -> by lia. cbv zeta.
    change GDEF_ClassDefFormat2.ClassFormat
      with GDEF_ClassDefFormat1.ClassFormat in Hfmt.
    rewrite bind_be_word, Hfmt. cbn [Z.eqb Pos.eqb].
    rewrite bind_be_word, Htop.
    destruct (Z.to_nat top) as [|n] eqn:E; [lia|].
    cbn [ClassRangeRecord_loop]. cbv zeta.
    rewrite be_word_oob; [reflexivity|].
    layout_lia.
  - intros t numTables Hn Hpos Hsz. unfold CMAP_find_format12.
    rewrite bind_be_word, Hn.
    destruct (Z.to_nat numTables) as [|n] eqn:E; [lia|].
    cbn [CMAP_tables_loop]. cbv zeta.
    rewrite be_word_oob; [reflexivity|].
    layout_lia.
  - intros t numTables offset Hn Hpos Hp He Ho Hsz. unfold CMAP_find_format12.
    rewrite bind_be_word, Hn.
    destruct (Z.to_nat numTables) as [|n] eqn:E; [lia|].
    cbn [CMAP_tables_loop]. cbv zeta.
    replace (CMAP_Header.tables + CMAP_EncodingRecord.sizeof * 0)
      with CMAP_Header.tables by reflexivity.
    rewrite bind_be_word, Hp. cbn [Z.eqb Pos.eqb].
    rewrite bind_be_word, He. cbn [Z.eqb Pos.eqb].
    rewrite bind_be_dword, Ho.
    rewrite be_word_oob; [reflexivity|].
    layout_lia.
  - intros hdc c flags s format nGroups Hc Hf Hn Hpos Hsz.
    unfold OpenType_CMAP_GetGlyphIndex.
    assert ((c <? 0x10000) = false) as -> by lia.
    unfold bind at 1, get at 1. rewrite Hf.
    unfold bind at 1, ret at 1.
    rewrite (bind_ok _ _ _ _ _ (sentinel_store flags s)).
    unfold bind at 1, get at 1. cbn [with_pgi psc]. rewrite Hf.
    rewrite (bind_ok _ _ _ _ _ (liftW_quiet _ _ _ Hn)).
    unfold bsearch.
    destruct (Z.to_nat nGroups) as [|n] eqn:E; [lia|].
    rewrite bsearch_loop_unfold.
    assert ((0 <? nGroups) = true) as -> by lia.
    unfold compare_group. rewrite be_dword_oob; [reflexivity|].
    rewrite Z.add_0_l.
    assert (0 <= nGroups / 2) by (apply Z.div_pos; lia).
    layout_lia.
Qed.

(** A GDEF table of 12 bytes whose class-definition offset is [0x100]. *)
Lemma offsets_and_counts_unchecked_witness :
  GDEF_get_glyph_class
    (Some (table_of (be32 0x00010000 ++ be16 0x100 ++ be16 0 ++ be16 0 ++ be16 0)))
    1 = Fault OutOfBounds.
Proof.
  destruct offsets_and_counts_unchecked as (H & _).
  apply (H _ 1 0x100); [vm_compute; reflexivity | lia | vm_compute; discriminate].
Defined.

(** C9 as stated fails: a cmap table of four bytes that announces one
    encoding record, and a format-12 subtable that announces four groups
    and holds one, are read past their end; so is a GDEF table whose
    class-definition offset points past its end. *)
Lemma out_of_bounds_reads :
  OpenType_CMAP_GetGlyphIndex (hdc_of (Some [0; 0; 0; 1]) None) 0x10000 0 (fresh 0)
    = Fault OutOfBounds /\
  OpenType_CMAP_GetGlyphIndex
    (hdc_of (Some (be16 0 ++ be16 1 ++ be16 3 ++ be16 10 ++ be32 12
                   ++ be16 12 ++ be16 0 ++ be32 28 ++ be32 0 ++ be32 4
                   ++ be32 0x10000 ++ be32 0x10002 ++ be32 5)) None)
    0x10000 0 (fresh 0)
    = Fault OutOfBounds /\
  GDEF_get_glyph_class
    (Some (table_of (be32 0x00010000 ++ be16 0x100 ++ be16 0 ++ be16 0 ++ be16 0)))
    1 = Fault OutOfBounds.
Proof. vm_compute. repeat split; reflexivity. Qed.

(* ================================================================== *)
(** * Further properties of the code *)

(** ** The cmap directory scan *)

Lemma read_records_scan t n : forall i recs l,
  read_records t n i = Ok (recs, l) ->
  (forall r, In r recs -> rec_platformID r = 3 -> rec_encodingID r = 10 ->
     exists fmt, be_word (t +p rec_offset r) CMAP_SegmentedCoverage.format
                 = Ok (fmt, [])) ->
  CMAP_tables_loop t n i =
  retW (option_map (fun r => t +p rec_offset r)
          (find (is_format12_record t) recs)).
Proof.
  induction n as [|n IH]; intros i recs l H Hfmt.
  - inj H. reflexivity.
  - cbn [read_records] in H. cbv zeta in H.
    inv_word H p Hp. inv_word H e He. inv_dword H o Ho.
    apply bindW_inv in H as (rest & lr & lr2 & Hr & H & ->).
    inj H.
    assert (Hrest : CMAP_tables_loop t n (i + 1) =
                    retW (option_map (fun r => t +p rec_offset r)
                            (find (is_format12_record t) rest))).
    { apply (IH _ _ _ Hr). intros r Hin. apply Hfmt. right. exact Hin. }
    cbn [CMAP_tables_loop find]. cbv zeta.
    unfold is_format12_record at 1.
    cbn [rec_platformID rec_encodingID rec_offset].
    rewrite bind_be_word, Hp.
    destruct (Z.eqb_spec p 3) as [->|Hp3]; cbn [andb]; [|exact Hrest].
    rewrite bind_be_word, He.
    destruct (Z.eqb_spec e 10) as [->|He10]; cbn [andb]; [|exact Hrest].
    rewrite bind_be_dword, Ho.
    destruct (Hfmt _ (or_introl eq_refl) eq_refl eq_refl) as [fmt Hf].
    cbn [rec_offset] in Hf. rewrite bind_be_word, Hf.
    destruct (fmt =? 12); [reflexivity | exact Hrest].
Qed.

(** X1. The scan of a cmap table whose directory [recs] is readable, the
    subtable of every (3, 10) record having a readable format field, returns
    the subtable of the first (3, 10) record that declares format 12, and no
    subtable when there is no such record: records of other platforms or
    encodings, and (3, 10) records of another format, are passed over. *)
Theorem CMAP_find_format12_first t recs :
  CmapDirectory t = Ok (recs, []) ->
  (forall r, In r recs -> rec_platformID r = 3 -> rec_encodingID r = 10 ->
     exists fmt, be_word (t +p rec_offset r) CMAP_SegmentedCoverage.format
                 = Ok (fmt, [])) ->
  CMAP_find_format12 t =
  retW (option_map (fun r => t +p rec_offset r)
          (find (is_format12_record t) recs)).
Proof.
  intros H Hfmt. unfold CmapDirectory in H.
  remember (@nil msg) as l0 in H. clear Heql0.
  inv_word H n Hn.
  unfold CMAP_find_format12. rewrite bind_be_word, Hn.
  exact (read_records_scan t _ _ _ _ H Hfmt).
Qed.

(** A directory of three records: (3, 1), a (3, 10) record whose subtable
    has format 4, and a (3, 10) record whose subtable has format 12. *)
Lemma CMAP_find_format12_first_witness :
  let t := table_of (be16 0 ++ be16 3
                     ++ be16 3 ++ be16 1 ++ be32 28
                     ++ be16 3 ++ be16 10 ++ be32 28
                     ++ be16 3 ++ be16 10 ++ be32 30
                     ++ be16 4
                     ++ be16 12 ++ be16 0 ++ be32 16 ++ be32 0 ++ be32 0) in
  CMAP_find_format12 t = retW (Some (t +p 30)).
Proof.
  intros t.
  apply (CMAP_find_format12_first t
           [ {| rec_platformID := 3; rec_encodingID := 1; rec_offset := 28 |};
             {| rec_platformID := 3; rec_encodingID := 10; rec_offset := 28 |};
             {| rec_platformID := 3; rec_encodingID := 10; rec_offset := 30 |} ]).
  - vm_compute. reflexivity.
  - intros r [<-|[<-|[<-|[]]]] _ _; vm_compute; eexists; reflexivity.
Defined.

(** Whatever the scan returns points into the table scanned, at a subtable
    whose format field reads 12. *)
Lemma CMAP_tables_loop_sound t n : forall i p l,
  CMAP_tables_loop t n i = Ok (Some p, l) ->
  p_blk p = p_blk t /\
  be_word p CMAP_SegmentedCoverage.format = Ok (12, []).
Proof.
  induction n as [|n IH]; intros i p l H.
  - discriminate.
  - cbn [CMAP_tables_loop] in H. cbv zeta in H.
    inv_word H pid Hpid.
    destruct (pid =? 3); [|exact (IH _ _ _ H)].
    inv_word H eid Heid.
    destruct (eid =? 10); [|exact (IH _ _ _ H)].
    inv_dword H o Ho. inv_word H fmt Hfmt.
    destruct (Z.eqb_spec fmt 12) as [->|Hne]; [|exact (IH _ _ _ H)].
    apply Ok_pair_inj in H as [H _]. injection H as <-.
    split; [reflexivity | exact Hfmt].
Qed.

Lemma CMAP_find_format12_sound t p l :
  CMAP_find_format12 t = Ok (Some p, l) ->
  p_blk p = p_blk t /\
  be_word p CMAP_SegmentedCoverage.format = Ok (12, []).
Proof.
  unfold CMAP_find_format12. intros H. inv_word H n Hn.
  exact (CMAP_tables_loop_sound _ _ _ _ _ H).
Qed.

(** ** Frames: what the two public functions leave alone *)

Lemma GetGlyphIndex_phases hdc c flags :
  0x10000 <= c ->
  OpenType_CMAP_GetGlyphIndex hdc c flags =
  bind (lookup_ensure hdc) (fun _ => lookup_search c flags).
Proof.
  intros Hc. unfold OpenType_CMAP_GetGlyphIndex.
  assert ((c <? 0x10000) = false) as -> by lia. reflexivity.
Qed.

Lemma UpdateGlyphProps_phases hdc pwGlyphs cGlyphs pwLogClust cChars :
  OpenType_GDEF_UpdateGlyphProps hdc pwGlyphs cGlyphs pwLogClust cChars =
  bind (annotate_ensure hdc)
    (fun _ => glyph_loop pwGlyphs pwLogClust cChars (Z.to_nat cGlyphs) 0).
Proof. reflexivity. Qed.

Lemma load_CMAP_format12_table_giant hdc s b :
  CMAP_Table (psc s) = None ->
  font_data hdc (List.length (calls s)) CMAP_TAG = Some b ->
  Z.of_nat (List.length b) = GDI_ERROR ->
  load_CMAP_format12_table hdc s =
  Ok (None, with_calls (calls s ++ [Call_GetFontData CMAP_TAG None 0]) s).
Proof.
  intros Ht H Hlen.
  unfold load_CMAP_format12_table, GetFontData_size, bind, get, record_call, ret.
  rewrite Ht. cbn. rewrite H, Hlen. reflexivity.
Qed.

(** What a call of the cmap loader does to the state, case by case. *)
Lemma load_CMAP_format12_table_inv hdc s r s0 :
  load_CMAP_format12_table hdc s = Ok (r, s0) ->
  (exists t l, CMAP_Table (psc s) = Some t /\
     CMAP_find_format12 t = Ok (r, l) /\ s0 = with_log (log s ++ l) s) \/
  (CMAP_Table (psc s) = None /\ r = None /\
   s0 = with_calls (calls s ++ [Call_GetFontData CMAP_TAG None 0]) s) \/
  (exists (b : list byte) l,
     CMAP_Table (psc s) = None /\
     let len := Z.of_nat (List.length b) in
     let t := fetched_table hdc (S (List.length (calls s))) CMAP_TAG len in
     CMAP_find_format12 t = Ok (r, l) /\
     s0 = with_log ((log s ++ [TRACE_Loaded_cmap len]) ++ l)
            (with_calls (calls s ++ fetch_calls CMAP_TAG len)
               (with_cache {| GDEF_Table := GDEF_Table (psc s);
                              CMAP_Table := Some t;
                              CMAP_format12_Table := CMAP_format12_Table (psc s) |}
                  s))).
Proof.
  intros H. destruct (CMAP_Table (psc s)) as [t|] eqn:Et.
  - left. rewrite (load_CMAP_format12_table_cached hdc s t Et) in H.
    apply liftW_inv in H as (l & Hf & ->). exists t, l. auto.
  - right. destruct (font_data hdc (List.length (calls s)) CMAP_TAG) as [b|] eqn:Eb.
    + destruct (Z.eq_dec (Z.of_nat (List.length b)) GDI_ERROR) as [Heq|Hne].
      * left. rewrite (load_CMAP_format12_table_giant hdc s b Et Eb Heq) in H.
        apply Ok_pair_inj in H as [<- <-]. auto.
      * right. rewrite (load_CMAP_format12_table_present hdc s b Et Eb Hne) in H.
        cbv zeta in H. apply liftW_inv in H as (l & Hf & ->).
        exists b, l. cbv zeta. auto.
    + left. rewrite (load_CMAP_format12_table_absent hdc s Et Eb) in H.
      apply Ok_pair_inj in H as [<- <-]. auto.
Qed.

(** The search phase changes [*pgi] and nothing else, and what it stores
    fits the 16 bits of [*pgi]. *)
Lemma lookup_search_frame c flags s r s' :
  lookup_search c flags s = Ok (r, s') ->
  r = 0 /\ psc s' = psc s /\ calls s' = calls s /\ log s' = log s /\
  mem_pGlyphProp s' = mem_pGlyphProp s /\ 0 <= mem_pgi s' < 2 ^ 16.
Proof.
  unfold lookup_search. intros H.
  apply bind_inv in H as ([] & s2 & H2 & H).
  rewrite sentinel_store in H2. apply Ok_pair_inj in H2 as [_ <-].
  assert (Hsent : 0 <= not_found flags < 2 ^ 16).
  { unfold not_found. destruct (_ =? 0); lia. }
  unfold bind at 1, get at 1 in H.
  destruct (CMAP_format12_Table (psc (with_pgi (not_found flags) s)))
    as [format|].
  - apply bind_inv in H as (nGroups & s3 & H3 & H).
    apply liftW_inv in H3 as (l3 & H3 & ->).
    pose proof (be_dword_inv _ _ _ _ H3) as [-> _].
    apply bind_inv in H as (group & s4 & H4 & H).
    apply liftW_inv in H4 as (l4 & H4 & ->).
    assert (l4 = []) as ->.
    { clear - H4. unfold bsearch in H4.
      revert H4. generalize 0 at 1. generalize nGroups at 2.
      induction (Z.to_nat nGroups) as [|fuel IH]; intros u l0 H4.
      - apply Ok_pair_inj in H4 as [_ <-]. reflexivity.
      - rewrite bsearch_loop_unfold in H4.
        destruct (l0 <? u); [|apply Ok_pair_inj in H4 as [_ <-]; reflexivity].
        apply bindW_inv in H4 as (cmp & l1 & l2 & Hc & H4 & ->).
        assert (l1 = []) as ->.
        { unfold compare_group in Hc. inv_dword Hc sc Hsc.
          destruct (c <? sc); [inj Hc; reflexivity|].
          inv_dword Hc ec Hec. destruct (ec <? c); inj Hc; reflexivity. }
        destruct (cmp <? 0); [exact (IH _ _ H4)|].
        destruct (0 <? cmp); [exact (IH _ _ H4)|].
        apply Ok_pair_inj in H4 as [_ <-]. reflexivity. }
    destruct group as [group|].
    + apply bind_inv in H as (startCharCode & s5 & H5 & H).
      apply liftW_inv in H5 as (l5 & H5 & ->).
      pose proof (be_dword_inv _ _ _ _ H5) as [-> _].
      apply bind_inv in H as (startGlyphID & s6 & H6 & H).
      apply liftW_inv in H6 as (l6 & H6 & ->).
      pose proof (be_dword_inv _ _ _ _ H6) as [-> _].
      apply bind_inv in H as ([] & s7 & H7 & H).
      unfold store_pgi in H7. apply Ok_pair_inj in H7 as [_ <-].
      unfold ret in H. apply Ok_pair_inj in H as [<- <-].
      cbn [with_log with_pgi psc calls log mem_pGlyphProp mem_pgi].
      rewrite !app_nil_r. repeat split; try reflexivity;
        apply Z.mod_pos_bound; lia.
    + unfold ret in H. apply Ok_pair_inj in H as [<- <-].
      cbn [with_log with_pgi psc calls log mem_pGlyphProp mem_pgi].
      rewrite !app_nil_r. repeat split; try reflexivity; lia.
  - unfold ret in H. apply Ok_pair_inj in H as [<- <-].
    cbn [with_pgi psc calls log mem_pGlyphProp mem_pgi].
    repeat split; try reflexivity; lia.
Qed.

(** The ensure phase leaves [*pgi], the property array and the GDEF table
    alone, keeps a cached cmap table, and issues no call but those of one
    cmap fetch, and none when the cmap table or the format-12 pointer is
    cached. *)
Lemma lookup_ensure_frame hdc s s1 :
  lookup_ensure hdc s = Ok (tt, s1) ->
  mem_pgi s1 = mem_pgi s /\ mem_pGlyphProp s1 = mem_pGlyphProp s /\
  GDEF_Table (psc s1) = GDEF_Table (psc s) /\
  (exists extra, calls s1 = calls s ++ extra /\
     (extra = [] \/ extra = [Call_GetFontData CMAP_TAG None 0] \/
      exists len, extra = fetch_calls CMAP_TAG len)) /\
  (forall t, CMAP_Table (psc s) = Some t ->
     CMAP_Table (psc s1) = Some t /\ calls s1 = calls s) /\
  (forall format, CMAP_format12_Table (psc s) = Some format -> s1 = s) /\
  (cache_wf (psc s) -> cache_wf (psc s1)).
Proof.
  unfold lookup_ensure. unfold bind at 1, get at 1. intros H.
  destruct (CMAP_format12_Table (psc s)) as [format|] eqn:Ef.
  - unfold ret in H. apply Ok_pair_inj in H as [_ <-].
    split; [|split; [|split; [|split; [|split; [|split]]]]]; auto.
    exists []. rewrite app_nil_r. auto.
  - apply bind_inv in H as (r & s0 & Hload & H).
    unfold set_CMAP_format12_Table, set_psc, bind, get in H.
    apply Ok_pair_inj in H as [_ <-].
    cbn [psc mem_pgi mem_pGlyphProp calls log GDEF_Table CMAP_Table
         CMAP_format12_Table].
    destruct (load_CMAP_format12_table_inv hdc s r s0 Hload)
      as [(t & l & Ht & Hfind & ->)|[(Ht & -> & ->)|(b & l & Ht & Hx)]].
    + cbn [with_log psc mem_pgi mem_pGlyphProp calls log].
      split; [|split; [|split; [|split; [|split; [|split]]]]]; auto.
      * exists []. rewrite app_nil_r. auto.
      * intros format Hformat. discriminate.
      * intros _ format Hformat. cbn in Hformat. subst r.
        exists t. cbn. split; [exact Ht|].
        exact (CMAP_find_format12_sound _ _ _ Hfind).
    + cbn [with_calls psc mem_pgi mem_pGlyphProp calls log].
      split; [|split; [|split; [|split; [|split; [|split]]]]]; auto.
      * eexists. split; [reflexivity|]. auto.
      * intros t Ht'. congruence.
      * intros format Hformat. discriminate.
      * intros _ format Hformat. discriminate.
    + cbv zeta in Hx. destruct Hx as [Hfind ->].
      cbn [with_log with_calls with_cache psc mem_pgi mem_pGlyphProp calls log
           GDEF_Table CMAP_Table CMAP_format12_Table].
      split; [|split; [|split; [|split; [|split; [|split]]]]]; auto.
      * eexists. split; [reflexivity|]. right. right. eexists. reflexivity.
      * intros t Ht'. congruence.
      * intros format Hformat. discriminate.
      * intros _ format Hformat. cbn in Hformat. subst r.
        eexists. cbn. split; [reflexivity|].
        exact (CMAP_find_format12_sound _ _ _ Hfind).
Qed.

Lemma same_frame_refl s : same_frame s s.
Proof. unfold same_frame. auto. Qed.

Lemma same_frame_trans s1 s2 s3 :
  same_frame s1 s2 -> same_frame s2 s3 -> same_frame s1 s3.
Proof.
  unfold same_frame. intros (A1 & A2 & A3 & A4) (B1 & B2 & B3 & B4).
  repeat split; congruence.
Qed.

Lemma liftW_frame {A} (c : W A) s a s' :
  liftW c s = Ok (a, s') -> same_frame s s'.
Proof.
  intros H. apply liftW_inv in H as (l & _ & ->).
  unfold same_frame. cbn. auto.
Qed.

Lemma update_GlyphProp_frame i f s s' :
  update_GlyphProp i f s = Ok (tt, s') -> same_frame s s'.
Proof.
  unfold update_GlyphProp. destruct (i <? 0); [discriminate|].
  destruct (nth_error (mem_pGlyphProp s) (Z.to_nat i)) as [p|] eqn:E;
    [|discriminate].
  intros H. apply Ok_pair_inj in H as [_ <-]. unfold same_frame. cbn.
  repeat split. apply list_upd_length. apply nth_error_Some. congruence.
Qed.

Lemma set_sva_frame i a b c s s' :
  set_sva i a b c s = Ok (tt, s') -> same_frame s s'.
Proof.
  unfold set_sva. intros H.
  apply bind_inv in H as ([] & s1 & H1 & H).
  apply bind_inv in H as ([] & s2 & H2 & H).
  apply update_GlyphProp_frame in H1, H2, H.
  eauto using same_frame_trans.
Qed.

Lemma glyph_body_frame pwGlyphs pwLogClust cChars i s s' :
  glyph_body pwGlyphs pwLogClust cChars i s = Ok (tt, s') -> same_frame s s'.
Proof.
  unfold glyph_body. intros H.
  apply bind_inv in H as (cc & s1 & H1 & H). apply liftW_frame in H1.
  unfold bind at 1, get at 1 in H.
  apply bind_inv in H as (glyph & s2 & H2 & H). apply liftW_frame in H2.
  apply bind_inv in H as (class & s3 & H3 & H). apply liftW_frame in H3.
  apply bind_inv in H as ([] & s4 & H4 & H).
  assert (F4 : same_frame s3 s4).
  { destruct ((class =? 0) || (class =? BaseGlyph));
      [exact (set_sva_frame _ _ _ _ _ _ H4)|].
    destruct (class =? LigatureGlyph); [exact (set_sva_frame _ _ _ _ _ _ H4)|].
    destruct (class =? MarkGlyph); [exact (set_sva_frame _ _ _ _ _ _ H4)|].
    destruct (class =? ComponentGlyph); [exact (set_sva_frame _ _ _ _ _ _ H4)|].
    apply bind_inv in H4 as ([] & s5 & H5 & H4).
    apply liftW_frame in H5. apply set_sva_frame in H4.
    eauto using same_frame_trans. }
  assert (F5 : same_frame s4 s').
  { destruct (cc =? 0); [exact (update_GlyphProp_frame _ _ _ _ H)|].
    unfold ret in H. apply Ok_pair_inj in H as [_ <-]. apply same_frame_refl. }
  eauto using same_frame_trans.
Qed.

Lemma glyph_loop_frame pwGlyphs pwLogClust cChars n : forall i s s',
  glyph_loop pwGlyphs pwLogClust cChars n i s = Ok (tt, s') -> same_frame s s'.
Proof.
  induction n as [|n IH]; intros i s s' H.
  - unfold glyph_loop, ret in H. apply Ok_pair_inj in H as [_ <-].
    apply same_frame_refl.
  - cbn [glyph_loop] in H. apply bind_inv in H as ([] & s1 & H1 & H).
    apply glyph_body_frame in H1. apply IH in H.
    eauto using same_frame_trans.
Qed.

Lemma annotate_ensure_frame hdc s s1 :
  annotate_ensure hdc s = Ok (tt, s1) ->
  mem_pgi s1 = mem_pgi s /\ mem_pGlyphProp s1 = mem_pGlyphProp s /\
  CMAP_Table (psc s1) = CMAP_Table (psc s) /\
  CMAP_format12_Table (psc s1) = CMAP_format12_Table (psc s) /\
  (exists extra, calls s1 = calls s ++ extra /\
     (extra = [] \/ extra = [Call_GetFontData GDEF_TAG None 0] \/
      exists len, extra = fetch_calls GDEF_TAG len)) /\
  (forall t, GDEF_Table (psc s) = Some t -> s1 = s).
Proof.
  unfold annotate_ensure. unfold bind at 1, get at 1. intros H.
  destruct (GDEF_Table (psc s)) as [t|] eqn:Et.
  - unfold ret in H. apply Ok_pair_inj in H as [_ <-].
    split; [|split; [|split; [|split; [|split]]]]; auto.
    exists []. rewrite app_nil_r. auto.
  - apply bind_inv in H as (r & s0 & Hload & H).
    unfold set_GDEF_Table, set_psc, bind, get in H.
    apply Ok_pair_inj in H as [_ <-].
    cbn [psc mem_pgi mem_pGlyphProp calls log GDEF_Table CMAP_Table
         CMAP_format12_Table].
    destruct (font_data hdc (List.length (calls s)) GDEF_TAG) as [b|] eqn:Eb.
    + destruct (Z.eq_dec (Z.of_nat (List.length b)) GDI_ERROR) as [Heq|Hne].
      * unfold load_gdef_table, GetFontData_size, bind, get, record_call, ret in Hload.
        cbn in Hload. rewrite Eb, Heq in Hload. cbn in Hload.
        apply Ok_pair_inj in Hload as [_ <-]. cbn.
        split; [|split; [|split; [|split; [|split]]]]; auto.
        -- eexists. split; [reflexivity|]. auto.
        -- intros t Ht. discriminate.
      * rewrite (load_gdef_table_present hdc s b Eb Hne) in Hload.
        apply Ok_pair_inj in Hload as [_ <-]. cbn.
        split; [|split; [|split; [|split; [|split]]]]; auto.
        -- eexists. split; [reflexivity|]. right. right. eexists. reflexivity.
        -- intros t Ht. discriminate.
    + rewrite (load_gdef_table_absent hdc s Eb) in Hload.
      apply Ok_pair_inj in Hload as [_ <-]. cbn.
      split; [|split; [|split; [|split; [|split]]]]; auto.
      * eexists. split; [reflexivity|]. auto.
      * intros t Ht. discriminate.
Qed.

(** X2. A lookup of a codepoint of the supplementary planes, whenever it
    returns, has left the GDEF table and the property array alone and has
    stored a value that fits 16 bits to [*pgi]; the calls it issued are those
    of at most one cmap fetch (none, one failed length query, or a length
    query and a fill) and never the BMP lookup; with the cmap table cached
    it issues no call and keeps the table, and with the format-12 pointer
    cached it leaves cache, calls and debug channel as they were. *)
Theorem OpenType_CMAP_GetGlyphIndex_frame hdc c flags s r s' :
  0x10000 <= c ->
  OpenType_CMAP_GetGlyphIndex hdc c flags s = Ok (r, s') ->
  GDEF_Table (psc s') = GDEF_Table (psc s) /\
  mem_pGlyphProp s' = mem_pGlyphProp s /\
  0 <= mem_pgi s' < 2 ^ 16 /\
  (exists extra, calls s' = calls s ++ extra /\
     (extra = [] \/ extra = [Call_GetFontData CMAP_TAG None 0] \/
      exists len, extra = fetch_calls CMAP_TAG len)) /\
  (forall t, CMAP_Table (psc s) = Some t ->
     CMAP_Table (psc s') = Some t /\ calls s' = calls s) /\
  (forall format, CMAP_format12_Table (psc s) = Some format ->
     psc s' = psc s /\ calls s' = calls s /\ log s' = log s).
Proof.
  intros Hc H. rewrite (GetGlyphIndex_phases hdc c flags Hc) in H.
  apply bind_inv in H as ([] & s1 & H1 & H).
  apply lookup_ensure_frame in H1 as (E1 & E2 & E3 & E4 & E5 & E6 & _).
  apply lookup_search_frame in H as (_ & S1 & S2 & S3 & S4 & S5).
  rewrite S1, S2, S3, S4.
  split; [exact E3|]. split; [exact E2|]. split; [exact S5|].
  split; [exact E4|]. split; [exact E5|].
  intros format Hf. rewrite (E6 format Hf). auto.
Qed.

Lemma OpenType_CMAP_GetGlyphIndex_frame_witness :
  match OpenType_CMAP_GetGlyphIndex (hdc_of (Some (cmap_bytes [g1])) None)
          0x10001 0 (fresh 0) with
  | Ok (_, s') =>
      0 <= mem_pgi s' < 2 ^ 16 /\
      exists extra, calls s' = [] ++ extra /\
        (extra = [] \/ extra = [Call_GetFontData CMAP_TAG None 0] \/
         exists len, extra = fetch_calls CMAP_TAG len)
  | Fault _ => False
  end.
Proof.
  destruct (OpenType_CMAP_GetGlyphIndex (hdc_of (Some (cmap_bytes [g1])) None)
              0x10001 0 (fresh 0)) as [[r s']|f] eqn:E.
  - destruct (OpenType_CMAP_GetGlyphIndex_frame _ _ _ _ _ _
                (ltac:(lia) : 0x10000 <= 0x10001) E)
      as (_ & _ & Hpgi & Hcalls & _).
    split; [exact Hpgi | exact Hcalls].
  - vm_compute in E. discriminate.
Defined.

(** X3. The cache stays coherent: from an empty cache on, however the two
    public functions are called, a cached format-12 pointer always points
    into the block of the cached cmap table, at a subtable that declares
    format 12. *)
Theorem cache_wf_invariant :
  cache_wf empty_cache /\
  (forall hdc c flags s r s',
     cache_wf (psc s) ->
     OpenType_CMAP_GetGlyphIndex hdc c flags s = Ok (r, s') ->
     cache_wf (psc s')) /\
  (forall hdc pwGlyphs cGlyphs pwLogClust cChars s s',
     cache_wf (psc s) ->
     OpenType_GDEF_UpdateGlyphProps hdc pwGlyphs cGlyphs pwLogClust cChars s
       = Ok (tt, s') ->
     cache_wf (psc s')).
Proof.
  split; [|split].
  - intros format H. discriminate.
  - intros hdc c flags s r s' Hwf H.
    destruct (Z.ltb_spec c 0x10000) as [Hlt|Hge].
    + unfold OpenType_CMAP_GetGlyphIndex in H.
      assert ((c <? 0x10000) = true) as E by lia. rewrite E in H. clear E.
      unfold GetGlyphIndicesW, bind, record_call, store_pgi, ret in H.
      destruct (glyph_indices hdc (c mod 65536) flags) as [r0 [g|]];
        apply Ok_pair_inj in H as [_ <-]; exact Hwf.
    + rewrite (GetGlyphIndex_phases hdc c flags Hge) in H.
      apply bind_inv in H as ([] & s1 & H1 & H).
      apply lookup_ensure_frame in H1 as (_ & _ & _ & _ & _ & _ & E7).
      apply lookup_search_frame in H as (_ & S1 & _).
      rewrite S1. exact (E7 Hwf).
  - intros hdc pwGlyphs cGlyphs pwLogClust cChars s s' Hwf H.
    rewrite UpdateGlyphProps_phases in H.
    apply bind_inv in H as ([] & s1 & H1 & H).
    apply annotate_ensure_frame in H1 as (_ & _ & E3 & E4 & _).
    apply glyph_loop_frame in H as (F1 & _).
    intros format Hf. rewrite F1, E4 in Hf.
    destruct (Hwf format Hf) as (t & Ht & Hrest).
    exists t. rewrite F1, E3. auto.
Qed.

Lemma cache_wf_invariant_witness :
  match OpenType_CMAP_GetGlyphIndex (hdc_of (Some (cmap_bytes [g1])) None)
          0x10001 0 (fresh 0) with
  | Ok (_, s') => cache_wf (psc s')
  | Fault _ => False
  end.
Proof.
  destruct cache_wf_invariant as (H0 & Hlookup & _).
  destruct (OpenType_CMAP_GetGlyphIndex (hdc_of (Some (cmap_bytes [g1])) None)
              0x10001 0 (fresh 0)) as [[r s']|f] eqn:E.
  - exact (Hlookup _ _ _ (fresh 0) _ _ H0 E).
  - vm_compute in E. discriminate.
Defined.

(** X4. The annotator, whenever it returns, has left [*pgi], the cmap table
    and the format-12 pointer alone and has kept the length of the property
    array; the calls it issued are those of at most one GDEF fetch, and with
    the GDEF table cached it issues none and leaves the whole cache as it
    was. *)
Theorem OpenType_GDEF_UpdateGlyphProps_frame
    hdc pwGlyphs cGlyphs pwLogClust cChars s s' :
  OpenType_GDEF_UpdateGlyphProps hdc pwGlyphs cGlyphs pwLogClust cChars s
    = Ok (tt, s') ->
  mem_pgi s' = mem_pgi s /\
  CMAP_Table (psc s') = CMAP_Table (psc s) /\
  CMAP_format12_Table (psc s') = CMAP_format12_Table (psc s) /\
  List.length (mem_pGlyphProp s') = List.length (mem_pGlyphProp s) /\
  (exists extra, calls s' = calls s ++ extra /\
     (extra = [] \/ extra = [Call_GetFontData GDEF_TAG None 0] \/
      exists len, extra = fetch_calls GDEF_TAG len)) /\
  (forall t, GDEF_Table (psc s) = Some t ->
     psc s' = psc s /\ calls s' = calls s).
Proof.
  intros H. rewrite UpdateGlyphProps_phases in H.
  apply bind_inv in H as ([] & s1 & H1 & H).
  apply annotate_ensure_frame in H1 as (E1 & E2 & E3 & E4 & E5 & E6).
  apply glyph_loop_frame in H as (F1 & F2 & F3 & F4).
  rewrite F1, F2, F3, F4, E2.
  split; [exact E1|]. split; [exact E3|]. split; [exact E4|].
  split; [reflexivity|]. split; [exact E5|].
  intros t Ht. rewrite (E6 t Ht). auto.
Qed.

Lemma OpenType_GDEF_UpdateGlyphProps_frame_witness :
  match OpenType_GDEF_UpdateGlyphProps
          (hdc_of None (Some (gdef1_bytes 10 [1; 3]))) [10; 11] 2 [0; 1] 2
          (fresh 2) with
  | Ok (_, s') => mem_pgi s' = 0xdead /\ List.length (mem_pGlyphProp s') = 2%nat
  | Fault _ => False
  end.
Proof.
  destruct (OpenType_GDEF_UpdateGlyphProps
              (hdc_of None (Some (gdef1_bytes 10 [1; 3]))) [10; 11] 2 [0; 1] 2
              (fresh 2)) as [[[] s']|f] eqn:E.
  - destruct (OpenType_GDEF_UpdateGlyphProps_frame _ _ _ _ _ _ _ E)
      as (Hpgi & _ & _ & Hlen & _).
    split; [exact Hpgi | exact Hlen].
  - vm_compute in E. discriminate.
Defined.

(** ** Lookups from an empty cache, and lookups with no format-12 subtable *)

Lemma lookup_ensure_loaded hdc s r s0 :
  CMAP_format12_Table (psc s) = None ->
  load_CMAP_format12_table hdc s = Ok (r, s0) ->
  lookup_ensure hdc s =
  Ok (tt, with_cache {| GDEF_Table := GDEF_Table (psc s0);
                        CMAP_Table := CMAP_Table (psc s0);
                        CMAP_format12_Table := r |} s0).
Proof.
  intros Hf Hload. unfold lookup_ensure. unfold bind at 1, get at 1.
  rewrite Hf. rewrite (bind_ok _ _ _ _ _ Hload). reflexivity.
Qed.

Lemma lookup_ensure_cached hdc s format :
  CMAP_format12_Table (psc s) = Some format ->
  lookup_ensure hdc s = Ok (tt, s).
Proof.
  intros Hf. unfold lookup_ensure. unfold bind at 1, get at 1.
  rewrite Hf. reflexivity.
Qed.

(** X5. The first lookup of a supplementary-plane codepoint on a context with
    no cmap table cached, the provider having a table whose scan finds a
    well-formed format-12 view [gs]: the function returns [0] with the
    resolved glyph in [*pgi], having issued the two calls of one fetch and
    cached both the table and the format-12 pointer; every later lookup on
    that context, with whatever device context, resolves against the same
    view and changes nothing but [*pgi]. *)
Theorem first_lookup_fetches_then_reuses hdc c flags s b format gs :
  0x10000 <= c < 2 ^ 32 ->
  CMAP_Table (psc s) = None ->
  CMAP_format12_Table (psc s) = None ->
  font_data hdc (List.length (calls s)) CMAP_TAG = Some b ->
  Z.of_nat (List.length b) <> GDI_ERROR ->
  CMAP_find_format12
    (fetched_table hdc (S (List.length (calls s))) CMAP_TAG
       (Z.of_nat (List.length b))) = Ok (Some format, []) ->
  CmapFormat12View format = Ok (gs, []) ->
  groups_sorted gs = true ->
  exists s',
    OpenType_CMAP_GetGlyphIndex hdc c flags s = Ok (0, s') /\
    mem_pgi s' = resolve_glyph gs c flags /\
    CMAP_Table (psc s') =
      Some (fetched_table hdc (S (List.length (calls s))) CMAP_TAG
              (Z.of_nat (List.length b))) /\
    CMAP_format12_Table (psc s') = Some format /\
    calls s' = calls s ++ fetch_calls CMAP_TAG (Z.of_nat (List.length b)) /\
    forall hdc2 c2 flags2,
      0x10000 <= c2 < 2 ^ 32 ->
      OpenType_CMAP_GetGlyphIndex hdc2 c2 flags2 s' =
      Ok (0, with_pgi (resolve_glyph gs c2 flags2) s').
Proof.
  intros Hc Ht Hf Hb Hlen Hfind Hview Hs.
  pose proof (load_CMAP_format12_table_present hdc s b Ht Hb Hlen) as Hload.
  cbv zeta in Hload. rewrite (liftW_quiet _ _ _ Hfind) in Hload.
  pose proof (lookup_ensure_loaded hdc s _ _ Hf Hload) as Hens.
  match type of Hens with _ = Ok (tt, ?x) => set (s1 := x) in * end.
  assert (Hf1 : CMAP_format12_Table (psc s1) = Some format) by reflexivity.
  assert (Hrun : OpenType_CMAP_GetGlyphIndex hdc c flags s =
                 OpenType_CMAP_GetGlyphIndex hdc c flags s1).
  { rewrite (GetGlyphIndex_phases hdc c flags) by lia.
    rewrite (bind_ok _ _ _ _ _ Hens), (bind_ok _ _ _ _ _ (lookup_ensure_cached hdc s1 format Hf1)).
    reflexivity. }
  rewrite Hrun, (CMAP_lookup_cached hdc c flags s1 format gs Hf1 Hview Hs Hc).
  eexists. split; [reflexivity|].
  split; [reflexivity|]. split; [reflexivity|]. split; [reflexivity|].
  split; [reflexivity|].
  intros hdc2 c2 flags2 Hc2.
  rewrite (CMAP_lookup_cached hdc2 c2 flags2 _ format gs); auto.
Qed.

Lemma first_lookup_fetches_then_reuses_witness :
  exists s',
    OpenType_CMAP_GetGlyphIndex (hdc_of (Some (cmap_bytes [g1])) None)
      0x10002 0 (fresh 0) = Ok (0, s') /\
    mem_pgi s' = 7 /\
    calls s' = fetch_calls CMAP_TAG 40 /\
    OpenType_CMAP_GetGlyphIndex (hdc_of None None) 0x10000 0 s' =
      Ok (0, with_pgi 5 s').
Proof.
  destruct (first_lookup_fetches_then_reuses
              (hdc_of (Some (cmap_bytes [g1])) None) 0x10002 0 (fresh 0)
              (bytes (cmap_bytes [g1]))
              (table_of (cmap_bytes [g1]) +p 12) [g1])
    as (s' & Hrun & Hpgi & _ & _ & Hcalls & Hnext);
    try reflexivity; try lia.
  - vm_compute. discriminate.
  - exists s'. split; [exact Hrun|]. split; [exact Hpgi|].
    split; [exact Hcalls|].
    exact (Hnext (hdc_of None None) 0x10000 0 ltac:(lia)).
Defined.

(** X6. With a cmap table cached whose scan finds no format-12 subtable,
    a lookup of a supplementary-plane codepoint returns [0], stores the
    not-found sentinel ([0xFFFF] when [flags] is odd, [0] otherwise: only bit
    0 of [flags] counts) and leaves everything else as it was: no provider
    call is issued, and nothing records that the scan failed, so that the
    next lookup scans the table again. *)
Theorem lookup_without_format12 hdc c flags s t :
  0x10000 <= c ->
  CMAP_Table (psc s) = Some t ->
  CMAP_format12_Table (psc s) = None ->
  CMAP_find_format12 t = Ok (None, []) ->
  OpenType_CMAP_GetGlyphIndex hdc c flags s =
    Ok (0, with_pgi (if Z.odd flags then 0xffff else 0) s).
Proof.
  intros Hc Ht Hf Hfind.
  assert (Hload : load_CMAP_format12_table hdc s = Ok (None, s)).
  { rewrite (load_CMAP_format12_table_cached hdc s t Ht).
    apply liftW_quiet. exact Hfind. }
  rewrite (GetGlyphIndex_phases hdc c flags Hc).
  rewrite (bind_ok _ _ _ _ _ (lookup_ensure_loaded hdc s _ _ Hf Hload)).
  assert (Hsame : with_cache {| GDEF_Table := GDEF_Table (psc s);
                                CMAP_Table := CMAP_Table (psc s);
                                CMAP_format12_Table := None |} s = s).
  { destruct s as [[gd cm f12] pgi props cl lg]. cbn in *. subst f12.
    reflexivity. }
  rewrite Hsame. unfold lookup_search.
  rewrite (bind_ok _ _ _ _ _ (sentinel_store flags s)).
  unfold bind, get. cbn [with_pgi psc]. rewrite Hf.
  unfold ret. do 3 f_equal. unfold not_found, GGI_MARK_NONEXISTING_GLYPHS.
  change 1 with (Z.ones 1). rewrite Z.land_ones by lia.
  change (2 ^ 1) with 2. rewrite Zmod_odd.
  destruct (Z.odd flags); reflexivity.
Qed.

(** A cmap table with a single (3, 1) record. *)
Lemma lookup_without_format12_witness :
  let t := table_of (be16 0 ++ be16 1 ++ be16 3 ++ be16 1 ++ be32 12
                     ++ be16 4 ++ be16 0) in
  let s := with_cache {| GDEF_Table := None; CMAP_Table := Some t;
                         CMAP_format12_Table := None |} (fresh 0) in
  OpenType_CMAP_GetGlyphIndex (hdc_of None None) 0x1F600 3 s
  = Ok (0, with_pgi 0xffff s).
Proof.
  intros t s.
  apply (lookup_without_format12 (hdc_of None None) 0x1F600 3 s t).
  - lia.
  - reflexivity.
  - reflexivity.
  - vm_compute. reflexivity.
Defined.

(** ** More on the annotator *)

Lemma annotate_ensure_run hdc s :
  exists s1,
    annotate_ensure hdc s = Ok (tt, s1) /\
    GDEF_Table (psc s1) = GDEF_Table_for hdc s /\
    mem_pGlyphProp s1 = mem_pGlyphProp s /\
    (forall t, GDEF_Table (psc s) = Some t -> s1 = s).
Proof.
  unfold annotate_ensure, GDEF_Table_for. unfold bind at 1, get at 1.
  destruct (GDEF_Table (psc s)) as [t|] eqn:Et.
  - exists s. unfold ret. repeat split; auto.
  - destruct (load_gdef_table_total hdc s) as (t & s0 & Hload & _ & Hp & _).
    rewrite Hload, (bind_ok _ _ _ _ _ Hload).
    unfold set_GDEF_Table, set_psc, bind, get.
    eexists. split; [reflexivity|]. cbn. repeat split; auto.
    intros t' Ht'. discriminate.
Qed.

(** A run of the annotator whose glyphs all classify. *)
Lemma UpdateGlyphProps_run hdc pwGlyphs pwLogClust s cls :
  (List.length pwGlyphs <= List.length (mem_pGlyphProp s))%nat ->
  (forall g, In g pwGlyphs ->
     exists l, GDEF_get_glyph_class (GDEF_Table_for hdc s) g = Ok (cls g, l)) ->
  exists s',
    OpenType_GDEF_UpdateGlyphProps hdc pwGlyphs (Z.of_nat (List.length pwGlyphs))
      pwLogClust (Z.of_nat (List.length pwLogClust)) s = Ok (tt, s') /\
    GDEF_Table (psc s') = GDEF_Table_for hdc s /\
    (forall t, GDEF_Table (psc s) = Some t -> calls s' = calls s) /\
    List.length (mem_pGlyphProp s') = List.length (mem_pGlyphProp s) /\
    (forall i g p,
       nth_error pwGlyphs i = Some g ->
       nth_error (mem_pGlyphProp s) i = Some p ->
       nth_error (mem_pGlyphProp s') i =
       Some (annotated (cls g) (count_eq pwLogClust (Z.of_nat i)) p)) /\
    (forall i, (List.length pwGlyphs <= i)%nat ->
       nth_error (mem_pGlyphProp s') i = nth_error (mem_pGlyphProp s) i).
Proof.
  intros Hlen Hcls. rewrite UpdateGlyphProps_phases, Nat2Z.id.
  destruct (annotate_ensure_run hdc s) as (s1 & Hens & HT & Hp & Hsame).
  rewrite (bind_ok _ _ _ _ _ Hens).
  destruct (glyph_loop_ok pwGlyphs pwLogClust cls (List.length pwGlyphs) O s1)
    as (s' & Hrun & Hpsc & _ & Hcalls & Hl & Hin & Hout).
  - rewrite HT. exact Hcls.
  - lia.
  - rewrite Hp. lia.
  - exists s'. rewrite Hp in *. split; [exact Hrun|].
    split; [rewrite Hpsc; exact HT|].
    split; [intros t Ht; rewrite Hcalls, (Hsame t Ht); reflexivity|].
    split; [exact Hl|]. split.
    + intros i g p Hg Hpi. apply Hin; try assumption.
      assert (i < List.length pwGlyphs)%nat by (apply nth_error_Some; congruence).
      lia.
    + intros i Hi. apply Hout. lia.
Qed.

Lemma annotated_twice class n p :
  annotated class n (annotated class n p) = annotated class n p.
Proof.
  unfold annotated. destruct (class_flags class) as [[a b] c]. reflexivity.
Qed.

(** X7. Once the annotator has run with a GDEF table (cached before, or
    fetched by that run), running it again with the same arguments issues
    no provider call and leaves the property array exactly as the first run
    left it: the flags depend on the glyphs and the cluster map only, not on
    what the records held. *)
Theorem OpenType_GDEF_UpdateGlyphProps_idempotent
    hdc pwGlyphs pwLogClust s t cls :
  GDEF_Table_for hdc s = Some t ->
  (List.length pwGlyphs <= List.length (mem_pGlyphProp s))%nat ->
  (forall g, In g pwGlyphs ->
     exists l, GDEF_get_glyph_class (Some t) g = Ok (cls g, l)) ->
  exists s1 s2,
    OpenType_GDEF_UpdateGlyphProps hdc pwGlyphs (Z.of_nat (List.length pwGlyphs))
      pwLogClust (Z.of_nat (List.length pwLogClust)) s = Ok (tt, s1) /\
    OpenType_GDEF_UpdateGlyphProps hdc pwGlyphs (Z.of_nat (List.length pwGlyphs))
      pwLogClust (Z.of_nat (List.length pwLogClust)) s1 = Ok (tt, s2) /\
    mem_pGlyphProp s2 = mem_pGlyphProp s1 /\
    calls s2 = calls s1 /\ GDEF_Table (psc s2) = Some t.
Proof.
  intros HT Hlen Hcls.
  destruct (UpdateGlyphProps_run hdc pwGlyphs pwLogClust s cls Hlen)
    as (s1 & Hrun1 & HT1 & _ & Hl1 & Hin1 & Hout1).
  { rewrite HT. exact Hcls. }
  rewrite HT in HT1.
  assert (HT1' : GDEF_Table_for hdc s1 = Some t).
  { unfold GDEF_Table_for. rewrite HT1. reflexivity. }
  destruct (UpdateGlyphProps_run hdc pwGlyphs pwLogClust s1 cls)
    as (s2 & Hrun2 & HT2 & Hc2 & Hl2 & Hin2 & Hout2).
  { rewrite Hl1. exact Hlen. }
  { rewrite HT1'. exact Hcls. }
  exists s1, s2. split; [exact Hrun1|]. split; [exact Hrun2|].
  split; [|split; [exact (Hc2 t HT1) | rewrite HT2; exact HT1']].
  apply nth_error_ext. intros i.
  destruct (Nat.lt_ge_cases i (List.length pwGlyphs)) as [Hi|Hi].
  - destruct (nth_error pwGlyphs i) as [g|] eqn:Eg;
      [|apply nth_error_None in Eg; lia].
    destruct (nth_error (mem_pGlyphProp s) i) as [p|] eqn:Ep;
      [|apply nth_error_None in Ep; lia].
    pose proof (Hin1 i g p Eg Ep) as H1.
    rewrite (Hin2 i g _ Eg H1), H1, annotated_twice. reflexivity.
  - apply Hout2. exact Hi.
Qed.

Lemma OpenType_GDEF_UpdateGlyphProps_idempotent_witness :
  let hdc := hdc_of None (Some (gdef1_bytes 10 [1; 3])) in
  exists s1 s2,
    OpenType_GDEF_UpdateGlyphProps hdc [11; 10] 2 [0; 0] 2 (fresh 2) = Ok (tt, s1) /\
    OpenType_GDEF_UpdateGlyphProps hdc [11; 10] 2 [0; 0] 2 s1 = Ok (tt, s2) /\
    mem_pGlyphProp s2 = mem_pGlyphProp s1 /\ calls s2 = calls s1.
Proof.
  intros hdc.
  destruct (OpenType_GDEF_UpdateGlyphProps_idempotent hdc [11; 10] [0; 0] (fresh 2)
              (table_of (gdef1_bytes 10 [1; 3]))
              (fun g => if g =? 10 then 1 else 3))
    as (s1 & s2 & H1 & H2 & Hp & Hc & _).
  - reflexivity.
  - cbn. lia.
  - intros g [<-|[<-|[]]]; vm_compute; eexists; reflexivity.
  - exists s1, s2. split; [exact H1|]. split; [exact H2|]. split; assumption.
Defined.

(** X8. With no GDEF table (none cached and the fetch fails), the annotator
    classifies nothing: whatever the glyph indices, every glyph of the run
    gets [fDiacritic] and [fZeroWidth] cleared, and starts a cluster exactly
    when some entry of the cluster map points to it; the failure is not
    reported and the cache stays empty. *)
Theorem OpenType_GDEF_UpdateGlyphProps_no_table hdc pwGlyphs pwLogClust s :
  GDEF_Table_for hdc s = None ->
  (List.length pwGlyphs <= List.length (mem_pGlyphProp s))%nat ->
  exists s',
    OpenType_GDEF_UpdateGlyphProps hdc pwGlyphs (Z.of_nat (List.length pwGlyphs))
      pwLogClust (Z.of_nat (List.length pwLogClust)) s = Ok (tt, s') /\
    GDEF_Table (psc s') = None /\
    forall i p,
      (i < List.length pwGlyphs)%nat ->
      nth_error (mem_pGlyphProp s) i = Some p ->
      exists p',
        nth_error (mem_pGlyphProp s') i = Some p' /\
        fClusterStart p' = negb (count_eq pwLogClust (Z.of_nat i) =? 0) /\
        fDiacritic p' = false /\ fZeroWidth p' = false /\
        uJustification p' = uJustification p /\
        fReserved p' = fReserved p /\ fShapeReserved p' = fShapeReserved p /\
        reserved p' = reserved p.
Proof.
  intros HT Hlen.
  destruct (UpdateGlyphProps_run hdc pwGlyphs pwLogClust s (fun _ => 0) Hlen)
    as (s' & Hrun & HT' & _ & _ & Hin & _).
  { intros g _. rewrite HT. exists []. reflexivity. }
  exists s'. split; [exact Hrun|]. split; [congruence|].
  intros i p Hi Hp.
  destruct (nth_error pwGlyphs i) as [g|] eqn:Eg;
    [|apply nth_error_None in Eg; lia].
  eexists. split; [exact (Hin i g p Eg Hp)|].
  unfold annotated, class_flags. cbn.
  destruct (count_eq pwLogClust (Z.of_nat i) =? 0); repeat split.
Qed.

Lemma OpenType_GDEF_UpdateGlyphProps_no_table_witness :
  exists s',
    OpenType_GDEF_UpdateGlyphProps (hdc_of None None) [300; 301] 2 [0; 0] 2
      (fresh 2) = Ok (tt, s') /\
    GDEF_Table (psc s') = None /\
    option_map fClusterStart (nth_error (mem_pGlyphProp s') 0) = Some true /\
    option_map fClusterStart (nth_error (mem_pGlyphProp s') 1) = Some false.
Proof.
  destruct (OpenType_GDEF_UpdateGlyphProps_no_table (hdc_of None None)
              [300; 301] [0; 0] (fresh 2)) as (s' & Hrun & HT & Hp).
  - reflexivity.
  - cbn. lia.
  - exists s'. split; [exact Hrun|]. split; [exact HT|]. split.
    + destruct (Hp 0%nat blank_prop) as (p' & -> & Hcs & _);
        [cbn; lia | reflexivity | exact (f_equal Some Hcs)].
    + destruct (Hp 1%nat blank_prop) as (p' & -> & Hcs & _);
        [cbn; lia | reflexivity | exact (f_equal Some Hcs)].
Defined.

(** X9. An empty run ([cGlyphs = 0]) writes no record and reads neither
    array, whatever [cChars] announces; it still fetches and caches the GDEF
    table when none is cached. *)
Theorem OpenType_GDEF_UpdateGlyphProps_empty_run hdc pwGlyphs pwLogClust cChars s :
  exists s',
    OpenType_GDEF_UpdateGlyphProps hdc pwGlyphs 0 pwLogClust cChars s
      = Ok (tt, s') /\
    mem_pGlyphProp s' = mem_pGlyphProp s /\
    GDEF_Table (psc s') = GDEF_Table_for hdc s /\
    (forall b, GDEF_Table (psc s) = None ->
       font_data hdc (List.length (calls s)) GDEF_TAG = Some b ->
       Z.of_nat (List.length b) <> GDI_ERROR ->
       calls s' = calls s ++ fetch_calls GDEF_TAG (Z.of_nat (List.length b))).
Proof.
  rewrite UpdateGlyphProps_phases.
  destruct (annotate_ensure_run hdc s) as (s1 & Hens & HT & Hp & _).
  rewrite (bind_ok _ _ _ _ _ Hens). exists s1.
  split; [reflexivity|]. split; [exact Hp|]. split; [exact HT|].
  intros b Ht Hb Hlen. unfold annotate_ensure in Hens.
  unfold bind at 1, get at 1 in Hens. rewrite Ht in Hens.
  rewrite (bind_ok _ _ _ _ _ (load_gdef_table_present hdc s b Hb Hlen)) in Hens.
  unfold set_GDEF_Table, set_psc, bind, get in Hens.
  apply Ok_pair_inj in Hens as [_ <-]. reflexivity.
Qed.

Lemma OpenType_GDEF_UpdateGlyphProps_empty_run_witness :
  let hdc := hdc_of None (Some (gdef1_bytes 10 [1; 3])) in
  exists s',
    OpenType_GDEF_UpdateGlyphProps hdc [] 0 [] 7 (fresh 1) = Ok (tt, s') /\
    mem_pGlyphProp s' = [blank_prop] /\
    calls s' = fetch_calls GDEF_TAG 22.
Proof.
  intros hdc.
  destruct (OpenType_GDEF_UpdateGlyphProps_empty_run hdc [] [] 7 (fresh 1))
    as (s' & Hrun & Hp & _ & Hcalls).
  exists s'. split; [exact Hrun|]. split; [exact Hp|].
  apply (Hcalls (bytes (gdef1_bytes 10 [1; 3]))); try reflexivity.
  vm_compute. discriminate.
Defined.

(** ** More on the classifier and on the loads *)

(** X10. In a format-1 class definition a glyph outside
    [StartGlyph, StartGlyph + GlyphCount) is Unclassified without the class
    array being read: below [StartGlyph] not even [GlyphCount] is read, so
    the result holds for a table that ends right after the fields read. *)
Theorem GDEF_format1_outside_range header glyph offset start :
  be_word header GDEF_Header.GlyphClassDef = Ok (offset, []) ->
  offset <> 0 ->
  be_word (header +p offset) GDEF_ClassDefFormat1.ClassFormat = Ok (1, []) ->
  be_word (header +p offset) GDEF_ClassDefFormat1.StartGlyph = Ok (start, []) ->
  (glyph < start -> GDEF_get_glyph_class (Some header) glyph = Ok (0, [])) /\
  (forall count,
     be_word (header +p offset) GDEF_ClassDefFormat1.GlyphCount = Ok (count, []) ->
     start + count <= glyph ->
     GDEF_get_glyph_class (Some header) glyph = Ok (0, [])).
Proof.
  intros Hoff Hne Hfmt Hst.
  split.
  - intros Hlt. unfold GDEF_get_glyph_class. rewrite bind_be_word, Hoff.
    assert ((offset =? 0) = false) as -> by lia. cbv zeta.
    rewrite bind_be_word, Hfmt. cbn [Z.eqb Pos.eqb].
    rewrite bind_be_word, Hst.
    assert ((start <=? glyph) = false) as -> by lia. reflexivity.
  - intros count Hcnt Hge. unfold GDEF_get_glyph_class.
    rewrite bind_be_word, Hoff.
    assert ((offset =? 0) = false) as -> by lia. cbv zeta.
    rewrite bind_be_word, Hfmt. cbn [Z.eqb Pos.eqb].
    rewrite bind_be_word, Hst.
    pose proof (be_word_inv _ _ _ _ Hcnt) as [_ Hr].
    assert ((start <=? glyph) = true) as -> by lia.
    rewrite bind_be_word, Hcnt.
    assert ((glyph - start <? count) = false) as -> by lia. reflexivity.
Qed.

(** A GDEF table cut off after [StartGlyph]: 16 bytes. *)
Lemma GDEF_format1_outside_range_witness :
  GDEF_get_glyph_class
    (Some (table_of (be32 0x00010000 ++ be16 12 ++ be16 0 ++ be16 0 ++ be16 0
                     ++ be16 1 ++ be16 10))) 9 = Ok (0, []).
Proof.
  destruct (GDEF_format1_outside_range
              (table_of (be32 0x00010000 ++ be16 12 ++ be16 0 ++ be16 0 ++ be16 0
                         ++ be16 1 ++ be16 10)) 9 12 10) as [H _].
  - vm_compute. reflexivity.
  - lia.
  - vm_compute. reflexivity.
  - vm_compute. reflexivity.
  - apply H. lia.
Defined.

Lemma ClassRangeRecord_loop_prefix cf2 glyph r m : forall n i rs l,
  read_ranges cf2 m i = Ok (rs, l) ->
  (m <= n)%nat ->
  find (in_rangeb glyph) rs = Some r ->
  ClassRangeRecord_loop cf2 glyph n i = retW (range_class r).
Proof.
  induction m as [|m IH]; intros n i rs l H Hmn Hfind.
  - inj H. discriminate.
  - destruct n as [|n]; [lia|].
    cbn [read_ranges] in H. cbv zeta in H.
    inv_word H s Hs. inv_word H e He. inv_word H c Hc.
    apply bindW_inv in H as (rest & lr & lr2 & Hr & H & ->).
    inj H. cbn [find] in Hfind. unfold in_rangeb at 1 in Hfind.
    cbn [range_start range_end] in Hfind.
    cbn [ClassRangeRecord_loop]. cbv zeta.
    rewrite bind_be_word, Hs.
    destruct (s <=? glyph); cbn [andb] in Hfind.
    + rewrite bind_be_word, He. destruct (glyph <=? e).
      * injection Hfind as <-. exact Hc.
      * apply (IH n (i + 1) rest lr); [exact Hr | lia | exact Hfind].
    + apply (IH n (i + 1) rest lr); [exact Hr | lia | exact Hfind].
Qed.

(** X11. In a format-2 class definition the scan stops at the first range
    holding the glyph: when the first [m] records are readable and one of
    them holds the glyph, the class is that of the first such record, even
    if [ClassRangeCount] announces more records than the table has. *)
Theorem GDEF_format2_stops_at_first_match header glyph offset top m rs r :
  be_word header GDEF_Header.GlyphClassDef = Ok (offset, []) ->
  offset <> 0 ->
  be_word (header +p offset) GDEF_ClassDefFormat2.ClassFormat = Ok (2, []) ->
  be_word (header +p offset) GDEF_ClassDefFormat2.ClassRangeCount = Ok (top, []) ->
  Z.of_nat m <= top ->
  read_ranges (header +p offset) m 0 = Ok (rs, []) ->
  find (in_rangeb glyph) rs = Some r ->
  GDEF_get_glyph_class (Some header) glyph = Ok (range_class r, []).
Proof.
  intros Hoff Hne Hfmt Htop Hm Hrs Hfind. unfold GDEF_get_glyph_class.
  rewrite bind_be_word, Hoff.
  assert ((offset =? 0) = false) as -> by lia. cbv zeta.
  change GDEF_ClassDefFormat2.ClassFormat
    with GDEF_ClassDefFormat1.ClassFormat in Hfmt.
  rewrite bind_be_word, Hfmt. cbn [Z.eqb Pos.eqb].
  rewrite bind_be_word, Htop.
  apply (ClassRangeRecord_loop_prefix _ glyph r m _ 0 rs []); [exact Hrs | lia | exact Hfind].
Qed.

(** A format-2 table that announces 100 ranges and holds one. *)
Lemma GDEF_format2_stops_at_first_match_witness :
  GDEF_get_glyph_class
    (Some (table_of (be32 0x00010000 ++ be16 12 ++ be16 0 ++ be16 0 ++ be16 0
                     ++ be16 2 ++ be16 100
                     ++ be16 5 ++ be16 7 ++ be16 3))) 6 = Ok (MarkGlyph, []).
Proof.
  apply (GDEF_format2_stops_at_first_match _ 6 12 100 1
           [ {| range_start := 5; range_end := 7; range_class := 3 |} ]
           {| range_start := 5; range_end := 7; range_class := 3 |}).
  - vm_compute. reflexivity.
  - lia.
  - vm_compute. reflexivity.
  - vm_compute. reflexivity.
  - lia.
  - vm_compute. reflexivity.
  - reflexivity.
Defined.

Lemma ClassRangeRecord_loop_quiet cf2 glyph n : forall i c l,
  ClassRangeRecord_loop cf2 glyph n i = Ok (c, l) ->
  l = [] /\ 0 <= c < 65536.
Proof.
  induction n as [|n IH]; intros i c l H.
  - inj H. split; [reflexivity | lia].
  - cbn [ClassRangeRecord_loop] in H. cbv zeta in H.
    inv_word H s Hs. destruct (s <=? glyph); [|exact (IH _ _ _ H)].
    inv_word H e He. destruct (glyph <=? e); [|exact (IH _ _ _ H)].
    exact (be_word_inv _ _ _ _ H).
Qed.

(** X12. Whatever the table holds, a class the classifier returns fits the
    [WORD] it is returned in, and the classifier writes nothing to the debug
    channel except for a class format other than 1 and 2, where it reports
    that format once and returns [0]. *)
Theorem GDEF_get_glyph_class_result header glyph class l :
  GDEF_get_glyph_class header glyph = Ok (class, l) ->
  0 <= class < 65536 /\
  (l = [] \/
   exists fmt, l = [ERR_Unknown_Class_Format fmt] /\ class = 0 /\
               fmt <> 1 /\ fmt <> 2).
Proof.
  unfold GDEF_get_glyph_class. intros H.
  destruct header as [header|]; [|inj H; split; [lia | auto]].
  inv_word H offset Hoff.
  destruct (offset =? 0); [inj H; split; [lia | auto]|].
  cbv zeta in H. inv_word H fmt Hfmt.
  destruct (Z.eqb_spec fmt 1) as [->|H1].
  - inv_word H start Hst.
    destruct (start <=? glyph); [|inj H; split; [lia | auto]].
    inv_word H count Hcnt.
    destruct (glyph - start <? count); [|inj H; split; [lia | auto]].
    apply be_word_inv in H as [-> Hr]. auto.
  - destruct (Z.eqb_spec fmt 2) as [->|H2].
    + inv_word H top Htop.
      apply ClassRangeRecord_loop_quiet in H as [-> Hr]. auto.
    + apply bindW_inv in H as ([] & la & lb & Ha & H & ->).
      unfold ERR in Ha. apply Ok_pair_inj in Ha as [_ <-]. inj H.
      split; [lia|]. right. exists fmt. auto.
Qed.

Lemma GDEF_get_glyph_class_result_witness :
  match GDEF_get_glyph_class
          (Some (table_of (gdef1_bytes 10 [BaseGlyph; 0xffff]))) 11 with
  | Ok (class, l) => 0 <= class < 65536 /\ l = []
  | Fault _ => False
  end.
Proof.
  destruct (GDEF_get_glyph_class
              (Some (table_of (gdef1_bytes 10 [BaseGlyph; 0xffff]))) 11)
    as [[class l]|f] eqn:E.
  - split; [exact (proj1 (GDEF_get_glyph_class_result _ _ _ _ E))|].
    vm_compute in E. injection E as _ <-. reflexivity.
  - vm_compute in E. discriminate.
Defined.

Lemma be_dword_big_endian p off b0 b1 b2 b3 :
  load_BYTE p off = Ok (b0, []) -> load_BYTE p (off + 1) = Ok (b1, []) ->
  load_BYTE p (off + 2) = Ok (b2, []) -> load_BYTE p (off + 3) = Ok (b3, []) ->
  be_dword p off = Ok (b0 * 16777216 + b1 * 65536 + b2 * 256 + b3, []).
Proof.
  intros H0 H1 H2 H3. unfold be_dword, load_DWORD.
  rewrite (bindW_quiet _ _ _ H0), (bindW_quiet _ _ _ H1),
    (bindW_quiet _ _ _ H2), (bindW_quiet _ _ _ H3).
  apply load_BYTE_inv in H0 as [_ ?], H1 as [_ ?], H2 as [_ ?], H3 as [_ ?].
  rewrite (bindW_quiet _ _ (b0 + 256 * b1 + 65536 * b2 + 16777216 * b3) eq_refl).
  unfold retW, GET_BE_DWORD, RtlUlongByteSwap. do 2 f_equal.
  assert (E0 : (b0 + 256 * b1 + 65536 * b2 + 16777216 * b3) mod 256 = b0).
  { replace (b0 + 256 * b1 + 65536 * b2 + 16777216 * b3)
      with (b0 + (b1 + 256 * b2 + 65536 * b3) * 256) by lia.
    rewrite Z.mod_add by lia. apply Z.mod_small. lia. }
  assert (E1 : (b0 + 256 * b1 + 65536 * b2 + 16777216 * b3) / 256
               = b1 + 256 * b2 + 65536 * b3).
  { replace (b0 + 256 * b1 + 65536 * b2 + 16777216 * b3)
      with (b0 + (b1 + 256 * b2 + 65536 * b3) * 256) by lia.
    rewrite Z.div_add by lia. rewrite Z.div_small by lia. lia. }
  assert (E2 : (b0 + 256 * b1 + 65536 * b2 + 16777216 * b3) / 65536
               = b2 + 256 * b3).
  { replace (b0 + 256 * b1 + 65536 * b2 + 16777216 * b3)
      with ((b0 + 256 * b1) + (b2 + 256 * b3) * 65536) by lia.
    rewrite Z.div_add by lia. rewrite Z.div_small by lia. lia. }
  assert (E3 : (b0 + 256 * b1 + 65536 * b2 + 16777216 * b3) / 16777216 = b3).
  { replace (b0 + 256 * b1 + 65536 * b2 + 16777216 * b3)
      with ((b0 + 256 * b1 + 65536 * b2) + b3 * 16777216) by lia.
    rewrite Z.div_add by lia. rewrite Z.div_small by lia. lia. }
  rewrite E0, E1, E2, E3.
  replace (b1 + 256 * b2 + 65536 * b3) with (b1 + (b2 + 256 * b3) * 256) by lia.
  rewrite Z.mod_add by lia. rewrite (Z.mod_small b1) by lia.
  replace (b2 + 256 * b3) with (b2 + b3 * 256) by lia.
  rewrite Z.mod_add by lia. rewrite (Z.mod_small b2), (Z.mod_small b3) by lia.
  reflexivity.
Qed.

(** X13. Fields are read big-endian: on the little-endian host, where
    [GET_BE_WORD] and [GET_BE_DWORD] swap the bytes of what was loaded, a
    16-bit field whose bytes in the table are [b0 b1] reads [b0 * 256 + b1]
    and a 32-bit field whose bytes are [b0 b1 b2 b3] reads
    [b0 * 2^24 + b1 * 2^16 + b2 * 2^8 + b3]. *)
Theorem GET_BE_reads_big_endian p off b0 b1 b2 b3 :
  load_BYTE p off = Ok (b0, []) -> load_BYTE p (off + 1) = Ok (b1, []) ->
  (be_word p off = Ok (b0 * 256 + b1, [])) /\
  (load_BYTE p (off + 2) = Ok (b2, []) -> load_BYTE p (off + 3) = Ok (b3, []) ->
   be_dword p off = Ok (b0 * 2 ^ 24 + b1 * 2 ^ 16 + b2 * 2 ^ 8 + b3, [])).
Proof.
  intros H0 H1. split.
  - apply be_word_big_endian; assumption.
  - intros H2 H3. apply be_dword_big_endian; assumption.
Qed.

Lemma GET_BE_reads_big_endian_witness :
  be_dword (table_of [0x12; 0x34; 0x56; 0x78]) 0 = Ok (0x12345678, []).
Proof.
  destruct (GET_BE_reads_big_endian (table_of [0x12; 0x34; 0x56; 0x78]) 0
              0x12 0x34 0x56 0x78 eq_refl eq_refl) as [_ H].
  exact (H eq_refl eq_refl).
Defined.

(* ================================================================== *)
(** * dbghelp: properties of the module list *)

Module DbghelpProps.
Import Dbghelp.

Lemma DbgModuleType_eqb_eq a b : DbgModuleType_eqb a b = true <-> a = b.
Proof. destruct a, b; cbn; split; congruence. Qed.

(** What the address loop returns: the first match of the list. *)
Lemma find_by_addr_loop_spec l addr ty :
  match find_by_addr_loop l addr ty with
  | Some m =>
      exists pre post, l = pre ++ m :: post /\ addr_match addr ty m /\
        forall x, In x pre -> ~ addr_match addr ty x
  | None => forall x, In x l -> ~ addr_match addr ty x
  end.
Proof.
  induction l as [|m l IH]; cbn [find_by_addr_loop].
  - intros x [].
  - destruct (DbgModuleType_eqb ty (type m) && (BaseOfImage (module m) <=? addr)
              && (addr <? image_end m)) eqn:E.
    + exists [], l. split; [reflexivity|]. split; [|intros x []].
      apply andb_prop in E as [E E3]. apply andb_prop in E as [E1 E2].
      apply DbgModuleType_eqb_eq in E1. unfold addr_match, in_image.
      split; [congruence | lia].
    + assert (Hm : ~ addr_match addr ty m).
      { unfold addr_match, in_image. intros [Ht [H1 H2]].
        assert (DbgModuleType_eqb ty (type m) = true)
          by (apply DbgModuleType_eqb_eq; congruence).
        rewrite H in E. cbn in E.
        apply andb_false_iff in E as [E|E]; lia. }
      destruct (find_by_addr_loop l addr ty) as [m'|].
      * destruct IH as (pre & post & -> & Hmatch & Hpre).
        exists (m :: pre), post. split; [reflexivity|]. split; [exact Hmatch|].
        intros x [<-|Hx]; auto.
      * intros x [<-|Hx]; auto.
Qed.

Lemma find_by_addr_loop_some l addr ty x :
  In x l -> addr_match addr ty x ->
  exists m, find_by_addr_loop l addr ty = Some m.
Proof.
  intros Hin Hx. pose proof (find_by_addr_loop_spec l addr ty) as H.
  destruct (find_by_addr_loop l addr ty) as [m|]; [eauto|].
  exfalso. exact (H x Hin Hx).
Qed.

(** X14. A search by address for a type other than [DMT_UNKNOWN] yields the
    first module of the list, in list order, that has the type and whose
    image [BaseOfImage, BaseOfImage + ImageSize) holds the address, and
    leaves the state as it was; when no module matches it yields the null
    pointer and sets the last error to [ERROR_INVALID_ADDRESS]. *)
Theorem module_find_by_addr_typed_spec s addr ty :
  ty <> DMT_UNKNOWN ->
  match module_find_by_addr s addr ty with
  | (Some m, s') =>
      s' = s /\
      exists pre post, lmodules s = pre ++ m :: post /\
        addr_match addr ty m /\
        forall x, In x pre -> ~ addr_match addr ty x
  | (None, s') =>
      s' = SetLastError ERROR_INVALID_ADDRESS s /\
      forall x, In x (lmodules s) -> ~ addr_match addr ty x
  end.
Proof.
  intros Hty.
  assert (E : module_find_by_addr s addr ty = module_find_by_addr_typed s addr ty)
    by (destruct ty; [contradiction | reflexivity | reflexivity]).
  rewrite E. unfold module_find_by_addr_typed.
  pose proof (find_by_addr_loop_spec (lmodules s) addr ty) as H.
  destruct (find_by_addr_loop (lmodules s) addr ty) as [m|]; auto.
Qed.

Lemma module_find_by_addr_typed_spec_witness :
  let a := mk_module 100 0x400000 0x1000 DMT_PE 0 [] [] in
  let b := mk_module 200 0x400000 0x2000 DMT_PE 0 [] [] in
  match module_find_by_addr (dbg_init [a; b]) 0x401800 DMT_PE with
  | (Some m, s') => self m = 200 /\ s' = dbg_init [a; b]
  | (None, _) => False
  end.
Proof.
  intros a b.
  pose proof (module_find_by_addr_typed_spec (dbg_init [a; b]) 0x401800 DMT_PE
                ltac:(discriminate)) as H.
  destruct (module_find_by_addr (dbg_init [a; b]) 0x401800 DMT_PE)
    as [[m|] s'] eqn:E.
  - destruct H as [-> _]. vm_compute in E. injection E as <-.
    split; reflexivity.
  - vm_compute in E. discriminate.
Defined.

Lemma module_find_by_addr_typed_loop s addr ty :
  module_find_by_addr_typed s addr ty =
  match find_by_addr_loop (lmodules s) addr ty with
  | Some m => (Some m, s)
  | None => (None, SetLastError ERROR_INVALID_ADDRESS s)
  end.
Proof. reflexivity. Qed.

Lemma find_by_addr_loop_in l addr ty m :
  find_by_addr_loop l addr ty = Some m -> In m l /\ addr_match addr ty m.
Proof.
  intros H. pose proof (find_by_addr_loop_spec l addr ty) as Hs.
  rewrite H in Hs. destruct Hs as (pre & post & -> & Hm & _).
  split; [apply in_elt | exact Hm].
Qed.

(** Whatever the type asked for, a module found is in the list and its
    image holds the address. *)
Lemma module_find_by_addr_sound s addr ty m s' :
  module_find_by_addr s addr ty = (Some m, s') ->
  In m (lmodules s) /\ in_image addr m /\ lmodules s' = lmodules s.
Proof.
  assert (Htyped : forall s0 ty0 m0 s0',
    module_find_by_addr_typed s0 addr ty0 = (Some m0, s0') ->
    In m0 (lmodules s0) /\ in_image addr m0 /\ s0' = s0).
  { intros s0 ty0 m0 s0' H. rewrite module_find_by_addr_typed_loop in H.
    destruct (find_by_addr_loop (lmodules s0) addr ty0) as [x|] eqn:E;
      [|discriminate].
    injection H as <- <-.
    destruct (find_by_addr_loop_in _ _ _ _ E) as [Hin [_ Hm]]. auto. }
  intros H. destruct ty; cbn [module_find_by_addr] in H.
  - rewrite (module_find_by_addr_typed_loop s addr DMT_PE) in H.
    destruct (find_by_addr_loop (lmodules s) addr DMT_PE) as [x|] eqn:EPE.
    + injection H as <- <-.
      destruct (find_by_addr_loop_in _ _ _ _ EPE) as [Hin [_ Hm]]. auto.
    + rewrite module_find_by_addr_typed_loop in H.
      cbn [lmodules SetLastError] in H.
      destruct (find_by_addr_loop (lmodules s) addr DMT_ELF) as [x|] eqn:EELF;
        [|discriminate].
      injection H as <- <-.
      destruct (find_by_addr_loop_in _ _ _ _ EELF) as [Hin [_ Hm]].
      split; [exact Hin|]. split; [exact Hm | reflexivity].
  - destruct (Htyped _ _ _ _ H) as (A & B & ->). auto.
  - destruct (Htyped _ _ _ _ H) as (A & B & ->). auto.
Qed.

(** X15. A search by address for [DMT_UNKNOWN] prefers PE modules to ELF
    modules whatever their order in the list: it yields a PE module holding
    the address when there is one, leaving the state untouched; otherwise an
    ELF module holding it when there is one, and then the last error has
    been set to [ERROR_INVALID_ADDRESS] by the failed PE search although the
    call succeeds; otherwise the null pointer, with that last error. *)
Theorem module_find_by_addr_unknown s addr :
  (forall x, In x (lmodules s) -> addr_match addr DMT_PE x ->
     exists m, module_find_by_addr s addr DMT_UNKNOWN = (Some m, s) /\
               addr_match addr DMT_PE m) /\
  ((forall x, In x (lmodules s) -> ~ addr_match addr DMT_PE x) ->
   forall y, In y (lmodules s) -> addr_match addr DMT_ELF y ->
     exists m, module_find_by_addr s addr DMT_UNKNOWN
                 = (Some m, SetLastError ERROR_INVALID_ADDRESS s) /\
               addr_match addr DMT_ELF m) /\
  ((forall x, In x (lmodules s) -> ~ addr_match addr DMT_PE x) ->
   (forall x, In x (lmodules s) -> ~ addr_match addr DMT_ELF x) ->
   module_find_by_addr s addr DMT_UNKNOWN
     = (None, SetLastError ERROR_INVALID_ADDRESS s)).
Proof.
  assert (Hnone : forall ty,
    (forall x, In x (lmodules s) -> ~ addr_match addr ty x) ->
    find_by_addr_loop (lmodules s) addr ty = None).
  { intros ty H. pose proof (find_by_addr_loop_spec (lmodules s) addr ty) as Hs.
    destruct (find_by_addr_loop (lmodules s) addr ty) as [m|]; [|reflexivity].
    destruct Hs as (pre & post & E & Hm & _). exfalso.
    apply (H m); [rewrite E; apply in_elt | exact Hm]. }
  cbn [module_find_by_addr]. rewrite !module_find_by_addr_typed_loop.
  split; [|split].
  - intros x Hin Hx.
    destruct (find_by_addr_loop_some _ _ _ _ Hin Hx) as [m Hm].
    pose proof (find_by_addr_loop_spec (lmodules s) addr DMT_PE) as Hs.
    rewrite Hm in Hs |- *. destruct Hs as (_ & _ & _ & Hmatch & _).
    exists m. auto.
  - intros HnoPE y Hin Hy. rewrite (Hnone _ HnoPE).
    rewrite module_find_by_addr_typed_loop. cbn [lmodules SetLastError].
    destruct (find_by_addr_loop_some _ _ _ _ Hin Hy) as [m Hm].
    pose proof (find_by_addr_loop_spec (lmodules s) addr DMT_ELF) as Hs.
    rewrite Hm in Hs |- *. destruct Hs as (_ & _ & _ & Hmatch & _).
    exists m. auto.
  - intros HnoPE HnoELF. rewrite (Hnone _ HnoPE).
    rewrite module_find_by_addr_typed_loop. cbn [lmodules SetLastError].
    rewrite (Hnone _ HnoELF). reflexivity.
Qed.

(** An ELF module first in the list, a PE module behind it, an address in
    both. *)
Lemma module_find_by_addr_unknown_witness :
  let e := mk_module 100 0x400000 0x10000 DMT_ELF 0 [] [] in
  let p := mk_module 200 0x401000 0x1000 DMT_PE 0 [] [] in
  exists m, module_find_by_addr (dbg_init [e; p]) 0x401800 DMT_UNKNOWN
              = (Some m, dbg_init [e; p]) /\
            addr_match 0x401800 DMT_PE m.
Proof.
  intros e p.
  destruct (module_find_by_addr_unknown (dbg_init [e; p]) 0x401800) as (H & _).
  apply (H p).
  - right. left. reflexivity.
  - split; [reflexivity|]. unfold in_image, image_end. cbn. lia.
Defined.

(** X16. The end of an image is computed in 32 bits: a module whose image
    is empty, or reaches or passes the top of the 32-bit address space
    ([BaseOfImage + ImageSize >= 2^32]), is found by no address, whatever
    the type asked for. *)
Theorem wrapping_image_never_found s m :
  dwords (lmodules s) ->
  In m (lmodules s) ->
  ImageSize (module m) = 0 \/
    2 ^ 32 <= BaseOfImage (module m) + ImageSize (module m) ->
  forall addr ty, fst (module_find_by_addr s addr ty) <> Some m.
Proof.
  intros Hdw Hin Hwrap addr ty H.
  destruct (module_find_by_addr s addr ty) as [r s'] eqn:E. cbn in H. subst r.
  destruct (module_find_by_addr_sound _ _ _ _ _ E) as (_ & [H1 H2] & _).
  destruct (Hdw m Hin) as [Hb Hsz]. unfold image_end in H2.
  destruct Hwrap as [H0|Hw].
  - rewrite H0, Z.add_0_r, Z.mod_small in H2 by lia. lia.
  - assert (Hend : (BaseOfImage (module m) + ImageSize (module m)) mod 2 ^ 32
                   = BaseOfImage (module m) + ImageSize (module m) - 2 ^ 32).
    { symmetry. apply Z.mod_unique with (q := 1); lia. }
    rewrite Hend in H2. lia.
Qed.

(** A module of 64 KiB that ends exactly at the top of the address space. *)
Lemma wrapping_image_never_found_witness :
  let m := mk_module 100 0xFFFF0000 0x10000 DMT_PE 0 [] [] in
  fst (module_find_by_addr (dbg_init [m]) 0xFFFF8000 DMT_PE) <> Some m.
Proof.
  intros m. apply (wrapping_image_never_found (dbg_init [m]) m).
  - intros x [<-|[]]. cbn. lia.
  - left. reflexivity.
  - right. cbn. lia.
Defined.

Lemma unlink_split pre m post :
  ~ In (self m) (map self pre) ->
  unlink (pre ++ m :: post) m = Some (pre ++ post).
Proof.
  induction pre as [|x pre IH]; intros Hn; cbn [unlink app].
  - rewrite Z.eqb_refl. reflexivity.
  - cbn in Hn. destruct (Z.eqb_spec (self x) (self m)) as [E|E].
    + exfalso. apply Hn. left. exact E.
    + rewrite IH; [reflexivity|]. intros H. apply Hn. right. exact H.
Qed.

Lemma unlink_absent l m :
  (forall x, In x l -> self x <> self m) -> unlink l m = None.
Proof.
  induction l as [|x l IH]; intros H; cbn [unlink]; [reflexivity|].
  destruct (Z.eqb_spec (self x) (self m)) as [E|E].
  - exfalso. exact (H x (or_introl eq_refl) E).
  - rewrite IH; [reflexivity|]. intros y Hy. apply H. right. exact Hy.
Qed.

Lemma distinct_split pre m post :
  distinct (pre ++ m :: post) ->
  ~ In (self m) (map self pre) /\ ~ In (self m) (map self post) /\
  distinct (pre ++ post).
Proof.
  unfold distinct. rewrite !map_app. cbn [map]. intros H.
  pose proof (NoDup_remove_1 _ _ _ H) as H1.
  pose proof (NoDup_remove_2 _ _ _ H) as H2.
  rewrite in_app_iff in H2. tauto.
Qed.

Lemma module_remove_split s pre m post :
  lmodules s = pre ++ m :: post -> ~ In (self m) (map self pre) ->
  exists s',
    module_remove s m = (true, s') /\
    lmodules s' = pre ++ post /\
    freed s' = freed s ++ [self m] /\
    LastError s' = LastError s.
Proof.
  intros E Hpre. unfold module_remove. cbn [lmodules debug destroy].
  rewrite E, (unlink_split pre m post Hpre).
  eexists. split; [reflexivity|]. cbn. repeat split; reflexivity.
Qed.

(** X17. Removing a module that is in the list (its structures being at
    distinct addresses) returns [TRUE], unlinks exactly that module and
    keeps the others in their order, frees the structure, and leaves the
    last error alone; afterwards no search by address yields the module, and
    the structures left are still at distinct addresses. *)
Theorem module_remove_unlinks s m :
  distinct (lmodules s) ->
  In m (lmodules s) ->
  exists pre post s',
    lmodules s = pre ++ m :: post /\
    module_remove s m = (true, s') /\
    lmodules s' = pre ++ post /\
    freed s' = freed s ++ [self m] /\
    LastError s' = LastError s /\
    distinct (lmodules s') /\
    (forall x, In x (lmodules s') -> self x <> self m) /\
    (forall addr ty, fst (module_find_by_addr s' addr ty) <> Some m).
Proof.
  intros Hd Hin. apply in_split in Hin as (pre & post & E).
  rewrite E in Hd. destruct (distinct_split _ _ _ Hd) as (Hpre & Hpost & Hd').
  exists pre, post. unfold module_remove. cbn [lmodules debug destroy].
  rewrite E, (unlink_split pre m post Hpre).
  eexists. split; [reflexivity|]. split; [reflexivity|].
  cbn [lmodules HeapFree set_lmodules freed LastError debug destroy].
  split; [reflexivity|]. split; [reflexivity|]. split; [reflexivity|].
  split; [exact Hd'|].
  assert (Hnot : forall x, In x (pre ++ post) -> self x <> self m).
  { intros x Hx Heq. apply in_app_iff in Hx as [Hx|Hx].
    - apply Hpre. rewrite <- Heq. apply in_map. exact Hx.
    - apply Hpost. rewrite <- Heq. apply in_map. exact Hx. }
  split; [exact Hnot|].
  intros addr ty H.
  match type of H with fst (module_find_by_addr ?s0 _ _) = _ =>
    destruct (module_find_by_addr s0 addr ty) as [r s1] eqn:E1 end.
  cbn in H. subst r.
  destruct (module_find_by_addr_sound _ _ _ _ _ E1) as (Hm & _).
  cbn in Hm. exact (Hnot m Hm eq_refl).
Qed.

Lemma module_remove_unlinks_witness :
  let a := mk_module 100 0x400000 0x1000 DMT_PE 0 [] [] in
  let b := mk_module 200 0x500000 0x1000 DMT_ELF 0 [] [] in
  let c := mk_module 300 0x600000 0x1000 DMT_PE 0 [] [] in
  exists s',
    module_remove (dbg_init [a; b; c]) b = (true, s') /\
    lmodules s' = [a; c] /\ freed s' = [200].
Proof.
  intros a b c.
  destruct (module_remove_unlinks (dbg_init [a; b; c]) b)
    as (pre & post & s' & E & Hrm & Hl & Hf & _).
  - unfold distinct. cbn. repeat constructor; cbn; intuition discriminate.
  - right. left. reflexivity.
  - exists s'. split; [exact Hrm|].
    vm_compute in Hrm. injection Hrm as <-. split; reflexivity.
Defined.

(** X18. Removing a module that is not in the list returns [FALSE] and
    leaves the list and the structure alone, but only after the pool, the
    hash tables and the tables of the module have been destroyed; the
    failure is reported on the debug channel. *)
Theorem module_remove_absent s m :
  (forall x, In x (lmodules s) -> self x <> self m) ->
  exists s',
    module_remove s m = (false, s') /\
    lmodules s' = lmodules s /\ freed s' = freed s /\
    destroyed s' = destroyed s ++ [self m] /\
    dlog s' = dlog s ++ [TRACE_module_remove (self m); FIXME_This_shouldnt_happen].
Proof.
  intros H. unfold module_remove. cbn [lmodules debug destroy].
  rewrite (unlink_absent _ _ H). eexists. split; [reflexivity|]. cbn.
  rewrite <- app_assoc. repeat split.
Qed.

Lemma module_remove_absent_witness :
  let a := mk_module 100 0x400000 0x1000 DMT_PE 0 [] [] in
  let b := mk_module 200 0x500000 0x1000 DMT_ELF 0 [] [] in
  exists s',
    module_remove (dbg_init [a]) b = (false, s') /\
    lmodules s' = [a] /\ destroyed s' = [200].
Proof.
  intros a b.
  destruct (module_remove_absent (dbg_init [a]) b) as (s' & Hrm & Hl & _ & Hd & _).
  - intros x [<-|[]]. cbn. discriminate.
  - exists s'. split; [exact Hrm|]. split; [exact Hl | exact Hd].
Defined.

(** X19. [SymUnloadModule] unloads the module the [DMT_UNKNOWN] search finds
    for [BaseOfDll], which is any address inside the image, not only its
    base: that module is unlinked and freed, the others keep their order.
    It returns [FALSE] and changes nothing when the process is unknown, and
    [FALSE] when no module holds the address. *)
Theorem SymUnloadModule_spec s a :
  distinct (lmodules s) ->
  SymUnloadModule false s a = (false, s) /\
  (forall m s1,
     module_find_by_addr s a DMT_UNKNOWN = (Some m, s1) ->
     in_image a m /\
     exists pre post s',
       lmodules s = pre ++ m :: post /\
       SymUnloadModule true s a = (true, s') /\
       lmodules s' = pre ++ post /\ freed s' = freed s ++ [self m]) /\
  (forall s1,
     module_find_by_addr s a DMT_UNKNOWN = (None, s1) ->
     SymUnloadModule true s a = (false, s1) /\ lmodules s1 = lmodules s).
Proof.
  intros Hd. split; [reflexivity|]. split.
  - intros m s1 Hfind.
    destruct (module_find_by_addr_sound _ _ _ _ _ Hfind) as (Hin & Himg & Hl).
    split; [exact Himg|].
    assert (Hf : freed s1 = freed s).
    { clear - Hfind. cbn [module_find_by_addr] in Hfind.
      rewrite module_find_by_addr_typed_loop in Hfind.
      destruct (find_by_addr_loop (lmodules s) a DMT_PE).
      - injection Hfind as _ <-. reflexivity.
      - rewrite module_find_by_addr_typed_loop in Hfind. cbn [lmodules SetLastError] in Hfind.
        destruct (find_by_addr_loop (lmodules s) a DMT_ELF).
        + injection Hfind as _ <-. reflexivity.
        + discriminate. }
    assert (Hin1 : In m (lmodules s1)) by (rewrite Hl; exact Hin).
    apply in_split in Hin1 as (pre & post & E).
    assert (Hd1 : distinct (pre ++ m :: post)) by (rewrite <- E, Hl; exact Hd).
    destruct (distinct_split _ _ _ Hd1) as (Hpre & _).
    destruct (module_remove_split s1 pre m post E Hpre)
      as (s' & Hrm & Hl' & Hf' & _).
    exists pre, post, s'. rewrite <- Hl. split; [exact E|].
    unfold SymUnloadModule. cbn [negb]. rewrite Hfind.
    split; [exact Hrm|]. split; [exact Hl'|]. rewrite Hf', Hf. reflexivity.
  - intros s1 Hfind. unfold SymUnloadModule. cbn [negb]. rewrite Hfind.
    split; [reflexivity|].
    cbn [module_find_by_addr] in Hfind.
    rewrite module_find_by_addr_typed_loop in Hfind.
    destruct (find_by_addr_loop (lmodules s) a DMT_PE); [discriminate|].
    rewrite module_find_by_addr_typed_loop in Hfind. cbn [lmodules SetLastError] in Hfind.
    destruct (find_by_addr_loop (lmodules s) a DMT_ELF); [discriminate|].
    injection Hfind as <-. reflexivity.
Qed.

(** Unloading by an address in the middle of an image. *)
Lemma SymUnloadModule_spec_witness :
  let a := mk_module 100 0x400000 0x1000 DMT_PE 0 [] [] in
  let b := mk_module 200 0x500000 0x1000 DMT_PE 0 [] [] in
  exists s', SymUnloadModule true (dbg_init [a; b]) 0x500800 = (true, s') /\
             lmodules s' = [a].
Proof.
  intros a b.
  destruct (SymUnloadModule_spec (dbg_init [a; b]) 0x500800) as (_ & H & _).
  - unfold distinct. cbn. repeat constructor; cbn; intuition discriminate.
  - destruct (H b (dbg_init [a; b]) eq_refl)
      as (_ & pre & post & s' & E & Hrun & Hl & _).
    exists s'. split; [exact Hrun|].
    vm_compute in Hrun. injection Hrun as <-. reflexivity.
Defined.

Lemma get_container_loop_spec l inner :
  match get_container_loop l inner with
  | Some c =>
      self c <> self inner /\ encloses c inner /\
      exists pre post, l = pre ++ c :: post /\
        forall x, In x pre -> self x = self inner \/ ~ encloses x inner
  | None =>
      forall x, In x l -> self x = self inner \/ ~ encloses x inner
  end.
Proof.
  induction l as [|m l IH]; cbn [get_container_loop].
  - intros x [].
  - destruct (negb (self m =? self inner)
              && (BaseOfImage (module m) <=? BaseOfImage (module inner))
              && (image_end inner <=? image_end m)) eqn:E.
    + apply andb_prop in E as [E E3]. apply andb_prop in E as [E1 E2].
      apply negb_true_iff in E1.
      split; [lia|]. split; [unfold encloses; lia|].
      exists [], l. split; [reflexivity|]. intros x [].
    + assert (Hm : self m = self inner \/ ~ encloses m inner).
      { destruct (Z.eqb_spec (self m) (self inner)) as [Heq|Hne]; [left; exact Heq|].
        right. unfold encloses. cbn in E.
        apply andb_false_iff in E as [E|E]; lia. }
      destruct (get_container_loop l inner) as [c|].
      * destruct IH as (H1 & H2 & pre & post & -> & Hpre).
        split; [exact H1|]. split; [exact H2|].
        exists (m :: pre), post. split; [reflexivity|].
        intros x [<-|Hx]; auto.
      * intros x [<-|Hx]; auto.
Qed.

(** X20. The container search never yields the module asked about, even
    when it is in the list and encloses itself: it yields the first module
    of the list at another address whose image encloses the image of
    [inner] (its base is not above, its 32-bit end is not below), and the
    null pointer when there is none. *)
Theorem module_get_container_spec s inner :
  match module_get_container s inner with
  | Some c =>
      self c <> self inner /\ encloses c inner /\
      exists pre post, lmodules s = pre ++ c :: post /\
        forall x, In x pre -> self x = self inner \/ ~ encloses x inner
  | None =>
      forall x, In x (lmodules s) -> self x = self inner \/ ~ encloses x inner
  end.
Proof. exact (get_container_loop_spec (lmodules s) inner). Qed.

Lemma enum_loop_spec cb l : forall s,
  let s' := enum_loop cb l s in
  callbacks s' = callbacks s ++ upto_reject cb (map enum_entry (filter is_PE l)) /\
  lmodules s' = lmodules s /\ LastError s' = LastError s /\
  freed s' = freed s /\ destroyed s' = destroyed s /\ dlog s' = dlog s.
Proof.
  induction l as [|m l IH]; intros s; cbn [enum_loop filter map upto_reject].
  - cbv zeta. rewrite app_nil_r. repeat split; reflexivity.
  - unfold is_PE at 1. destruct (DbgModuleType_eqb (type m) DMT_PE); cbn [negb].
    + cbn [map upto_reject enum_entry].
      destruct (cb (ModuleName (module m)) (BaseOfImage (module m))); cbn [negb].
      * specialize (IH (call_back (ModuleName (module m)) (BaseOfImage (module m)) s)).
        cbv zeta in IH |- *. destruct IH as (H1 & H2 & H3 & H4 & H5 & H6).
        rewrite H1, H2, H3, H4, H5, H6. cbn. rewrite <- app_assoc.
        repeat split; reflexivity.
      * cbv zeta. cbn. repeat split; reflexivity.
    + apply IH.
Qed.

(** X21. [SymEnumerateModules] calls the callback with the name and base of
    the PE modules only, in list order, up to and with the first module the
    callback rejects; it changes nothing else, and returns [TRUE] whether
    the enumeration was completed or cut short, [FALSE] only when the
    process is unknown, in which case the callback is never called. *)
Theorem SymEnumerateModules_spec s cb :
  SymEnumerateModules false s cb = (false, s) /\
  exists s',
    SymEnumerateModules true s cb = (true, s') /\
    callbacks s' =
      callbacks s ++ upto_reject cb (map enum_entry (filter is_PE (lmodules s))) /\
    lmodules s' = lmodules s /\ LastError s' = LastError s /\
    freed s' = freed s /\ destroyed s' = destroyed s /\ dlog s' = dlog s.
Proof.
  split; [reflexivity|]. eexists. split; [reflexivity|].
  exact (enum_loop_spec cb (lmodules s) s).
Qed.

Lemma find_by_name_loop_spec field l name ty :
  match find_by_name_loop field l name ty with
  | Some m =>
      exists pre post, l = pre ++ m :: post /\ name_match field name ty m /\
        forall x, In x pre -> ~ name_match field name ty x
  | None => forall x, In x l -> ~ name_match field name ty x
  end.
Proof.
  induction l as [|m l IH]; cbn [find_by_name_loop].
  - intros x [].
  - destruct (DbgModuleType_eqb ty (type m)
              && (strcasecmp name (field (module m)) =? 0)) eqn:E.
    + exists [], l. split; [reflexivity|]. split; [|intros x []].
      apply andb_prop in E as [E1 E2].
      apply DbgModuleType_eqb_eq in E1. unfold name_match.
      split; [congruence | lia].
    + assert (Hm : ~ name_match field name ty m).
      { unfold name_match. intros [Ht H0].
        assert (DbgModuleType_eqb ty (type m) = true)
          by (apply DbgModuleType_eqb_eq; congruence).
        rewrite H in E. cbn in E. lia. }
      destruct (find_by_name_loop field l name ty) as [m'|].
      * destruct IH as (pre & post & -> & Hmatch & Hpre).
        exists (m :: pre), post. split; [reflexivity|]. split; [exact Hmatch|].
        intros x [<-|Hx]; auto.
      * intros x [<-|Hx]; auto.
Qed.

(** X22. In a search by name for a type other than [DMT_UNKNOWN], a match
    on [LoadedImageName] anywhere in the list wins over a match on
    [ModuleName]: the result is the first
    module whose loaded image name matches or, when no loaded image name
    matches, the first whose module name does; a search that finds a module
    leaves the state as it was, one that finds none sets the last error to
    [ERROR_INVALID_NAME]. *)
Theorem module_find_by_name_priority s name ty :
  ty <> DMT_UNKNOWN ->
  match module_find_by_name s name ty with
  | (Some m, s') =>
      s' = s /\
      exists pre post, lmodules s = pre ++ m :: post /\
        ((name_match LoadedImageName name ty m /\
          forall x, In x pre -> ~ name_match LoadedImageName name ty x) \/
         ((forall x, In x (lmodules s) -> ~ name_match LoadedImageName name ty x) /\
          name_match ModuleName name ty m /\
          forall x, In x pre -> ~ name_match ModuleName name ty x))
  | (None, s') =>
      s' = SetLastError ERROR_INVALID_NAME s /\
      forall x, In x (lmodules s) ->
        ~ name_match LoadedImageName name ty x /\
        ~ name_match ModuleName name ty x
  end.
Proof.
  intros Hty.
  assert (E : module_find_by_name s name ty = module_find_by_name_typed s name ty)
    by (destruct ty; [contradiction | reflexivity | reflexivity]).
  rewrite E. unfold module_find_by_name_typed.
  pose proof (find_by_name_loop_spec LoadedImageName (lmodules s) name ty) as HL.
  pose proof (find_by_name_loop_spec ModuleName (lmodules s) name ty) as HM.
  destruct (find_by_name_loop LoadedImageName (lmodules s) name ty) as [m|].
  - split; [reflexivity|]. destruct HL as (pre & post & El & Hm & Hpre).
    exists pre, post. split; [exact El|]. left. auto.
  - destruct (find_by_name_loop ModuleName (lmodules s) name ty) as [m|].
    + split; [reflexivity|]. destruct HM as (pre & post & El & Hm & Hpre).
      exists pre, post. split; [exact El|]. right. auto.
    + split; [reflexivity|]. intros x Hx. split; auto.
Qed.

(** "KERNEL32" is the module name of the first module and, in lower case,
    the loaded image name of the second: the second is found. *)
Lemma module_find_by_name_priority_witness :
  let a := mk_module 100 0x400000 0x1000 DMT_PE 0 [75; 69; 82; 78; 69; 76; 51; 50] [97] in
  let b := mk_module 200 0x500000 0x1000 DMT_PE 0 [98] [107; 101; 114; 110; 101; 108; 51; 50] in
  match module_find_by_name (dbg_init [a; b])
          [75; 69; 82; 78; 69; 76; 51; 50] DMT_PE with
  | (Some m, s') => s' = dbg_init [a; b] /\ self m = 200
  | (None, _) => False
  end.
Proof.
  intros a b.
  pose proof (module_find_by_name_priority (dbg_init [a; b])
                [75; 69; 82; 78; 69; 76; 51; 50] DMT_PE ltac:(discriminate))
    as H.
  destruct (module_find_by_name (dbg_init [a; b])
              [75; 69; 82; 78; 69; 76; 51; 50] DMT_PE) as [[m|] s'] eqn:E.
  - destruct H as [Hs _]. split; [exact Hs|].
    vm_compute in E. injection E as <- _. reflexivity.
  - vm_compute in E. discriminate.
Defined.

(** *** Strings in memory *)

Lemma byte_of_Z c :
  0 <= c < 256 ->
  Z.of_N (Byte.to_N (match Byte.of_N (Z.to_N c) with
                     | Some b => b
                     | None => x00
                     end)) = c.
Proof.
  intros H. destruct (Byte.of_N (Z.to_N c)) as [b|] eqn:E.
  - apply Byte.to_of_N in E. rewrite E. lia.
  - apply Byte.of_N_None_iff in E. lia.
Qed.

Lemma cstring_range before str :
  Forall (fun c => 0 <= c < 256) before -> chars str ->
  Forall (fun c => 0 <= c < 256) (before ++ str ++ [0]).
Proof.
  intros Hb Hs. apply Forall_app. split; [exact Hb|].
  apply Forall_app. split.
  - eapply Forall_impl; [|exact Hs]. cbv beta. intros; lia.
  - constructor; [lia | constructor].
Qed.

Lemma load_cstring before str pre c post :
  Forall (fun c => 0 <= c < 256) (before ++ str ++ [0]) ->
  before ++ str ++ [0] = pre ++ c :: post ->
  load_BYTE (cstring before str)
    (Z.of_nat (List.length pre) - Z.of_nat (List.length before)) = retW c.
Proof.
  intros Hr E. unfold load_BYTE, cstring. cbn [p_ofs p_blk blk_size blk_data].
  replace (Z.of_nat (List.length before) +
           (Z.of_nat (List.length pre) - Z.of_nat (List.length before)))
    with (Z.of_nat (List.length pre)) by lia.
  rewrite E in Hr |- *.
  assert (Hlt : (Z.of_nat (List.length pre) <? 0)
                || (Z.of_nat (List.length (pre ++ c :: post))
                    <=? Z.of_nat (List.length pre)) = false).
  { rewrite length_app. cbn [List.length].
    apply orb_false_iff. split; [apply Z.ltb_ge | apply Z.leb_gt]; lia. }
  rewrite Hlt, Nat2Z.id. unfold bytes.
  rewrite nth_error_map, nth_error_app2, Nat.sub_diag by lia.
  cbn [nth_error option_map]. rewrite byte_of_Z; [reflexivity|].
  apply Forall_app in Hr as [_ Hr]. inversion Hr; assumption.
Qed.

Lemma load_str before str s1 c s2 :
  Forall (fun c => 0 <= c < 256) before -> chars str ->
  str ++ [0] = s1 ++ c :: s2 ->
  load_BYTE (cstring before str) (Z.of_nat (List.length s1)) = retW c.
Proof.
  intros Hb Hs E.
  replace (Z.of_nat (List.length s1))
    with (Z.of_nat (List.length (before ++ s1)) - Z.of_nat (List.length before))
    by (rewrite length_app; lia).
  apply load_cstring with (post := s2).
  - apply cstring_range; assumption.
  - rewrite E, <- app_assoc. reflexivity.
Qed.

Lemma load_BYTE_shift p k i : load_BYTE (p +p k) i = load_BYTE p (k + i).
Proof.
  unfold load_BYTE, ptr_add. cbn [p_ofs p_blk]. rewrite Z.add_assoc. reflexivity.
Qed.

Lemma chars_nonzero c s : chars (c :: s) -> (c =? 0) = false /\ chars s.
Proof.
  intros H. inversion H; subst. split; [apply Z.eqb_neq; lia | assumption].
Qed.

Lemma chars_app_r s1 s2 : chars (s1 ++ s2) -> chars s2.
Proof. intros H. apply Forall_app in H. tauto. Qed.

Lemma strlen_loop_cstring before str :
  Forall (fun c => 0 <= c < 256) before -> chars str ->
  forall s2 s1 n, str = s1 ++ s2 -> (List.length s2 < n)%nat ->
  strlen_loop (cstring before str) n (Z.of_nat (List.length s1))
  = retW (Z.of_nat (List.length str)).
Proof.
  intros Hb Hs. induction s2 as [|c s2 IH]; intros s1 n E Hn;
    (destruct n as [|n]; [lia|]); cbn [strlen_loop].
  - rewrite (bindW_quiet _ _ 0).
    + rewrite app_nil_r in E. subst s1. reflexivity.
    + apply load_str with (s2 := []); auto.
      rewrite E, app_nil_r. reflexivity.
  - rewrite (bindW_quiet _ _ c).
    + assert (Hc : chars (c :: s2)) by (apply chars_app_r with s1; congruence).
      destruct (chars_nonzero _ _ Hc) as [-> _].
      replace (Z.of_nat (List.length s1) + 1)
        with (Z.of_nat (List.length (s1 ++ [c])))
        by (rewrite length_app; cbn [List.length]; lia).
      apply IH; [rewrite <- app_assoc; exact E | cbn [List.length] in Hn; lia].
    + apply load_str with (s2 := s2 ++ [0]); auto.
      rewrite E, <- app_assoc. reflexivity.
Qed.

Lemma strlen_cstring before str :
  Forall (fun c => 0 <= c < 256) before -> chars str ->
  strlen (cstring before str) = retW (Z.of_nat (List.length str)).
Proof.
  intros Hb Hs. unfold strlen.
  assert (H0 : (p_ofs (cstring before str) <? 0) = false)
    by (apply Z.ltb_ge; cbn; lia).
  rewrite H0.
  apply (strlen_loop_cstring before str Hb Hs str []); [reflexivity|].
  cbn [cstring p_blk p_ofs blk_size]. rewrite !length_app. cbn [List.length]. lia.
Qed.

Lemma is_sep_false c : c <> 47 /\ c <> 92 -> (c =? 47) || (c =? 92) = false.
Proof.
  intros [H1 H2]. apply orb_false_iff. split; apply Z.eqb_neq; assumption.
Qed.

Lemma is_sep_true c : c = 47 \/ c = 92 -> (c =? 47) || (c =? 92) = true.
Proof. intros [->| ->]; reflexivity. Qed.

(** Going back from the end over characters that are no separators. *)
Lemma basename_loop_skip before str :
  Forall (fun c => 0 <= c < 256) before -> chars str ->
  forall b1 s1 s2, str = s1 ++ b1 ++ s2 -> no_sep b1 ->
  basename_loop (cstring before str) (List.length (s1 ++ b1))
  = basename_loop (cstring before str) (List.length s1).
Proof.
  intros Hb Hs. induction b1 as [|c b1 IH] using rev_ind; intros s1 s2 E Hn.
  - rewrite app_nil_r. reflexivity.
  - apply Forall_app in Hn as [Hn1 Hn2]. pose proof (Forall_inv Hn2) as Hc.
    replace (List.length (s1 ++ b1 ++ [c])) with (S (List.length (s1 ++ b1)))
      by (rewrite !length_app; cbn [List.length]; lia).
    cbn [basename_loop].
    rewrite (bindW_quiet _ _ c).
    + rewrite (is_sep_false _ Hc).
      apply IH with (s2 := c :: s2); [|exact Hn1].
      rewrite E, <- !app_assoc. reflexivity.
    + apply load_str with (s2 := s2 ++ [0]); auto.
      rewrite E, <- !app_assoc. reflexivity.
Qed.

Lemma basename_loop_sep before str d sep base :
  Forall (fun c => 0 <= c < 256) before -> chars str ->
  str = (d ++ [sep]) ++ base -> sep = 47 \/ sep = 92 -> no_sep base ->
  basename_loop (cstring before str) (List.length str)
  = retW (Z.of_nat (List.length d)).
Proof.
  intros Hb Hs E Hsep Hn.
  rewrite E at 2.
  rewrite (basename_loop_skip before str Hb Hs base (d ++ [sep]) []);
    [|rewrite app_nil_r; exact E | exact Hn].
  rewrite length_app. cbn [List.length]. rewrite Nat.add_1_r.
  cbn [basename_loop].
  rewrite (bindW_quiet _ _ sep).
  - rewrite (is_sep_true _ Hsep). reflexivity.
  - apply load_str with (s2 := base ++ [0]); auto.
    rewrite E, <- !app_assoc. reflexivity.
Qed.

Lemma basename_loop_nosep before str :
  Forall (fun c => 0 <= c < 256) before -> chars str -> no_sep str ->
  basename_loop (cstring before str) (List.length str)
  = (c <- load_BYTE (cstring before str) (-1) ;; retW (-1))%W.
Proof.
  intros Hb Hs Hn.
  rewrite <- (app_nil_l str) at 2.
  rewrite (basename_loop_skip before str Hb Hs str [] []);
    [reflexivity | rewrite app_nil_r; reflexivity | exact Hn].
Qed.

Lemma strncpy_read_shift p k n : forall i,
  strncpy_read (p +p k) n i = strncpy_read p n (k + i).
Proof.
  induction n as [|n IH]; intros i; cbn [strncpy_read]; [reflexivity|].
  rewrite load_BYTE_shift. unfold bindW.
  destruct (load_BYTE p (k + i)) as [[c l]|f]; [|reflexivity].
  rewrite IH, Z.add_assoc. reflexivity.
Qed.

Lemma strncpy_read_cstring before str :
  Forall (fun c => 0 <= c < 256) before -> chars str ->
  forall s2 s1 n, str = s1 ++ s2 ->
  strncpy_read (cstring before str) n (Z.of_nat (List.length s1))
  = retW (firstn n s2).
Proof.
  intros Hb Hs. induction s2 as [|c s2 IH]; intros s1 n E;
    (destruct n as [|n]; [rewrite firstn_O; reflexivity|]);
    cbn [strncpy_read firstn].
  - rewrite (bindW_quiet _ _ 0); [reflexivity|].
    apply load_str with (s2 := []); auto. rewrite E, app_nil_r. reflexivity.
  - rewrite (bindW_quiet _ _ c).
    + assert (Hc : chars (c :: s2)) by (apply chars_app_r with s1; congruence).
      destruct (chars_nonzero _ _ Hc) as [-> _].
      replace (Z.of_nat (List.length s1) + 1)
        with (Z.of_nat (List.length (s1 ++ [c])))
        by (rewrite length_app; cbn [List.length]; lia).
      rewrite (IH (s1 ++ [c]) n); [reflexivity|].
      rewrite <- app_assoc. exact E.
    + apply load_str with (s2 := s2 ++ [0]); auto.
      rewrite E, <- app_assoc. reflexivity.
Qed.

Lemma copy_string_cstring before str s1 s2 size :
  Forall (fun c => 0 <= c < 256) before -> chars str -> str = s1 ++ s2 ->
  0 < size ->
  copy_string (cstring before str +p Z.of_nat (List.length s1)) size
  = retW (firstn (Z.to_nat (size - 1)) s2).
Proof.
  intros Hb Hs E Hsize. unfold copy_string.
  rewrite strncpy_read_shift, Z.add_0_r.
  rewrite (bindW_quiet _ _ _ (strncpy_read_cstring before str Hb Hs s2 s1 _ E)).
  rewrite firstn_firstn. rewrite Nat.min_l by lia. reflexivity.
Qed.

Lemma ptr_add_0 p : p +p 0 = p.
Proof. destruct p. unfold ptr_add. cbn. rewrite Z.add_0_r. reflexivity. Qed.

Lemma list_last_case {A} (l : list A) :
  l = [] \/ exists l' a, l = l' ++ [a].
Proof. induction l using rev_ind; [left | right]; eauto. Qed.

(** What [module_new] reads of a name that is well placed. *)
Lemma module_new_reads before dir base :
  Forall (fun c => 0 <= c < 256) before -> chars (dir ++ base) ->
  no_sep base ->
  (dir = [] -> before <> []) ->
  (forall d c, dir = d ++ [c] -> c = 47 \/ c = 92) ->
  let name := cstring before (dir ++ base) in
  (len <- strlen name ;;
   ptr <- basename_loop name (Z.to_nat len) ;;
   ptr <- (if ptr <? 0 then retW (ptr + 1)
           else c <- load_BYTE name ptr ;;
                if (c =? 47) || (c =? 92) then retW (ptr + 1)
                else retW ptr) ;;
   mname <- copy_string (name +p ptr) sizeof_ModuleName ;;
   lname <- copy_string name sizeof_LoadedImageName ;;
   retW (mname, lname))%W
  = retW (firstn 31 base, firstn 255 (dir ++ base)).
Proof.
  intros Hb Hs Hn Hempty Hsep name. subst name.
  assert (Hl : copy_string (cstring before (dir ++ base)) sizeof_LoadedImageName
               = retW (firstn 255 (dir ++ base))).
  { rewrite <- (ptr_add_0 (cstring before (dir ++ base))).
    apply (copy_string_cstring before (dir ++ base) [] (dir ++ base));
      auto; reflexivity. }
  rewrite (bindW_quiet _ _ _ (strlen_cstring before _ Hb Hs)), Nat2Z.id.
  destruct (list_last_case dir) as [->|(dir0 & c0 & ->)].
  - clear Hsep. cbn [app] in *.
    rewrite (basename_loop_nosep before base Hb Hs Hn).
    destruct (list_last_case before) as [->|(before0 & x & ->)];
      [exact (False_ind _ (Hempty eq_refl eq_refl))|].
    assert (Hx : load_BYTE (cstring (before0 ++ [x]) base) (-1) = retW x).
    { replace (-1) with (Z.of_nat (List.length before0)
                         - Z.of_nat (List.length (before0 ++ [x])))
        by (rewrite length_app; cbn [List.length]; lia).
      apply load_cstring with (post := base ++ [0]).
      - apply cstring_range; assumption.
      - rewrite <- app_assoc. reflexivity. }
    rewrite (bindW_quiet _ _ x Hx).
    rewrite (bindW_quiet _ _ (-1) eq_refl).
    change (-1 <? 0) with true. cbv iota.
    rewrite (bindW_quiet _ _ (-1 + 1) eq_refl).
    change (-1 + 1) with (Z.of_nat (List.length (@nil Z))).
    rewrite (bindW_quiet _ _ _
               (copy_string_cstring (before0 ++ [x]) base [] base
                  sizeof_ModuleName Hb Hs eq_refl eq_refl)).
    rewrite (bindW_quiet _ _ _ Hl). reflexivity.
  - clear Hempty. specialize (Hsep dir0 c0 eq_refl).
    rewrite (basename_loop_sep before _ dir0 c0 base Hb Hs eq_refl Hsep Hn).
    rewrite (bindW_quiet _ _ (Z.of_nat (List.length dir0)) eq_refl).
    assert (H0 : (Z.of_nat (List.length dir0) <? 0) = false)
      by (apply Z.ltb_ge; lia).
    rewrite H0.
    assert (Hc : load_BYTE (cstring before ((dir0 ++ [c0]) ++ base))
                   (Z.of_nat (List.length dir0)) = retW c0).
    { apply load_str with (s2 := base ++ [0]); auto.
      rewrite <- !app_assoc. reflexivity. }
    rewrite (bindW_quiet _ _ c0 Hc), (is_sep_true _ Hsep).
    rewrite (bindW_quiet _ _ (Z.of_nat (List.length dir0) + 1) eq_refl).
    replace (Z.of_nat (List.length dir0) + 1)
      with (Z.of_nat (List.length (dir0 ++ [c0])))
      by (rewrite length_app; cbn [List.length]; lia).
    rewrite (bindW_quiet _ _ _
               (copy_string_cstring before _ (dir0 ++ [c0]) base
                  sizeof_ModuleName Hb Hs eq_refl eq_refl)).
    rewrite (bindW_quiet _ _ _ Hl). reflexivity.
Qed.

(** X23. [module_new] on a name that ends with a base name without
    separators, after a directory part that is empty or ends with ['/'] or
    ['\\'] (the name being preceded by another byte in its block when it
    has no directory part): the new module is linked at the head of the
    list; its module name is the base name cut to 31 characters, its loaded
    image name the whole name cut to 255, its image name empty; its base,
    size, time stamp and checksum are the arguments cut to 32 bits; it has
    no symbols yet.  The last error and the freed structures are
    untouched. *)
Theorem module_new_spec a s before dir base ty mod_addr size stamp checksum :
  Forall (fun c => 0 <= c < 256) before -> chars (dir ++ base) ->
  no_sep base ->
  (dir = [] -> before <> []) ->
  (forall d c, dir = d ++ [c] -> c = 47 \/ c = 92) ->
  exists m s',
    module_new (Some a) s (cstring before (dir ++ base)) ty
      mod_addr size stamp checksum = Ok (Some m, s') /\
    lmodules s' = m :: lmodules s /\
    LastError s' = LastError s /\ freed s' = freed s /\
    self m = a /\ type m = ty /\
    ModuleName (module m) = firstn 31 base /\
    LoadedImageName (module m) = firstn 255 (dir ++ base) /\
    ImageName (module m) = [] /\
    BaseOfImage (module m) = mod_addr mod 2 ^ 32 /\
    ImageSize (module m) = size mod 2 ^ 32 /\
    TimeDateStamp (module m) = stamp mod 2 ^ 32 /\
    CheckSum (module m) = checksum mod 2 ^ 32 /\
    SymType (module m) = SymNone /\ NumSyms (module m) = 0.
Proof.
  intros Hb Hs Hn Hempty Hsep. unfold module_new.
  pose proof (module_new_reads before dir base Hb Hs Hn Hempty Hsep) as Hr.
  cbv zeta in Hr |- *. rewrite Hr. unfold retW.
  eexists. eexists. split; [reflexivity|].
  cbn. repeat split; reflexivity.
Qed.

(** "C:\\a\\ntdll.dll" in a block of its own. *)
Lemma module_new_spec_witness :
  exists m s',
    module_new (Some 100) (dbg_init [])
      (cstring [] ([67; 58; 92; 97; 92] ++ [110; 116; 100; 108; 108; 46; 100; 108; 108]))
      DMT_PE 0x400000 0x1000 0 0 = Ok (Some m, s') /\
    lmodules s' = [m] /\
    ModuleName (module m) = [110; 116; 100; 108; 108; 46; 100; 108; 108].
Proof.
  destruct (module_new_spec 100 (dbg_init []) []
              [67; 58; 92; 97; 92] [110; 116; 100; 108; 108; 46; 100; 108; 108]
              DMT_PE 0x400000 0x1000 0 0)
    as (m & s' & Hrun & Hl & _ & _ & _ & _ & Hname & _).
  - constructor.
  - unfold chars. repeat constructor; lia.
  - unfold no_sep. repeat constructor; lia.
  - discriminate.
  - intros d c E. change [67; 58; 92; 97; 92] with ([67; 58; 92; 97] ++ [92]) in E.
    apply app_inj_tail in E as [_ <-]. right. reflexivity.
  - exists m, s'. split; [exact Hrun|]. split; [exact Hl | exact Hname].
Defined.

(** X24. The loop of [module_new] that looks for the last separator tests
    the character before it tests the pointer: for a name without
    separators that starts its block, the empty name among them, the byte
    before the block is read, which is a read out of bounds.  An allocation that fails reads nothing and
    returns the null pointer, the state unchanged. *)
Theorem module_new_reads_before_name a s str ty mod_addr size stamp checksum :
  chars str -> no_sep str ->
  module_new (Some a) s (cstring [] str) ty mod_addr size stamp checksum
    = Fault OutOfBounds /\
  module_new None s (cstring [] str) ty mod_addr size stamp checksum
    = Ok (None, s).
Proof.
  intros Hs Hn. split; [|reflexivity]. unfold module_new. cbv zeta.
  rewrite (bindW_quiet _ _ _ (strlen_cstring [] str (Forall_nil _) Hs)), Nat2Z.id.
  rewrite (basename_loop_nosep [] str (Forall_nil _) Hs Hn).
  reflexivity.
Qed.

(** "ntdll.dll" in a block of its own. *)
Lemma module_new_reads_before_name_witness :
  module_new (Some 100) (dbg_init [])
    (cstring [] [110; 116; 100; 108; 108; 46; 100; 108; 108])
    DMT_PE 0x400000 0x1000 0 0 = Fault OutOfBounds.
Proof.
  apply (module_new_reads_before_name 100 (dbg_init [])
           [110; 116; 100; 108; 108; 46; 100; 108; 108]).
  - unfold chars. repeat constructor; lia.
  - unfold no_sep. repeat constructor; lia.
Defined.

Lemma module_new_inv a s name ty mod_addr size stamp checksum r s' :
  module_new (Some a) s name ty mod_addr size stamp checksum = Ok (r, s') ->
  exists m, r = Some m /\ self m = a /\ type m = ty /\
    BaseOfImage (module m) = mod_addr mod 2 ^ 32 /\
    ImageSize (module m) = size mod 2 ^ 32 /\
    lmodules s' = m :: lmodules s /\ freed s' = freed s /\
    LastError s' = LastError s.
Proof.
  unfold module_new. cbv zeta.
  match goal with |- match ?c with _ => _ end = _ -> _ =>
    destruct c as [[[mname lname] l]|f] end; [|discriminate].
  intros H. injection H as <- <-. eexists. split; [reflexivity|].
  cbn. repeat split; reflexivity.
Qed.

(** A module found by address has the type [DMT_PE] or [DMT_ELF]. *)
Lemma module_find_by_addr_type s addr ty m s' :
  module_find_by_addr s addr ty = (Some m, s') -> type m <> DMT_UNKNOWN.
Proof.
  assert (Htyped : forall s0 ty0 m0 s0',
    module_find_by_addr_typed s0 addr ty0 = (Some m0, s0') -> type m0 = ty0).
  { intros s0 ty0 m0 s0' H. rewrite module_find_by_addr_typed_loop in H.
    destruct (find_by_addr_loop (lmodules s0) addr ty0) as [x|] eqn:E;
      [|discriminate].
    injection H as <- <-.
    destruct (find_by_addr_loop_in _ _ _ _ E) as [_ [Ht _]]. exact Ht. }
  intros H. destruct ty; cbn [module_find_by_addr] in H.
  - destruct (module_find_by_addr_typed s addr DMT_PE) as [[x|] s1] eqn:E1.
    + injection H as <- <-. rewrite (Htyped _ _ _ _ E1). discriminate.
    + destruct (module_find_by_addr_typed s1 addr DMT_ELF) as [[x|] s2] eqn:E2;
        [|discriminate].
      injection H as <- <-. rewrite (Htyped _ _ _ _ E2). discriminate.
  - rewrite (Htyped _ _ _ _ H). discriminate.
  - rewrite (Htyped _ _ _ _ H). discriminate.
Qed.

(** X25. A module that [module_new] has just made hides the older
    ones: a search by address for its type, when that is [DMT_PE] or
    [DMT_ELF], yields it for every address of its image, whatever else the
    list holds; one made with [DMT_UNKNOWN] is never found by address.
    Removing the new module gives back the list as it was before and frees
    the structure. *)
Theorem module_new_then_find_and_remove
    a s name ty mod_addr size stamp checksum m s' :
  module_new (Some a) s name ty mod_addr size stamp checksum = Ok (Some m, s') ->
  (ty <> DMT_UNKNOWN -> forall addr, in_image addr m ->
     module_find_by_addr s' addr ty = (Some m, s')) /\
  (ty = DMT_UNKNOWN -> forall addr t,
     fst (module_find_by_addr s' addr t) <> Some m) /\
  exists s'',
    module_remove s' m = (true, s'') /\
    lmodules s'' = lmodules s /\ freed s'' = freed s ++ [a].
Proof.
  intros H. destruct (module_new_inv _ _ _ _ _ _ _ _ _ _ H)
    as (m0 & Em & Hself & Hty & _ & _ & Hl & Hf & _).
  injection Em as <-.
  split; [|split].
  - intros Hne addr [Hlo Hhi].
    assert (E : module_find_by_addr s' addr ty
                = module_find_by_addr_typed s' addr ty)
      by (destruct ty; [contradiction | reflexivity | reflexivity]).
    rewrite E, module_find_by_addr_typed_loop, Hl. cbn [find_by_addr_loop].
    assert (E1 : DbgModuleType_eqb ty (type m) = true)
      by (apply DbgModuleType_eqb_eq; congruence).
    assert (E2 : (BaseOfImage (module m) <=? addr) = true)
      by (apply Z.leb_le; exact Hlo).
    assert (E3 : (addr <? image_end m) = true)
      by (apply Z.ltb_lt; exact Hhi).
    rewrite E1, E2, E3. reflexivity.
  - intros Hu addr t Hfound.
    destruct (module_find_by_addr s' addr t) as [r s1] eqn:E1.
    cbn in Hfound. subst r.
    apply module_find_by_addr_type in E1. congruence.
  - unfold module_remove. cbn [lmodules debug destroy]. rewrite Hl.
    cbn [unlink]. rewrite Z.eqb_refl. eexists. split; [reflexivity|].
    cbn. rewrite Hf, Hself. split; reflexivity.
Qed.

(** A new PE module over an older one with the same image. *)
Lemma module_new_then_find_and_remove_witness :
  let old := mk_module 200 0x400000 0x1000 DMT_PE 0 [] [] in
  match module_new (Some 100) (dbg_init [old]) (cstring [47] [97])
          DMT_PE 0x400000 0x1000 0 0 with
  | Ok (Some m, s') =>
      module_find_by_addr s' 0x400010 DMT_PE = (Some m, s') /\
      exists s'', module_remove s' m = (true, s'') /\ lmodules s'' = [old]
  | _ => False
  end.
Proof.
  intros old.
  destruct (module_new (Some 100) (dbg_init [old]) (cstring [47] [97])
              DMT_PE 0x400000 0x1000 0 0) as [[[m|] s']|f] eqn:E.
  - destruct (module_new_then_find_and_remove _ _ _ _ _ _ _ _ _ _ E)
      as (Hfind & _ & s'' & Hrm & Hl & _).
    split.
    + apply Hfind; [discriminate|].
      vm_compute in E. injection E as <- <-. vm_compute. split; [discriminate | reflexivity].
    + exists s''. split; [exact Hrm | exact Hl].
  - vm_compute in E. discriminate.
  - vm_compute in E. discriminate.
Defined.

Lemma with_SymType_same i : with_SymType (SymType i) i = i.
Proof. destruct i. reflexivity. Qed.

Lemma module_find_by_addr_lmodules s addr ty r s' :
  module_find_by_addr s addr ty = (r, s') -> lmodules s' = lmodules s.
Proof.
  unfold module_find_by_addr, module_find_by_addr_typed.
  destruct ty.
  - destruct (find_by_addr_loop (lmodules s) addr DMT_PE).
    + cbv beta iota. intros H. injection H as _ <-. reflexivity.
    + cbv beta iota. cbn [lmodules SetLastError].
      destruct (find_by_addr_loop (lmodules s) addr DMT_ELF);
        cbv beta iota; intros H; injection H as _ <-; reflexivity.
  - destruct (find_by_addr_loop (lmodules s) addr DMT_ELF);
      intros H; injection H as _ <-; reflexivity.
  - destruct (find_by_addr_loop (lmodules s) addr DMT_PE);
      intros H; injection H as _ <-; reflexivity.
Qed.

(** X26. [SymGetModuleInfo] for a known process: a call that fails leaves
    [*ModuleInfo] as it was; a call that succeeds was given a structure of
    the full size and reports a module of the list whose image holds the
    address, all fields its own but for the symbol type, which is either
    its own or, the module having no symbols, that of another module of the
    list that encloses it and has symbols.  The list of modules is
    unchanged. *)
Theorem SymGetModuleInfo_spec s addr info r out s' :
  SymGetModuleInfo true s addr info = ((r, out), s') ->
  lmodules s' = lmodules s /\
  (r = false -> out = info) /\
  (r = true ->
     sizeof_IMAGEHLP_MODULE <= SizeOfStruct info /\
     exists m, In m (lmodules s) /\ in_image addr m /\
       out = with_SymType (SymType out) (module m) /\
       (SymType out = SymType (module m) \/
        (SymType (module m) <= SymNone /\
         exists c, In c (lmodules s) /\ self c <> self m /\ encloses c m /\
           SymNone < SymType (module c) /\
           SymType out = SymType (module c)))).
Proof.
  unfold SymGetModuleInfo. cbn [negb].
  destruct (SizeOfStruct info <? sizeof_IMAGEHLP_MODULE) eqn:Esz.
  { intros H. injection H as <- <- <-.
    split; [reflexivity|]. split; [reflexivity | discriminate]. }
  apply Z.ltb_ge in Esz.
  destruct (module_find_by_addr s addr DMT_UNKNOWN) as [[m|] s1] eqn:Ef.
  2:{ intros H. injection H as <- <- <-.
      split; [|split; [reflexivity | discriminate]].
      exact (module_find_by_addr_lmodules _ _ _ _ _ Ef). }
  destruct (module_find_by_addr_sound _ _ _ _ _ Ef) as (Hin & Himg & Hl).
  assert (Hown : forall t, with_SymType t (module m)
                           = with_SymType (SymType (with_SymType t (module m)))
                               (module m)) by reflexivity.
  cbv zeta.
  destruct (SymType (module m) <=? SymNone) eqn:Esym.
  - apply Z.leb_le in Esym. unfold module_get_container. rewrite Hl.
    pose proof (get_container_loop_spec (lmodules s) m) as Hc.
    destruct (get_container_loop (lmodules s) m) as [c|].
    + destruct Hc as (Hne & Henc & pre & post & El & _).
      destruct (SymNone <? SymType (module c)) eqn:Ec;
        intros H; injection H as <- <- <-;
        (split; [exact Hl|]); (split; [discriminate|]); intros _;
        (split; [exact Esz|]); exists m;
        (split; [exact Hin|]); (split; [exact Himg|]).
      * split; [apply Hown|]. right. split; [exact Esym|].
        exists c. split; [rewrite El; apply in_elt|].
        split; [exact Hne|]. split; [exact Henc|].
        split; [apply Z.ltb_lt; exact Ec | reflexivity].
      * split; [symmetry; apply with_SymType_same | left; reflexivity].
    + intros H; injection H as <- <- <-.
      split; [exact Hl|]. split; [discriminate|]. intros _.
      split; [exact Esz|]. exists m.
      split; [exact Hin|]. split; [exact Himg|].
      split; [symmetry; apply with_SymType_same | left; reflexivity].
  - intros H; injection H as <- <- <-.
    split; [exact Hl|]. split; [discriminate|]. intros _.
    split; [exact Esz|]. exists m.
    split; [exact Hin|]. split; [exact Himg|].
    split; [symmetry; apply with_SymType_same | left; reflexivity].
Qed.

(** A PE module without symbols inside an ELF module with deferred
    symbols. *)
Lemma SymGetModuleInfo_spec_witness :
  let pe := mk_module 100 0x401000 0x1000 DMT_PE SymNone [112; 101] [] in
  let elf := mk_module 200 0x400000 0x10000 DMT_ELF SymDeferred [101; 108; 102] [] in
  let info := module (mk_module 0 0 0 DMT_UNKNOWN 0 [] []) in
  match SymGetModuleInfo true (dbg_init [pe; elf]) 0x401010 info with
  | ((true, out), _) =>
      SymType out = SymDeferred /\ ModuleName out = [112; 101] /\
      exists m, In m [pe; elf] /\ out = with_SymType (SymType out) (module m)
  | _ => False
  end.
Proof.
  intros pe elf info.
  destruct (SymGetModuleInfo true (dbg_init [pe; elf]) 0x401010 info)
    as [[[|] out] s'] eqn:E.
  - destruct (SymGetModuleInfo_spec _ _ _ _ _ _ E) as (_ & _ & H).
    destruct (H eq_refl) as (_ & m & Hin & _ & Hout & _).
    vm_compute in E. injection E as <- _.
    split; [reflexivity|]. split; [reflexivity|].
    exists m. split; [exact Hin | exact Hout].
  - vm_compute in E. discriminate.
Defined.

(** X27. [SymGetModuleBase] returns [0] or the base of a module of the list
    of type PE or ELF whose image holds the address, so never more than the
    address; the list of modules is unchanged. *)
Theorem SymGetModuleBase_spec pcs s addr b s' :
  SymGetModuleBase pcs s addr = (b, s') ->
  lmodules s' = lmodules s /\
  (b = 0 \/
   exists m, In m (lmodules s) /\ in_image addr m /\
     type m <> DMT_UNKNOWN /\ b = BaseOfImage (module m) /\ b <= addr).
Proof.
  unfold SymGetModuleBase. destruct pcs; cbn [negb].
  2:{ intros H. injection H as <- <-. split; [reflexivity | left; reflexivity]. }
  destruct (module_find_by_addr s addr DMT_UNKNOWN) as [[m|] s1] eqn:Ef;
    intros H; injection H as <- <-.
  - destruct (module_find_by_addr_sound _ _ _ _ _ Ef) as (Hin & Himg & Hl).
    split; [exact Hl|]. right. exists m.
    split; [exact Hin|]. split; [exact Himg|].
    split; [exact (module_find_by_addr_type _ _ _ _ _ Ef)|].
    split; [reflexivity | apply Himg].
  - split; [|left; reflexivity].
    exact (module_find_by_addr_lmodules _ _ _ _ _ Ef).
Qed.

Lemma SymGetModuleBase_spec_witness :
  let pe := mk_module 100 0x401000 0x1000 DMT_PE SymNone [112; 101] [] in
  match SymGetModuleBase true (dbg_init [pe]) 0x401010 with
  | (b, s') => lmodules s' = [pe] /\ b <= 0x401010
  end.
Proof.
  intros pe.
  destruct (SymGetModuleBase true (dbg_init [pe]) 0x401010) as [b s'] eqn:E.
  destruct (SymGetModuleBase_spec _ _ _ _ _ E) as (Hl & [->|(m & _ & _ & _ & _ & Hb)]).
  - split; [exact Hl | lia].
  - split; [exact Hl | exact Hb].
Defined.

End DbghelpProps.
